(** * Black-76 instrument graph: spot, currency future, option on the future

    A shallow embedding of [contracts.py] (BaseInstrument, FXSpot,
    CurrencyFuture, CurrencyFutureOption).

    - Python [float | int] values are real numbers ([R]); IEEE specials
      (nan, inf) are outside the model, so the numpy functions [np.log],
      [np.sqrt] and [np.exp] are the total functions [ln], [sqrt], [exp].
    - [None]-able attributes are [option]s.
    - Objects live in an arena ([heap], a list of nodes); an object reference
      is its index.  Property setters and methods are computations in a
      state-and-exception monad: an exception keeps the writes made before
      it was raised, as in Python.
    - The collaborators whose code is not part of the module ([daycount],
      [scipy.stats.norm], [scipy.optimize.newton], the wall clock) are the
      fields of one record, [externals], over which everything is
      parameterised.  A record holds one reading of the wall clock; what is
      computed at another reading is computed with another record
      ([at_wall_clock]).
    - The monad also carries a trace ([log]) of the calls of [_update] and of
      the root-finder; nothing in the program reads it. *)

From Stdlib Require Import Reals Lra ZArith List String Bool Lia.
From stdpp Require Import list.

Open Scope R_scope.

(** ** Values *)

(** [datetime.datetime], as a timestamp. *)
Definition time := Z.

(** An object reference: the index of the object in the arena. *)
Definition addr := nat.

(** The exceptions the module can raise (none is ever caught in it). *)
Inductive exn :=
| RuntimeError        (* scipy.optimize.newton: failed to converge *)
| ZeroDivisionError   (* division of Python numbers by zero *)
| AttributeError      (* an attribute the object does not have *)
| TypeError           (* an operation on None *)
| UnboundLocalError   (* a local never assigned on the path taken *)
| RecursionError.     (* recursion limit *)

(** ** Collaborators *)

Record externals := {
  (** [datetime.datetime.now(tz=datetime.UTC)] *)
  wall_clock : time;
  (** [daycount.actual360_T], [daycount.trading_T], [daycount.trading_days] *)
  actual360_T : time -> time -> R;
  trading_T : time -> time -> R;
  trading_days : R;
  (** [scipy.stats.norm.cdf], [scipy.stats.norm.pdf] *)
  norm_cdf : R -> R;
  norm_pdf : R -> R;
  (** [scipy.optimize.newton(func, x0)]: a root, or [None] for the
      RuntimeError it raises when it does not converge. *)
  newton : (R -> R) -> R -> option R
}.

(** ** Objects *)

(** BaseInstrument's attributes. *)
Record base := {
  _bid : option R;
  _ask : option R;
  mark : option R;
  spread : option R;
  tsym : option string;
  qsym : option string;
  underlying : option addr;
  derivatives : list addr;
  _now : option time;
  isSnapshot : bool
}.

(** The [SimpleNamespace(bid, ask, mark, spread)] of modeled prices. *)
Record price_ns := {
  p_bid : option R;
  p_ask : option R;
  p_mark : option R;
  p_spread : option R
}.

(** CurrencyFuture's own attributes. *)
Record future_attrs := {
  _rf : option R;
  ccr : option R;
  _qf : option R;
  ccq : option R;
  settle : option time;
  carry : option R;
  fprice : price_ns
}.

(** The six sensitivities of an option. *)
Record greeks := {
  delta : option R;
  gamma : option R;
  vega : option R;
  theta : option R;
  rho : option R;
  epsilon : option R
}.

(** CurrencyFutureOption's own attributes.  [oprice] is [self.price]: the
    namespace of nulls until [_calc_price] stores a number ([None] here
    stands for that namespace).  [strike] and [expir] are assigned once, by
    the constructor, before anything reads them. *)
Record option_attrs := {
  otype : option string;
  strike : R;
  expir : time;
  _vol : option R;
  _manual_vol : bool;
  moneyness : option R;
  probability : option R;
  oprice : option R;
  ogreeks : greeks
}.

(** The class of an object, with the attributes the class adds. *)
Inductive klass :=
| FXSpot
| CurrencyFuture (f : future_attrs)
| CurrencyFutureOption (o : option_attrs).

Record node := { nbase : base; ncls : klass }.

(** A trace of calls: [_update] on an object, the closed-form first guess
    with the price it is given, and the root-finder with its first guess and
    the price it is asked to match. *)
Inductive event :=
| EvUpdate (a : addr)
| EvCorradoMiller (a : addr) (tempPrice : R)
| EvNewton (a : addr) (x0 realPrice : R).

Record world := { heap : list node; log : list event }.

(** What a method works on: the attributes [self] that it may assign, and
    the calls it has made. *)
Record frame (X : Type) := { self : X; trace : list event }.
Arguments self {X} f.
Arguments trace {X} f.

(** ** The state-and-exception monad *)

Inductive outcome (A : Type) :=
| Ok (x : A)
| Raise (e : exn).
Arguments Ok {A} x.
Arguments Raise {A} e.

Definition M (S A : Type) : Type := S -> outcome A * S.

Definition ret {S A} (x : A) : M S A := fun w => (Ok x, w).

Definition raise {S A} (e : exn) : M S A := fun w => (Raise e, w).

Definition bind {S A B} (m : M S A) (k : A -> M S B) : M S B :=
  fun w => match m w with
           | (Ok x, w') => k x w'
           | (Raise e, w') => (Raise e, w')
           end.

Notation "x <- c1 ;; c2" := (bind c1 (fun x => c2))
  (at level 100, c1 at next level, right associativity).
Notation "c1 ;;; c2" := (bind c1 (fun _ => c2))
  (at level 100, right associativity).

Definition require {S A} (e : exn) (x : option A) : M S A :=
  match x with
  | Some v => ret v
  | None => raise e
  end.

(** Running [f] on each element in list order; the first exception ends the
    loop. *)
Fixpoint for_each {S A} (f : A -> M S unit) (l : list A) : M S unit :=
  match l with
  | [] => ret tt
  | x :: l' => f x ;;; for_each f l'
  end.

(** In a method: assigning to attributes of [self], and recording a call. *)
Definition assign {X} (g : X -> X) : M (frame X) unit :=
  fun s => (Ok tt, {| self := g (self s); trace := trace s |}).

Definition read {X} : M (frame X) X :=
  fun s => (Ok (self s), s).

Definition tell {X} (ev : event) : M (frame X) unit :=
  fun s => (Ok tt, {| self := self s; trace := trace s ++ [ev] |}).

(** In the arena: reading an object (a reference always designates an
    object, so the out-of-range case is only there to make the function
    total), writing one, and recording a call. *)
Definition get (a : addr) : M world node :=
  fun w => match heap w !! a with
           | Some n => (Ok n, w)
           | None => (Raise AttributeError, w)
           end.

Definition put (a : addr) (n : node) : M world unit :=
  fun w => (Ok tt, {| heap := <[a := n]> (heap w); log := log w |}).

Definition emit (ev : event) : M world unit :=
  fun w => (Ok tt, {| heap := heap w; log := log w ++ [ev] |}).

(** A method of the object at [a] whose own attributes are [x] (of the class
    [inj]): its assignments are written back and its calls recorded, also
    when it raises. *)
Definition run_method {X} (a : addr) (sb : base) (inj : X -> klass) (x : X)
    (m : M (frame X) unit) : M world unit :=
  fun w => let '(r, s) := m {| self := x; trace := [] |} in
           (r, {| heap := <[a := {| nbase := sb; ncls := inj (self s) |}]> (heap w);
                  log := log w ++ trace s |}).

(** ** Attribute assignment *)

Definition with_bid (v : option R) (b : base) : base :=
  {| _bid := v; _ask := _ask b; mark := mark b; spread := spread b;
     tsym := tsym b; qsym := qsym b; underlying := underlying b;
     derivatives := derivatives b; _now := _now b;
     isSnapshot := isSnapshot b |}.

Definition with_ask (v : option R) (b : base) : base :=
  {| _bid := _bid b; _ask := v; mark := mark b; spread := spread b;
     tsym := tsym b; qsym := qsym b; underlying := underlying b;
     derivatives := derivatives b; _now := _now b;
     isSnapshot := isSnapshot b |}.

Definition with_mark_spread (m s : option R) (b : base) : base :=
  {| _bid := _bid b; _ask := _ask b; mark := m; spread := s;
     tsym := tsym b; qsym := qsym b; underlying := underlying b;
     derivatives := derivatives b; _now := _now b;
     isSnapshot := isSnapshot b |}.

Definition with_now (t : option time) (b : base) : base :=
  {| _bid := _bid b; _ask := _ask b; mark := mark b; spread := spread b;
     tsym := tsym b; qsym := qsym b; underlying := underlying b;
     derivatives := derivatives b; _now := t;
     isSnapshot := isSnapshot b |}.

Definition with_isSnapshot (s : bool) (b : base) : base :=
  {| _bid := _bid b; _ask := _ask b; mark := mark b; spread := spread b;
     tsym := tsym b; qsym := qsym b; underlying := underlying b;
     derivatives := derivatives b; _now := _now b;
     isSnapshot := s |}.

Definition with_links (u : option addr) (ds : list addr) (b : base) : base :=
  {| _bid := _bid b; _ask := _ask b; mark := mark b; spread := spread b;
     tsym := tsym b; qsym := qsym b; underlying := u;
     derivatives := ds; _now := _now b;
     isSnapshot := isSnapshot b |}.

Definition with_rf (rf cc : option R) (f : future_attrs) : future_attrs :=
  {| _rf := rf; ccr := cc; _qf := _qf f; ccq := ccq f; settle := settle f;
     carry := carry f; fprice := fprice f |}.

Definition with_qf (qf cc : option R) (f : future_attrs) : future_attrs :=
  {| _rf := _rf f; ccr := ccr f; _qf := qf; ccq := cc; settle := settle f;
     carry := carry f; fprice := fprice f |}.

Definition with_carry (c : option R) (f : future_attrs) : future_attrs :=
  {| _rf := _rf f; ccr := ccr f; _qf := _qf f; ccq := ccq f;
     settle := settle f; carry := c; fprice := fprice f |}.

Definition with_fprice (p : price_ns) (f : future_attrs) : future_attrs :=
  {| _rf := _rf f; ccr := ccr f; _qf := _qf f; ccq := ccq f;
     settle := settle f; carry := carry f; fprice := p |}.

Definition with_vol (v : option R) (o : option_attrs) : option_attrs :=
  {| otype := otype o; strike := strike o; expir := expir o; _vol := v;
     _manual_vol := _manual_vol o; moneyness := moneyness o;
     probability := probability o; oprice := oprice o;
     ogreeks := ogreeks o |}.

Definition with_manual_vol (m : bool) (o : option_attrs) : option_attrs :=
  {| otype := otype o; strike := strike o; expir := expir o; _vol := _vol o;
     _manual_vol := m; moneyness := moneyness o;
     probability := probability o; oprice := oprice o;
     ogreeks := ogreeks o |}.

Definition with_moneyness (m : option R) (o : option_attrs) : option_attrs :=
  {| otype := otype o; strike := strike o; expir := expir o; _vol := _vol o;
     _manual_vol := _manual_vol o; moneyness := m;
     probability := probability o; oprice := oprice o;
     ogreeks := ogreeks o |}.

Definition with_probability (p : option R) (o : option_attrs) : option_attrs :=
  {| otype := otype o; strike := strike o; expir := expir o; _vol := _vol o;
     _manual_vol := _manual_vol o; moneyness := moneyness o;
     probability := p; oprice := oprice o; ogreeks := ogreeks o |}.

Definition with_oprice (p : option R) (o : option_attrs) : option_attrs :=
  {| otype := otype o; strike := strike o; expir := expir o; _vol := _vol o;
     _manual_vol := _manual_vol o; moneyness := moneyness o;
     probability := probability o; oprice := p; ogreeks := ogreeks o |}.

Definition with_greeks (g : greeks) (o : option_attrs) : option_attrs :=
  {| otype := otype o; strike := strike o; expir := expir o; _vol := _vol o;
     _manual_vol := _manual_vol o; moneyness := moneyness o;
     probability := probability o; oprice := oprice o; ogreeks := g |}.

Definition with_delta (x : option R) (g : greeks) : greeks :=
  {| delta := x; gamma := gamma g; vega := vega g; theta := theta g;
     rho := rho g; epsilon := epsilon g |}.

Definition with_gamma (x : option R) (g : greeks) : greeks :=
  {| delta := delta g; gamma := x; vega := vega g; theta := theta g;
     rho := rho g; epsilon := epsilon g |}.

Definition with_vega (x : option R) (g : greeks) : greeks :=
  {| delta := delta g; gamma := gamma g; vega := x; theta := theta g;
     rho := rho g; epsilon := epsilon g |}.

Definition with_theta (x : option R) (g : greeks) : greeks :=
  {| delta := delta g; gamma := gamma g; vega := vega g; theta := x;
     rho := rho g; epsilon := epsilon g |}.

Definition with_rho (x : option R) (g : greeks) : greeks :=
  {| delta := delta g; gamma := gamma g; vega := vega g; theta := theta g;
     rho := x; epsilon := epsilon g |}.

Definition with_epsilon (x : option R) (g : greeks) : greeks :=
  {| delta := delta g; gamma := gamma g; vega := vega g; theta := theta g;
     rho := rho g; epsilon := x |}.

Definition with_otype (ot : option string) (o : option_attrs) : option_attrs :=
  {| otype := ot; strike := strike o; expir := expir o; _vol := _vol o;
     _manual_vol := _manual_vol o; moneyness := moneyness o;
     probability := probability o; oprice := oprice o;
     ogreeks := ogreeks o |}.

(** Assigning to attributes of the object at [a]. *)
Definition modify_base (a : addr) (f : base -> base) : M world unit :=
  n <- get a ;; put a {| nbase := f (nbase n); ncls := ncls n |}.

Definition get_future (a : addr) : M world (base * future_attrs) :=
  n <- get a ;;
  match ncls n with
  | CurrencyFuture f => ret (nbase n, f)
  | _ => raise AttributeError
  end.

Definition get_option (a : addr) : M world (base * option_attrs) :=
  n <- get a ;;
  match ncls n with
  | CurrencyFutureOption o => ret (nbase n, o)
  | _ => raise AttributeError
  end.

Definition modify_future (a : addr) (g : future_attrs -> future_attrs)
  : M world unit :=
  n <- get a ;;
  match ncls n with
  | CurrencyFuture f => put a {| nbase := nbase n; ncls := CurrencyFuture (g f) |}
  | _ => raise AttributeError
  end.

Definition modify_option (a : addr) (g : option_attrs -> option_attrs)
  : M world unit :=
  n <- get a ;;
  match ncls n with
  | CurrencyFutureOption o =>
      put a {| nbase := nbase n; ncls := CurrencyFutureOption (g o) |}
  | _ => raise AttributeError
  end.

(** [self.underlying.<attr>] for an attribute only a future has:
    AttributeError when there is no underlying, or it is not a future. *)
Definition underlying_future (b : base) : M world (base * future_attrs) :=
  match underlying b with
  | Some ua => get_future ua
  | None => raise AttributeError
  end.

(** ** The program *)

Section Model.

Variable E : externals.

(** The [now] property: the override when there is one, else the wall
    clock, of which [E] holds one reading. *)
Definition now_of (b : base) : time :=
  match _now b with
  | Some t => t
  | None => wall_clock E
  end.

Definition is_call (ot : option string) : bool :=
  match ot with
  | Some s => String.eqb s "call"
  | None => false
  end.

Definition is_put (ot : option string) : bool :=
  match ot with
  | Some s => String.eqb s "put"
  | None => false
  end.

Definition is_number (x : option R) : bool :=
  match x with
  | Some _ => true
  | None => false
  end.

(** *** CurrencyFuture *)

(** The [r_tenor] property of a future: from its own clock to settlement. *)
Definition future_r_tenor (sb : base) (settle : time) : R :=
  actual360_T E (now_of sb) settle.

(** The modeled bid, ask, mark and spread of [CurrencyFuture._update], from
    the underlying's quotes [ub]; a side the underlying does not quote keeps
    its stored value. *)
Definition model_prices (r q r_tenor : R) (ub : base) (p : price_ns)
  : price_ns :=
  let bid' := match _bid ub with
              | Some x => Some (x * exp ((r - q) * r_tenor))
              | None => p_bid p
              end in
  let ask' := match _ask ub with
              | Some x => Some (x * exp ((r - q) * r_tenor))
              | None => p_ask p
              end in
  match bid', ask' with
  | Some b, Some k =>
      {| p_bid := bid'; p_ask := ask';
         p_mark := Some ((b + k) / 2); p_spread := Some (k - b) |}
  | _, _ =>
      {| p_bid := bid'; p_ask := ask';
         p_mark := p_mark p; p_spread := p_spread p |}
  end.

(** [CurrencyFuture._update], on an object whose base attributes are [sb]
    and whose underlying, if any, has the base attributes [u]. *)
Definition CurrencyFuture_update (sb : base) (u : option base)
  : M (frame future_attrs) unit :=
  f <- read ;;
  match ccr f, ccq f, settle f with
  | Some r, Some q, Some s =>
      match u with
      | Some ub =>
          let r_tenor := future_r_tenor sb s in
          assign (fun f => with_fprice (model_prices r q r_tenor ub (fprice f)) f) ;;;
          match mark ub, mark sb with
          | Some um, Some m =>
              if Req_dec_T um 0 then raise ZeroDivisionError
              else
                let ccc := ln (m / um) / r_tenor in
                assign (with_carry (Some ((exp (ccc / 360) - 1) * 360)))
          | _, _ => ret tt
          end
      | None => ret tt
      end
  | _, _, _ => ret tt
  end.

(** *** CurrencyFutureOption *)

(** The [r_tenor] and [t_tenor] properties of an option: from the clock of
    the underlying future (base attributes [ub]) to expiry. *)
Definition r_tenor (ub : base) (o : option_attrs) : R :=
  actual360_T E (now_of ub) (expir o).

Definition t_tenor (ub : base) (o : option_attrs) : R :=
  trading_T E (now_of ub) (expir o).

Definition d_plus (f_mark strike vol t_tenor : R) : R :=
  (ln (f_mark / strike) + (vol ^ 2 / 2) * t_tenor) / (vol * sqrt t_tenor).

Definition d_minus (f_mark strike vol t_tenor : R) : R :=
  d_plus f_mark strike vol t_tenor - vol * sqrt t_tenor.

(** The Black-76 price of [_newton_implied] and [_calc_price]; [None] when
    the type is neither "call" nor "put" (no branch assigns). *)
Definition black76 (ot : option string) (discount f_mark strike dp dm : R)
  : option R :=
  if is_call ot then
    Some (discount * (f_mark * norm_cdf E dp - strike * norm_cdf E dm))
  else if is_put ot then
    Some (discount * (strike * norm_cdf E (- dm) - f_mark * norm_cdf E (- dp)))
  else None.

(** [_newton_implied]: the model price at [vol] minus the price to match. *)
Definition _newton_implied (vol realPrice : R) (ot : option string)
    (ccr r_tenor t_tenor f_mark strike : R) : option R :=
  let discount := exp ((- ccr) * r_tenor) in
  let dp := d_plus f_mark strike vol t_tenor in
  let dm := d_minus f_mark strike vol t_tenor in
  match black76 ot discount f_mark strike dp dm with
  | Some estPrice => Some (estPrice - realPrice)
  | None => None
  end.

(** [_corrado_miller_implied] *)
Definition _corrado_miller_implied (realPrice : R) (ot : option string)
    (t_tenor f_mark strike discount : R) : R :=
  let C := if is_put ot then realPrice + discount * (f_mark - strike)
           else realPrice in
  let left := sqrt (2 * PI) *
    ((C - ((f_mark * discount - strike * discount) / 2))
       / (f_mark * discount + strike * discount)) in
  let rightLeft := 2 * PI *
    ((C - ((f_mark * discount - strike * discount) / 2))
       / (f_mark * discount + strike * discount)) ^ 2 in
  let rightRight := (185 / 100) *
    ((f_mark * discount - strike * discount) ^ 2
       / (4 * PI * (f_mark * discount + strike * discount)
            * sqrt (strike * discount * f_mark * discount))) in
  left + sqrt (rightLeft - rightRight) / sqrt t_tenor.

(** The reference price of the first guess: the quoted side, or the
    midpoint of the two. *)
Definition temp_mark (bid ask : option R) : option R :=
  match bid, ask with
  | None, _ => ask
  | Some b, None => Some b
  | Some b, Some k => Some (b * (5 / 10) + k * (5 / 10))
  end.

(** The intrinsic-value floor of the first guess. *)
Definition temp_price (ot : option string) (f_mark strike tempMark : R) : R :=
  if is_call ot && (if Rge_dec f_mark (strike + tempMark) then true else false)
  then f_mark - strike
  else if is_put ot && (if Rle_dec f_mark (strike - tempMark) then true else false)
  then strike - f_mark
  else tempMark.

(** The weights of bid and ask, from the moneyness and the probability. *)
Definition bid_adj (m p : R) : R := if Rge_dec m 0 then p else 1 - p.
Definition ask_adj (m p : R) : R := if Rge_dec m 0 then 1 - p else p.

(** The weighted reference price. *)
Definition new_temp_mark (bid ask : option R) (bidAdj askAdj : R) : option R :=
  match bid, ask with
  | None, _ => ask
  | Some b, None => Some b
  | Some b, Some k => Some (b * bidAdj + k * askAdj)
  end.

(** The intrinsic-value floor of the price to match. *)
Definition real_price (ot : option string) (f_mark strike newTempMark : R) : R :=
  if is_call ot && (if Rgt_dec (f_mark - strike) newTempMark then true else false)
  then f_mark - strike
  else if is_put ot && (if Rgt_dec (strike - f_mark) newTempMark then true else false)
  then strike - f_mark
  else newTempMark.

(** The function handed to the root-finder: [_newton_implied] in its first
    argument, the others fixed. *)
Definition objective (realPrice : R) (ot : option string)
    (ccr r_tenor t_tenor f_mark strike : R) : R -> R :=
  fun x => default 0 (_newton_implied x realPrice ot ccr r_tenor t_tenor
                        f_mark strike).

(** [scipy.optimize.newton(self._newton_implied, vol, args=(realPrice, ...))]:
    the first evaluation of [_newton_implied] divides [f_mark] by [strike]
    and then needs a branch for the type; past these the function always
    has a value, and the root-finder returns or raises RuntimeError. *)
Definition call_newton (a : addr) (vol realPrice : R) (ot : option string)
    (ccr r_tenor t_tenor f_mark strike : R) : M (frame option_attrs) R :=
  tell (EvNewton a vol realPrice) ;;;
  if Req_dec_T strike 0 then raise ZeroDivisionError
  else if is_call ot || is_put ot then
    match newton E (objective realPrice ot ccr r_tenor t_tenor f_mark strike)
            vol with
    | Some v => ret v
    | None => raise RuntimeError
    end
  else raise UnboundLocalError.

(** [_calc_implied], on the option at [a] whose base attributes are [sb]
    and whose underlying future has the base attributes [ub] and the
    attributes [f].  It calls itself once more when it started without a
    volatility; [fuel] bounds the depth of the recursion. *)
Fixpoint _calc_implied (fuel : nat) (a : addr) (sb ub : base)
    (f : future_attrs) : M (frame option_attrs) unit :=
  match fuel with
  | O => raise RecursionError
  | S fuel' =>
      o <- read ;;
      let ot := otype o in
      let K := strike o in
      let t_tenor := t_tenor ub o in
      let r_tenor := r_tenor ub o in
      f_mark <- require TypeError (mark ub) ;;
      r <- require TypeError (ccr f) ;;
      let discount := exp ((- r) * r_tenor) in
      let rerun := match _vol o with None => true | Some _ => false end in
      vol <- match _vol o with
             | Some v => ret v
             | None =>
                 tempMark <- require TypeError (temp_mark (_bid sb) (_ask sb)) ;;
                 let tempPrice := temp_price ot f_mark K tempMark in
                 tell (EvCorradoMiller a tempPrice) ;;;
                 let est := _corrado_miller_implied tempPrice ot t_tenor
                              f_mark K discount in
                 assign (with_vol (Some est)) ;;; ret est
             end ;;
      (if is_call ot then
         if Req_dec_T K 0 then raise ZeroDivisionError
         else assign (with_moneyness
                        (Some (ln (f_mark / K) / (sqrt t_tenor * vol))))
       else if is_put ot then
         if Req_dec_T f_mark 0 then raise ZeroDivisionError
         else assign (with_moneyness
                        (Some (ln (K / f_mark) / (sqrt t_tenor * vol))))
       else ret tt) ;;;
      o1 <- read ;;
      m <- require TypeError (moneyness o1) ;;
      let p := norm_cdf E m in
      assign (with_probability (Some p)) ;;;
      newTempMark <- require TypeError
                       (new_temp_mark (_bid sb) (_ask sb)
                          (bid_adj m p) (ask_adj m p)) ;;
      let realPrice := real_price ot f_mark K newTempMark in
      v <- call_newton a vol realPrice ot r r_tenor t_tenor f_mark K ;;
      assign (with_vol (Some v)) ;;;
      if rerun then _calc_implied fuel' a sb ub f else ret tt
  end.

(** The Greeks; a type that is neither "call" nor "put" leaves the
    attribute as it was. *)
Definition calc_delta (ot : option string) (discount dp : R) (old : option R)
  : option R :=
  if is_call ot then Some (discount * norm_cdf E dp)
  else if is_put ot then Some (discount * (norm_cdf E dp - 1))
  else old.

Definition calc_gamma (discount dp f_mark vol t_tenor : R) : R :=
  (norm_pdf E dp * discount) / (f_mark * vol * sqrt t_tenor).

Definition calc_vega (discount dp f_mark t_tenor : R) : R :=
  f_mark * sqrt t_tenor * norm_pdf E dp * discount.

Definition calc_theta (ot : option string)
    (discount dp dm f_mark vol t_tenor ccr strike : R) (old : option R)
  : option R :=
  if is_call ot then
    let one := (f_mark * norm_pdf E dp * vol * discount) / (2 * sqrt t_tenor) in
    let two := ccr * f_mark * norm_cdf E dp * discount in
    let three := ccr * strike * discount * norm_cdf E dm in
    Some (((- one) + two - three) * (1 / trading_days E))
  else if is_put ot then
    let one := (f_mark * norm_pdf E dp * vol * discount) / (2 * sqrt t_tenor) in
    let two := ccr * f_mark * norm_cdf E (- dp) * discount in
    let three := ccr * strike * discount * norm_cdf E (- dm) in
    Some (((- one) - two + three) * (1 / trading_days E))
  else old.

Definition calc_rho (ot : option string) (discount dm strike r_tenor : R)
    (old : option R) : option R :=
  if is_call ot then Some (strike * r_tenor * discount * norm_cdf E dm)
  else if is_put ot then
    Some ((- strike) * r_tenor * discount * norm_cdf E (- dm))
  else old.

Definition calc_epsilon (ot : option string) (dp f_mark r_tenor ccq : R)
    (old : option R) : option R :=
  if is_call ot then
    Some ((- r_tenor) * f_mark * exp ((- ccq) * r_tenor) * norm_cdf E dp)
  else if is_put ot then
    Some (r_tenor * f_mark * exp ((- ccq) * r_tenor) * norm_cdf E (- dp))
  else old.

Definition assign_greeks (g : greeks -> greeks) : M (frame option_attrs) unit :=
  assign (fun o => with_greeks (g (ogreeks o)) o).

(** [_calc_price], with [_calc_delta] ... [_calc_epsilon] in its order. *)
Definition _calc_price (ub : base) (f : future_attrs)
  : M (frame option_attrs) unit :=
  o <- read ;;
  let ot := otype o in
  let K := strike o in
  let t_tenor := t_tenor ub o in
  let r_tenor := r_tenor ub o in
  r <- require TypeError (ccr f) ;;
  let discount := exp ((- r) * r_tenor) in
  f_mark <- require TypeError (mark ub) ;;
  if Req_dec_T K 0 then raise ZeroDivisionError
  else
    vol <- require TypeError (_vol o) ;;
    let dp := d_plus f_mark K vol t_tenor in
    let dm := d_minus f_mark K vol t_tenor in
    match black76 ot discount f_mark K dp dm with
    | Some p => assign (with_oprice (Some p))
    | None => ret tt
    end ;;;
    assign_greeks (fun g => with_delta (calc_delta ot discount dp (delta g)) g) ;;;
    assign_greeks (with_gamma (Some (calc_gamma discount dp f_mark vol t_tenor))) ;;;
    assign_greeks (with_vega (Some (calc_vega discount dp f_mark t_tenor))) ;;;
    (if (is_call ot || is_put ot)
        && (if Req_dec_T (trading_days E) 0 then true else false)
     then raise ZeroDivisionError
     else assign_greeks (fun g =>
            with_theta (calc_theta ot discount dp dm f_mark vol t_tenor r K
                          (theta g)) g)) ;;;
    assign_greeks (fun g => with_rho (calc_rho ot discount dm K r_tenor (rho g)) g) ;;;
    if is_call ot || is_put ot then
      q <- require TypeError (ccq f) ;;
      assign_greeks (fun g =>
        with_epsilon (calc_epsilon ot dp f_mark r_tenor q (epsilon g)) g)
    else ret tt.

(** Python's default recursion limit. *)
Definition recursion_limit : nat := 1000.

(** [CurrencyFutureOption._update] *)
Definition CurrencyFutureOption_update (a : addr) (sb ub : base)
    (f : future_attrs) : M (frame option_attrs) unit :=
  o <- read ;;
  match ccr f, ccq f, otype o with
  | Some _, Some _, Some _ =>
      if (is_number (_bid sb) || is_number (_ask sb)) && is_number (mark ub)
      then
        (if _manual_vol o then ret tt
         else _calc_implied recursion_limit a sb ub f) ;;;
        _calc_price ub f
      else ret tt
  | _, _, _ => ret tt
  end.

(** *** BaseInstrument *)

(** [self._update()] on the object at [a], dispatched on its class.  The
    method reads the object and, through [self.underlying], its underlying
    (an option needs it to be a future: AttributeError otherwise).
    [FXSpot._update] is [pass]. *)
Definition _update (a : addr) : M world unit :=
  emit (EvUpdate a) ;;;
  n <- get a ;;
  let sb := nbase n in
  match ncls n with
  | FXSpot => ret tt
  | CurrencyFuture f =>
      u <- match underlying sb with
           | Some ua => (un <- get ua ;; ret (Some (nbase un)))
           | None => ret None
           end ;;
      run_method a sb CurrencyFuture f (CurrencyFuture_update sb u)
  | CurrencyFutureOption o =>
      uf <- underlying_future sb ;;
      let '(ub, f) := uf in
      run_method a sb CurrencyFutureOption o
        (CurrencyFutureOption_update a sb ub f)
  end.

(** [for derivative in self.derivatives: derivative._update()] *)
Definition alert_derivatives (a : addr) : M world unit :=
  n <- get a ;;
  for_each _update (derivatives (nbase n)).

(** The [bid] setter. *)
Definition bid_setter (a : addr) (bid : option R) : M world unit :=
  match bid with
  | None => modify_base a (with_bid None)
  | Some b =>
      modify_base a (with_bid (Some b)) ;;;
      n <- get a ;;
      match _ask (nbase n) with
      | Some k =>
          modify_base a (with_mark_spread (Some ((b + k) / 2)) (Some (k - b)))
      | None => ret tt
      end ;;;
      _update a ;;;
      alert_derivatives a
  end.

(** The [ask] setter. *)
Definition ask_setter (a : addr) (ask : option R) : M world unit :=
  match ask with
  | None => modify_base a (with_ask None)
  | Some k =>
      modify_base a (with_ask (Some k)) ;;;
      n <- get a ;;
      match _bid (nbase n) with
      | Some b =>
          modify_base a (with_mark_spread (Some ((b + k) / 2)) (Some (k - b)))
      | None => ret tt
      end ;;;
      _update a ;;;
      alert_derivatives a
  end.

(** The [now] setter, once the object is constructed. *)
Definition now_setter (a : addr) (t : option time) : M world unit :=
  modify_base a (with_now t) ;;;
  _update a ;;;
  alert_derivatives a.

(** [quote] *)
Definition quote (a : addr) (bid ask : option R) : M world unit :=
  modify_base a (with_bid bid) ;;;
  modify_base a (with_ask ask) ;;;
  match bid, ask with
  | Some b, Some k =>
      modify_base a (with_mark_spread (Some ((b + k) / 2)) (Some (k - b)))
  | _, _ => modify_base a (with_mark_spread None None)
  end ;;;
  _update a ;;;
  alert_derivatives a.

(** [copy.deepcopy(self)]: every object reachable from [self] is copied, and
    the references of the copies designate copies.  The arena is duplicated
    behind itself, so the copy of the object at [i] is at [length heap + i];
    the copies of objects that [self] does not reach are reachable from no
    copy that it does. *)
Definition relocate (k : nat) (n : node) : node :=
  {| nbase := with_links (option_map (Nat.add k) (underlying (nbase n)))
                (map (Nat.add k) (derivatives (nbase n))) (nbase n);
     ncls := ncls n |}.

Definition deepcopy (a : addr) : M world addr :=
  fun w => let k := length (heap w) in
           (Ok (k + a)%nat,
            {| heap := heap w ++ map (relocate k) (heap w); log := log w |}).

(** [snapshot] *)
Definition snapshot (a : addr) : M world addr :=
  s <- deepcopy a ;;
  modify_base s (with_isSnapshot true) ;;;
  n <- get s ;;
  match underlying (nbase n) with
  | Some u => modify_base u (with_isSnapshot true)
  | None => ret tt
  end ;;;
  for_each (fun d => modify_base d (with_isSnapshot true))
    (derivatives (nbase n)) ;;;
  ret s.

(** [BaseInstrument.__init__]: the new object, registered with its
    underlying. *)
Definition alloc (n : node) : M world addr :=
  fun w => (Ok (length (heap w)),
            {| heap := heap w ++ [n]; log := log w |}).

Definition BaseInstrument_init (tsym qsym : option string)
    (u : option addr) (c : klass) : M world addr :=
  a <- alloc {| nbase := {| _bid := None; _ask := None; mark := None;
                            spread := None; tsym := tsym; qsym := qsym;
                            underlying := u; derivatives := [];
                            _now := None; isSnapshot := false |};
                ncls := c |} ;;
  match u with
  | Some ua =>
      modify_base ua (fun b => with_links (underlying b) (derivatives b ++ [a]) b)
  | None => ret tt
  end ;;;
  ret a.

(** [FXSpot.__init__] *)
Definition FXSpot_init (tsym qsym : option string) (u : option addr)
  : M world addr :=
  BaseInstrument_init tsym qsym u FXSpot.

(** *** CurrencyFuture: the rate setters and the constructor *)

(** The [rf] setter. *)
Definition rf_setter (a : addr) (rf : option R) : M world unit :=
  match rf with
  | None => modify_future a (with_rf None None)
  | Some x =>
      modify_future a (with_rf (Some x) (Some (360 * ln (1 + x / 360)))) ;;;
      _update a ;;;
      alert_derivatives a
  end.

(** The [qf] setter. *)
Definition qf_setter (a : addr) (qf : option R) : M world unit :=
  match qf with
  | None => modify_future a (with_qf None None)
  | Some x =>
      modify_future a (with_qf (Some x) (Some (360 * ln (1 + x / 360)))) ;;;
      _update a ;;;
      alert_derivatives a
  end.

Definition null_prices : price_ns :=
  {| p_bid := None; p_ask := None; p_mark := None; p_spread := None |}.

(** [CurrencyFuture.__init__] *)
Definition CurrencyFuture_init (rf qf : option R) (settle : option time)
    (tsym qsym : option string) (u : option addr) : M world addr :=
  a <- BaseInstrument_init tsym qsym u
         (CurrencyFuture {| _rf := None; ccr := None; _qf := None;
                            ccq := None; settle := settle; carry := None;
                            fprice := null_prices |}) ;;
  rf_setter a rf ;;;
  qf_setter a qf ;;;
  ret a.

(** *** CurrencyFutureOption: the volatility setter and the constructor *)

(** The [vol] setter. *)
Definition vol_setter (a : addr) (vol : option R) : M world unit :=
  modify_option a (with_vol vol) ;;;
  modify_option a (with_manual_vol true) ;;;
  _update a ;;;
  modify_option a (with_manual_vol false).

Definition null_greeks : greeks :=
  {| delta := None; gamma := None; vega := None; theta := None;
     rho := None; epsilon := None |}.

(** [CurrencyFutureOption.__init__]: the type is assigned last, so that the
    [_update] of the [vol] assignment finds it null and does nothing. *)
Definition CurrencyFutureOption_init (ot : string) (strike : R) (expir : time)
    (lastVol : option R) (tsym qsym : option string) (u : option addr)
  : M world addr :=
  a <- BaseInstrument_init tsym qsym u
         (CurrencyFutureOption
            {| otype := None; strike := strike; expir := expir;
               _vol := None; _manual_vol := false; moneyness := None;
               probability := None; oprice := None;
               ogreeks := null_greeks |}) ;;
  vol_setter a lastVol ;;;
  modify_option a (with_otype (Some ot)) ;;;
  ret a.

End Model.

(** ** Mutations

    The assignments and calls through which a caller changes an object, and
    what each does before the recompute: the part of the setter (or of
    [quote]) that precedes [self._update()]. *)

Inductive mutation :=
| Quote (bid ask : option R)
| SetBid (bid : option R)
| SetAsk (ask : option R)
| SetNow (t : option time)
| SetRf (rf : option R)
| SetQf (qf : option R)
| SetVol (vol : option R).

Definition mutate (E : externals) (a : addr) (m : mutation) : M world unit :=
  match m with
  | Quote bid ask => quote E a bid ask
  | SetBid bid => bid_setter E a bid
  | SetAsk ask => ask_setter E a ask
  | SetNow t => now_setter E a t
  | SetRf rf => rf_setter E a rf
  | SetQf qf => qf_setter E a qf
  | SetVol vol => vol_setter E a vol
  end.

(** The mutations that recompute the object and then alert its
    derivatives. *)
Definition cascades (m : mutation) : bool :=
  match m with
  | Quote _ _ | SetNow _ => true
  | SetBid (Some _) | SetAsk (Some _) | SetRf (Some _) | SetQf (Some _) => true
  | _ => false
  end.

Definition writes (a : addr) (m : mutation) : M world unit :=
  match m with
  | Quote bid ask =>
      modify_base a (with_bid bid) ;;;
      modify_base a (with_ask ask) ;;;
      match bid, ask with
      | Some b, Some k =>
          modify_base a (with_mark_spread (Some ((b + k) / 2)) (Some (k - b)))
      | _, _ => modify_base a (with_mark_spread None None)
      end
  | SetBid (Some b) =>
      modify_base a (with_bid (Some b)) ;;;
      n <- get a ;;
      match _ask (nbase n) with
      | Some k =>
          modify_base a (with_mark_spread (Some ((b + k) / 2)) (Some (k - b)))
      | None => ret tt
      end
  | SetAsk (Some k) =>
      modify_base a (with_ask (Some k)) ;;;
      n <- get a ;;
      match _bid (nbase n) with
      | Some b =>
          modify_base a (with_mark_spread (Some ((b + k) / 2)) (Some (k - b)))
      | None => ret tt
      end
  | SetNow t => modify_base a (with_now t)
  | SetRf (Some x) =>
      modify_future a (with_rf (Some x) (Some (360 * ln (1 + x / 360))))
  | SetQf (Some x) =>
      modify_future a (with_qf (Some x) (Some (360 * ln (1 + x / 360))))
  | _ => ret tt
  end.

(** Whether an event is a call of [_update]. *)
Definition is_update (ev : event) : bool :=
  match ev with
  | EvUpdate _ => true
  | _ => false
  end.

(** ** The price and the Greeks in closed form

    What [_calc_price] returns or raises on the attributes [o], and the
    attributes it leaves: the assignments of the method up to the point
    where it ends. *)
Definition priced (E : externals) (ub : base) (f : future_attrs)
    (o : option_attrs) : outcome unit * option_attrs :=
  match ccr f, mark ub with
  | Some r, Some F =>
      if Req_dec_T (strike o) 0 then (Raise ZeroDivisionError, o)
      else
        match _vol o with
        | None => (Raise TypeError, o)
        | Some vol =>
            let ot := otype o in
            let K := strike o in
            let T := t_tenor E ub o in
            let Tr := r_tenor E ub o in
            let discount := exp ((- r) * Tr) in
            let dp := d_plus F K vol T in
            let dm := d_minus F K vol T in
            let g := ogreeks o in
            let p := match black76 E ot discount F K dp dm with
                     | Some p => Some p
                     | None => oprice o
                     end in
            let dl := calc_delta E ot discount dp (delta g) in
            let ga := Some (calc_gamma E discount dp F vol T) in
            let ve := Some (calc_vega E discount dp F T) in
            let th := calc_theta E ot discount dp dm F vol T r K (theta g) in
            let rh := calc_rho E ot discount dm K Tr (rho g) in
            let leave g' := with_greeks g' (with_oprice p o) in
            if (is_call ot || is_put ot)
               && (if Req_dec_T (trading_days E) 0 then true else false)
            then (Raise ZeroDivisionError,
                  leave {| delta := dl; gamma := ga; vega := ve;
                           theta := theta g; rho := rho g;
                           epsilon := epsilon g |})
            else if is_call ot || is_put ot then
              match ccq f with
              | Some q =>
                  (Ok tt,
                   leave {| delta := dl; gamma := ga; vega := ve;
                            theta := th; rho := rh;
                            epsilon := calc_epsilon E ot dp F Tr q (epsilon g) |})
              | None =>
                  (Raise TypeError,
                   leave {| delta := dl; gamma := ga; vega := ve;
                            theta := th; rho := rh; epsilon := epsilon g |})
              end
            else
              (Ok tt,
               leave {| delta := dl; gamma := ga; vega := ve;
                        theta := th; rho := rh; epsilon := epsilon g |})
        end
  | _, _ => (Raise TypeError, o)
  end.

(** ** Recomputes that calibrate

    Whether [_update] on the object at [a] reaches [_calc_implied]: the
    object is an option on a future, every input of the guard is present,
    and the volatility is not being assigned. *)
Definition calibrates (w : world) (a : addr) : bool :=
  match heap w !! a with
  | Some {| nbase := sb; ncls := CurrencyFutureOption o |} =>
      match underlying sb with
      | Some ua =>
          match heap w !! ua with
          | Some {| nbase := ub; ncls := CurrencyFuture f |} =>
              is_number (ccr f) && is_number (ccq f)
              && (match otype o with Some _ => true | None => false end)
              && (is_number (_bid sb) || is_number (_ask sb))
              && is_number (mark ub)
              && negb (_manual_vol o)
          | _ => false
          end
      | None => false
      end
  | _ => false
  end.

(** ** The graph of an arena

    The references an object holds, the objects reachable from one by
    following references, and sets of addresses that no reference leaves. *)

Definition links (n : node) : option addr * list addr :=
  (underlying (nbase n), derivatives (nbase n)).

Inductive reachable (h : list node) : addr -> addr -> Prop :=
| reach_here x : reachable h x x
| reach_underlying x y n z :
    reachable h x y -> h !! y = Some n -> underlying (nbase n) = Some z ->
    reachable h x z
| reach_derivative x y n z :
    reachable h x y -> h !! y = Some n -> In z (derivatives (nbase n)) ->
    reachable h x z.

Definition closed (P : addr -> Prop) (h : list node) : Prop :=
  forall i n, P i -> h !! i = Some n ->
    (forall u, underlying (nbase n) = Some u -> P u)
    /\ (forall d, In d (derivatives (nbase n)) -> P d).

(** Every reference of the arena designates an object of the arena. *)
Definition well_formed (h : list node) : Prop :=
  forall i n, h !! i = Some n ->
    (forall u, underlying (nbase n) = Some u -> (u < length h)%nat)
    /\ (forall d, In d (derivatives (nbase n)) -> (d < length h)%nat).

(** A caller applies mutations one after the other, each to the object it
    names, going on after an exception. *)
Definition run_mutations (E : externals) (ms : list (addr * mutation))
    (w : world) : world :=
  fold_left (fun w am => snd (mutate E (fst am) (snd am) w)) ms w.

(** ** The calibration as the specification words it

    Step 1, the seed estimate: the reference price is the quoted side or
    the midpoint, floored at the intrinsic value, and fed to the closed-form
    estimator.  Steps 2 and 3, from a seed volatility: the standardized
    moneyness and the probability give the weights of bid and ask, the
    weighted reference price is floored again, and the root-finder matches
    the Black-76 price to it, starting from the seed.  Step 4: steps 2 and 3
    once more from the result of step 3, whose result is final. *)

Section Calibration.

Variable E : externals.

Definition seed_estimate (a : addr) (sb ub : base) (f : future_attrs)
  : M (frame option_attrs) R :=
  o <- read ;;
  f_mark <- require TypeError (mark ub) ;;
  r <- require TypeError (ccr f) ;;
  tempMark <- require TypeError (temp_mark (_bid sb) (_ask sb)) ;;
  let tempPrice := temp_price (otype o) f_mark (strike o) tempMark in
  tell (EvCorradoMiller a tempPrice) ;;;
  let est := _corrado_miller_implied tempPrice (otype o) (t_tenor E ub o)
               f_mark (strike o) (exp ((- r) * r_tenor E ub o)) in
  assign (with_vol (Some est)) ;;;
  ret est.

Definition reference_and_solve (a : addr) (sb ub : base) (f : future_attrs)
    (seed : R) : M (frame option_attrs) R :=
  o <- read ;;
  f_mark <- require TypeError (mark ub) ;;
  r <- require TypeError (ccr f) ;;
  (if is_call (otype o) then
     if Req_dec_T (strike o) 0 then raise ZeroDivisionError
     else assign (with_moneyness
                    (Some (ln (f_mark / strike o) / (sqrt (t_tenor E ub o) * seed))))
   else if is_put (otype o) then
     if Req_dec_T f_mark 0 then raise ZeroDivisionError
     else assign (with_moneyness
                    (Some (ln (strike o / f_mark) / (sqrt (t_tenor E ub o) * seed))))
   else ret tt) ;;;
  o1 <- read ;;
  m <- require TypeError (moneyness o1) ;;
  let p := norm_cdf E m in
  assign (with_probability (Some p)) ;;;
  newTempMark <- require TypeError
                   (new_temp_mark (_bid sb) (_ask sb) (bid_adj m p) (ask_adj m p)) ;;
  let realPrice := real_price (otype o) f_mark (strike o) newTempMark in
  v <- call_newton E a seed realPrice (otype o) r (r_tenor E ub o)
         (t_tenor E ub o) f_mark (strike o) ;;
  assign (with_vol (Some v)) ;;;
  ret v.

Definition two_stage_calibration (a : addr) (sb ub : base) (f : future_attrs)
  : M (frame option_attrs) unit :=
  seed <- seed_estimate a sb ub f ;;
  v1 <- reference_and_solve a sb ub f seed ;;
  v2 <- reference_and_solve a sb ub f v1 ;;
  ret tt.

(** One pass of steps 2 and 3 from a stored volatility. *)
Definition single_pass (a : addr) (sb ub : base) (f : future_attrs) (v : R)
  : M (frame option_attrs) unit :=
  v' <- reference_and_solve a sb ub f v ;;
  ret tt.

(** The standardized moneyness of step 2 for a call or a put, and the
    floored, probability-weighted reference price it leads to. *)
Definition std_moneyness (ot : option string) (f_mark strike t_tenor vol : R)
  : R :=
  if is_call ot then ln (f_mark / strike) / (sqrt t_tenor * vol)
  else ln (strike / f_mark) / (sqrt t_tenor * vol).

Definition reference_price (sb : base) (ot : option string)
    (f_mark strike m : R) : option R :=
  option_map (real_price ot f_mark strike)
    (new_temp_mark (_bid sb) (_ask sb)
       (bid_adj m (norm_cdf E m)) (ask_adj m (norm_cdf E m))).

(** The intrinsic value of a call or a put on the forward. *)
Definition intrinsic (ot : option string) (f_mark strike : R) : R :=
  if is_call ot then f_mark - strike else strike - f_mark.

(** The Black-76 price at the volatility [vol], for the option [o] on the
    future with base attributes [ub], forward [f_mark] and rate [ccr]. *)
Definition black76_at (ub : base) (o : option_attrs) (ccr f_mark vol : R)
  : option R :=
  black76 E (otype o) (exp ((- ccr) * r_tenor E ub o)) f_mark (strike o)
    (d_plus f_mark (strike o) vol (t_tenor E ub o))
    (d_minus f_mark (strike o) vol (t_tenor E ub o)).

End Calibration.

(** ** Sample data *)

(** An instance of the collaborators: times are days, a year fraction is a
    count of days over the days of the year, the distribution is flat and
    the root-finder returns its first guess. *)
Definition sample_externals : externals :=
  {| wall_clock := 0%Z;
     actual360_T := fun t0 t1 => IZR (t1 - t0) / 360;
     trading_T := fun t0 t1 => IZR (t1 - t0) / 252;
     trading_days := 252;
     norm_cdf := fun _ => 1 / 2;
     norm_pdf := fun _ => 0;
     newton := fun _ x0 => Some x0 |}.

(** Base attributes with the given quotes and links, and no clock override. *)
Definition quoted (bid ask mark spread : option R) (u : option addr)
    (ds : list addr) : base :=
  {| _bid := bid; _ask := ask; mark := mark; spread := spread;
     tsym := None; qsym := None; underlying := u; derivatives := ds;
     _now := None; isSnapshot := false |}.

(** A future with the given continuously compounded rates, settling at
    [s], nothing modeled yet. *)
Definition rated (r q : R) (s : time) : future_attrs :=
  {| _rf := Some r; ccr := Some r; _qf := Some q; ccq := Some q;
     settle := Some s; carry := None; fprice := null_prices |}.

(** A spot at 0 quoted 1 / 2, and a future on it at 1, not yet modeled. *)
Definition spot_and_future : world :=
  {| heap :=
       [ {| nbase := quoted (Some 1) (Some 2) (Some ((1 + 2) / 2))
                       (Some (2 - 1)) None [1%nat];
            ncls := FXSpot |};
         {| nbase := quoted None None None None (Some 0%nat) [];
            ncls := CurrencyFuture (rated 0 0 90%Z) |} ];
     log := [] |}.

(** The empty arena. *)
Definition nothing : world := {| heap := []; log := [] |}.

(** A spot is created and quoted 1 / 2; its ask is then assigned None and
    its bid 3. *)
Definition reset_ask_then_bid (E : externals) : M world addr :=
  s <- FXSpot_init None None None ;;
  quote E s (Some 1) (Some 2) ;;;
  ask_setter E s None ;;;
  bid_setter E s (Some 3) ;;;
  ret s.

(** A future on its own at 0, rates set. *)
Definition lone_future : world :=
  {| heap := [ {| nbase := quoted None None None None None [];
                  ncls := CurrencyFuture (rated 0 0 90%Z) |} ];
     log := [] |}.

(** A future at 0 quoted 1 / 1 with flat rates, and a call on it at 1,
    struck at 1 and bid 1/10, whose stored volatility is [v]. *)
Definition future_base : base :=
  quoted (Some 1) (Some 1) (Some ((1 + 1) / 2)) (Some (1 - 1)) None [1%nat].

Definition call_base : base :=
  quoted (Some (1 / 10)) None None None (Some 0%nat) [].

Definition call_attrs (v : option R) : option_attrs :=
  {| otype := Some "call"%string; strike := 1; expir := 30%Z; _vol := v;
     _manual_vol := false; moneyness := None; probability := None;
     oprice := None; ogreeks := null_greeks |}.

Definition future_and_call (v : option R) : world :=
  {| heap := [ {| nbase := future_base; ncls := CurrencyFuture (rated 0 0 90%Z) |};
               {| nbase := call_base; ncls := CurrencyFutureOption (call_attrs v) |} ];
     log := [] |}.

(** Whether a trace records a closed-form first guess. *)
Definition is_seed (ev : event) : bool :=
  match ev with
  | EvCorradoMiller _ _ => true
  | _ => false
  end.

(** The same call after a calibration made when the future was quoted
    1 / 1: every derived attribute holds a value. *)
Definition calibrated_call_attrs : option_attrs :=
  {| otype := Some "call"%string; strike := 1; expir := 30%Z;
     _vol := Some (2 / 10); _manual_vol := false;
     moneyness := Some 0; probability := Some (1 / 2);
     oprice := Some (1 / 10);
     ogreeks := {| delta := Some (1 / 2); gamma := Some 1; vega := Some 1;
                   theta := Some (- 1 / 100); rho := Some (1 / 100);
                   epsilon := Some (- 1 / 100) |} |}.

(** The future is now quoted 2 / 2. *)
Definition requoted_future_base : base :=
  quoted (Some 2) (Some 2) (Some ((2 + 2) / 2)) (Some (2 - 2)) None [1%nat].

Definition requoted_future_and_call : world :=
  {| heap := [ {| nbase := requoted_future_base;
                  ncls := CurrencyFuture (rated 0 0 90%Z) |};
               {| nbase := call_base;
                  ncls := CurrencyFutureOption calibrated_call_attrs |} ];
     log := [] |}.

(** Collaborators whose root-finder never converges. *)
Definition diverging_externals : externals :=
  {| wall_clock := 0%Z;
     actual360_T := fun t0 t1 => IZR (t1 - t0) / 360;
     trading_T := fun t0 t1 => IZR (t1 - t0) / 252;
     trading_days := 252;
     norm_cdf := fun _ => 1 / 2;
     norm_pdf := fun _ => 0;
     newton := fun _ _ => None |}.

(** A spot at 0 whose quote is corrupted (0 / 0, mark 0), a future on it at
    1 with a market quote, and a call on the future at 2. *)
Definition corrupted_spot_chain : world :=
  {| heap :=
       [ {| nbase := quoted (Some 0) (Some 0) (Some ((0 + 0) / 2))
                       (Some (0 - 0)) None [1%nat];
            ncls := FXSpot |};
         {| nbase := quoted (Some 1) (Some 1) (Some ((1 + 1) / 2))
                       (Some (1 - 1)) (Some 0%nat) [2%nat];
            ncls := CurrencyFuture (rated 0 0 90%Z) |};
         {| nbase := quoted (Some (1 / 10)) None None None (Some 1%nat) [];
            ncls := CurrencyFutureOption (call_attrs None) |} ];
     log := [] |}.

(** Collaborators whose root-finder makes one step, from its first guess
    [x0] to [x0 - f x0], over a flat distribution: what it returns is not a
    root, it serves to follow what the program does with the value
    returned. *)
Definition one_step_externals : externals :=
  {| wall_clock := 0%Z;
     actual360_T := fun t0 t1 => IZR (t1 - t0) / 360;
     trading_T := fun t0 t1 => IZR (t1 - t0) / 252;
     trading_days := 252;
     norm_cdf := fun _ => 1 / 2;
     norm_pdf := fun _ => 0;
     newton := fun g x0 => Some (x0 - g x0) |}.

(** A call bid and asked 0 on the future quoted 1 / 1, not yet
    calibrated. *)
Definition future_and_free_call : world :=
  {| heap := [ {| nbase := future_base; ncls := CurrencyFuture (rated 0 0 90%Z) |};
               {| nbase := quoted (Some 0) (Some 0) (Some ((0 + 0) / 2))
                             (Some (0 - 0)) (Some 0%nat) [];
                  ncls := CurrencyFutureOption (call_attrs None) |} ];
     log := [] |}.

(** A future quoted 100 / 100 with a domestic rate of 5%, and a call on it
    struck at 1, a year from expiry, bid and asked [p], not yet
    calibrated. *)
Definition deep_future_base : base :=
  quoted (Some 100) (Some 100) (Some ((100 + 100) / 2)) (Some (100 - 100))
    None [1%nat].

Definition deep_call_base (p : R) : base :=
  quoted (Some p) (Some p) (Some ((p + p) / 2)) (Some (p - p)) (Some 0%nat) [].

Definition deep_call_attrs : option_attrs :=
  {| otype := Some "call"%string; strike := 1; expir := 360%Z; _vol := None;
     _manual_vol := false; moneyness := None; probability := None;
     oprice := None; ogreeks := null_greeks |}.

Definition deep_call (p : R) : world :=
  {| heap := [ {| nbase := deep_future_base;
                  ncls := CurrencyFuture (rated (5 / 100) 0 360%Z) |};
               {| nbase := deep_call_base p;
                  ncls := CurrencyFutureOption deep_call_attrs |} ];
     log := [] |}.

(** ** Facts about the monad and the arena *)

Lemma get_ok a w n : heap w !! a = Some n -> get a w = (Ok n, w).
Proof. intros H. unfold get. now rewrite H. Qed.

Lemma bind_ok {S A B} (m : M S A) (k : A -> M S B) w x w' :
  m w = (Ok x, w') -> bind m k w = k x w'.
Proof. intros H. unfold bind. now rewrite H. Qed.

Lemma bind_raise {S A B} (m : M S A) (k : A -> M S B) w e w' :
  m w = (Raise e, w') -> bind m k w = (Raise e, w').
Proof. intros H. unfold bind. now rewrite H. Qed.

Lemma modify_base_ok a g w sb c :
  heap w !! a = Some {| nbase := sb; ncls := c |} ->
  modify_base a g w
  = (Ok tt, {| heap := <[a := {| nbase := g sb; ncls := c |}]> (heap w);
               log := log w |}).
Proof. intros H. unfold modify_base, bind. now rewrite (get_ok _ _ _ H). Qed.

Lemma lookup_insert_same (l : list node) a n n' :
  l !! a = Some n -> <[a := n']> l !! a = Some n'.
Proof.
  intros H. apply list_lookup_insert_eq. now apply lookup_lt_Some in H.
Qed.

(** *** [_update], class by class *)

Section UpdateFacts.

Variable E : externals.

Lemma _update_spot a w sb :
  heap w !! a = Some {| nbase := sb; ncls := FXSpot |} ->
  _update E a w = (Ok tt, {| heap := heap w; log := log w ++ [EvUpdate a] |}).
Proof.
  intros H. unfold _update, bind, emit, get. simpl. now rewrite H.
Qed.

Lemma _update_future a w sb f ua un :
  heap w !! a = Some {| nbase := sb; ncls := CurrencyFuture f |} ->
  underlying sb = Some ua ->
  heap w !! ua = Some un ->
  _update E a w
  = run_method a sb CurrencyFuture f
      (CurrencyFuture_update E sb (Some (nbase un)))
      {| heap := heap w; log := log w ++ [EvUpdate a] |}.
Proof.
  intros H Hu Hn. unfold _update, bind, emit, get, ret. simpl.
  rewrite H. simpl. rewrite Hu. simpl. rewrite Hn. reflexivity.
Qed.

Lemma _update_future_orphan a w sb f :
  heap w !! a = Some {| nbase := sb; ncls := CurrencyFuture f |} ->
  underlying sb = None ->
  _update E a w
  = run_method a sb CurrencyFuture f (CurrencyFuture_update E sb None)
      {| heap := heap w; log := log w ++ [EvUpdate a] |}.
Proof.
  intros H Hu. unfold _update, bind, emit, get, ret. simpl.
  rewrite H. simpl. rewrite Hu. reflexivity.
Qed.

Lemma _update_option a w sb o ua ub f :
  heap w !! a = Some {| nbase := sb; ncls := CurrencyFutureOption o |} ->
  underlying sb = Some ua ->
  heap w !! ua = Some {| nbase := ub; ncls := CurrencyFuture f |} ->
  _update E a w
  = run_method a sb CurrencyFutureOption o
      (CurrencyFutureOption_update E a sb ub f)
      {| heap := heap w; log := log w ++ [EvUpdate a] |}.
Proof.
  intros H Hu Hn.
  unfold _update, underlying_future, get_future, bind, emit, get, ret. simpl.
  rewrite H. simpl. rewrite Hu. simpl. rewrite Hn. reflexivity.
Qed.

(** What [CurrencyFuture._update] leaves in the modeled prices, whether or
    not the cost-of-carry step raises. *)
Lemma CurrencyFuture_update_prices sb ub f r q s st :
  self st = f ->
  ccr f = Some r -> ccq f = Some q -> settle f = Some s ->
  fprice (self (snd (CurrencyFuture_update E sb (Some ub) st)))
  = model_prices r q (future_r_tenor E sb s) ub (fprice f).
Proof.
  intros <- Hr Hq Hse.
  unfold CurrencyFuture_update, bind, read, assign, raise, ret.
  rewrite Hr, Hq, Hse. simpl.
  destruct (mark ub) as [um|]; [destruct (mark sb) as [m|] |]; simpl;
    try reflexivity.
  destruct (Req_dec_T um 0); reflexivity.
Qed.

Lemma model_prices_bid r q T ub p x :
  _bid ub = Some x ->
  p_bid (model_prices r q T ub p) = Some (x * exp ((r - q) * T)).
Proof.
  intros H. unfold model_prices. rewrite H.
  destruct (_ask ub); [reflexivity |]. destruct (p_ask p); reflexivity.
Qed.

Lemma model_prices_ask r q T ub p x :
  _ask ub = Some x ->
  p_ask (model_prices r q T ub p) = Some (x * exp ((r - q) * T)).
Proof.
  intros H. unfold model_prices. rewrite H.
  destruct (_bid ub); [reflexivity |]. destruct (p_bid p); reflexivity.
Qed.

Lemma model_prices_mark r q T ub p b k :
  p_bid (model_prices r q T ub p) = Some b ->
  p_ask (model_prices r q T ub p) = Some k ->
  p_mark (model_prices r q T ub p) = Some ((b + k) / 2)
  /\ p_spread (model_prices r q T ub p) = Some (k - b).
Proof.
  unfold model_prices.
  destruct (_bid ub) as [x|], (_ask ub) as [y|]; simpl.
  - intros [= <-] [= <-]. auto.
  - destruct (p_ask p); simpl; [intros [= <-] [= <-]; auto | discriminate].
  - destruct (p_bid p); simpl; [intros [= <-] [= <-]; auto | discriminate].
  - destruct (p_bid p), (p_ask p); simpl; try discriminate.
    intros [= <-] [= <-]; auto.
Qed.

End UpdateFacts.

(** ** The modeled forward of a future *)

(** C3: on a CurrencyFuture whose continuously compounded rates and
    settlement are set, every recompute ([_update]) leaves the modeled bid
    equal to the underlying's bid times [exp ((ccr - ccq) * r_tenor)]
    whenever the underlying has a bid, the same for the ask, each side on
    its own; and whenever both modeled sides are then present, the modeled
    mark is their average and the modeled spread their difference. *)
Theorem future_update_models_forward E a w sb f r q s ua un :
  heap w !! a = Some {| nbase := sb; ncls := CurrencyFuture f |} ->
  ccr f = Some r -> ccq f = Some q -> settle f = Some s ->
  underlying sb = Some ua ->
  heap w !! ua = Some un ->
  exists f',
    heap (snd (_update E a w)) !! a
      = Some {| nbase := sb; ncls := CurrencyFuture f' |}
    /\ (forall x, _bid (nbase un) = Some x ->
          p_bid (fprice f') = Some (x * exp ((r - q) * future_r_tenor E sb s)))
    /\ (forall x, _ask (nbase un) = Some x ->
          p_ask (fprice f') = Some (x * exp ((r - q) * future_r_tenor E sb s)))
    /\ (forall b k, p_bid (fprice f') = Some b -> p_ask (fprice f') = Some k ->
          p_mark (fprice f') = Some ((b + k) / 2)
          /\ p_spread (fprice f') = Some (k - b)).
Proof.
  intros Ha Hr Hq Hs Hu Hn.
  rewrite (_update_future E _ _ _ _ _ _ Ha Hu Hn).
  unfold run_method.
  pose proof (CurrencyFuture_update_prices E sb (nbase un) f r q s
                {| self := f; trace := [] |} eq_refl Hr Hq Hs) as Hp.
  destruct (CurrencyFuture_update E sb (Some (nbase un))
              {| self := f; trace := [] |}) as [res st]. simpl in *.
  exists (self st). split.
  - eapply lookup_insert_same; eassumption.
  - rewrite Hp. repeat split.
    + intros x Hx. now apply model_prices_bid.
    + intros x Hx. now apply model_prices_ask.
    + eapply model_prices_mark; eassumption.
    + eapply model_prices_mark; eassumption.
Qed.

Lemma future_update_models_forward_witness :
  exists f',
    heap (snd (_update sample_externals 1%nat spot_and_future)) !! 1%nat
      = Some {| nbase := quoted None None None None (Some 0%nat) [];
                ncls := CurrencyFuture f' |}
    /\ (forall x, Some 1 = Some x ->
          p_bid (fprice f')
          = Some (x * exp ((0 - 0) * future_r_tenor sample_externals
                                       (quoted None None None None (Some 0%nat) [])
                                       90%Z)))
    /\ (forall x, Some 2 = Some x ->
          p_ask (fprice f')
          = Some (x * exp ((0 - 0) * future_r_tenor sample_externals
                                       (quoted None None None None (Some 0%nat) [])
                                       90%Z)))
    /\ (forall b k, p_bid (fprice f') = Some b -> p_ask (fprice f') = Some k ->
          p_mark (fprice f') = Some ((b + k) / 2)
          /\ p_spread (fprice f') = Some (k - b)).
Proof.
  exact (future_update_models_forward sample_externals 1%nat spot_and_future
           (quoted None None None None (Some 0%nat) [])
           (rated 0 0 90%Z) 0 0 90%Z 0%nat
           {| nbase := quoted (Some 1) (Some 2) (Some ((1 + 2) / 2))
                         (Some (2 - 1)) None [1%nat];
              ncls := FXSpot |}
           eq_refl eq_refl eq_refl eq_refl eq_refl eq_refl).
Defined.

(** ** Mark and spread under the single-side setters *)

(** C9 (at the failing input): a spot is quoted 1 / 2, its ask is assigned
    None, then its bid is assigned 3.  The ask is null when the bid is
    assigned, yet mark and spread are not null afterwards: they are still
    those of the quote 1 / 2. *)
Theorem bid_setter_keeps_stale_mark E :
  exists w n,
    reset_ask_then_bid E nothing = (Ok 0%nat, w)
    /\ heap w !! 0%nat = Some n
    /\ _bid (nbase n) = Some 3
    /\ _ask (nbase n) = None
    /\ mark (nbase n) = Some ((1 + 2) / 2)
    /\ spread (nbase n) = Some (2 - 1).
Proof.
  eexists. eexists. split; [reflexivity |].
  simpl. repeat split; reflexivity.
Qed.

(** ** Construction of an option *)

Lemma modify_option_ok a g w sb o :
  heap w !! a = Some {| nbase := sb; ncls := CurrencyFutureOption o |} ->
  modify_option a g w
  = (Ok tt, {| heap := <[a := {| nbase := sb; ncls := CurrencyFutureOption (g o) |}]> (heap w);
               log := log w |}).
Proof. intros H. unfold modify_option, bind. now rewrite (get_ok _ _ _ H). Qed.

Lemma modify_future_ok a g w sb f :
  heap w !! a = Some {| nbase := sb; ncls := CurrencyFuture f |} ->
  modify_future a g w
  = (Ok tt, {| heap := <[a := {| nbase := sb; ncls := CurrencyFuture (g f) |}]> (heap w);
               log := log w |}).
Proof. intros H. unfold modify_future, bind. now rewrite (get_ok _ _ _ H). Qed.

(** Until the type is assigned, [CurrencyFutureOption._update] does
    nothing. *)
Lemma CurrencyFutureOption_update_no_type E a sb ub f st :
  otype (self st) = None ->
  CurrencyFutureOption_update E a sb ub f st = (Ok tt, st).
Proof.
  intros H. unfold CurrencyFutureOption_update, bind, read. rewrite H.
  destruct (ccr f), (ccq f); reflexivity.
Qed.

Lemma BaseInstrument_init_ok ts qs u c w ub cu :
  heap w !! u = Some {| nbase := ub; ncls := cu |} ->
  BaseInstrument_init ts qs (Some u) c w
  = (Ok (length (heap w)),
     {| heap := <[u := {| nbase := with_links (underlying ub)
                                     (derivatives ub ++ [length (heap w)]) ub;
                          ncls := cu |}]>
                  (heap w ++ [ {| nbase := {| _bid := None; _ask := None;
                                              mark := None; spread := None;
                                              tsym := ts; qsym := qs;
                                              underlying := Some u;
                                              derivatives := [];
                                              _now := None;
                                              isSnapshot := false |};
                                  ncls := c |} ]);
        log := log w |}).
Proof.
  intros Hu.
  assert (Hlt : (u < length (heap w))%nat) by (now apply lookup_lt_Some in Hu).
  unfold BaseInstrument_init.
  erewrite bind_ok by (unfold alloc; reflexivity).
  erewrite bind_ok; [reflexivity |].
  erewrite modify_base_ok; [reflexivity |].
  simpl. rewrite lookup_app_l by assumption. exact Hu.
Qed.

(** The [vol] setter on an option whose type is still null, as in the
    constructor: it only stores the volatility. *)
Lemma vol_setter_no_type E a v w sb o ua ub f :
  heap w !! a = Some {| nbase := sb; ncls := CurrencyFutureOption o |} ->
  otype o = None ->
  underlying sb = Some ua ->
  heap w !! ua = Some {| nbase := ub; ncls := CurrencyFuture f |} ->
  exists w',
    vol_setter E a v w = (Ok tt, w')
    /\ heap w' !! a
       = Some {| nbase := sb;
                 ncls := CurrencyFutureOption
                           (with_manual_vol false
                              (with_manual_vol true (with_vol v o))) |}.
Proof.
  intros Ha Ht Hu Hua.
  assert (Hne : a <> ua) by (intros ->; rewrite Ha in Hua; discriminate).
  unfold vol_setter.
  erewrite bind_ok by (eapply modify_option_ok; exact Ha).
  erewrite bind_ok.
  2:{ eapply modify_option_ok. simpl. eapply lookup_insert_same. exact Ha. }
  erewrite bind_ok.
  2:{ rewrite (_update_option E a _ sb (with_manual_vol true (with_vol v o))
                 ua ub f); simpl.
      - unfold run_method.
        rewrite CurrencyFutureOption_update_no_type by exact Ht. reflexivity.
      - eapply lookup_insert_same. eapply lookup_insert_same. exact Ha.
      - exact Hu.
      - rewrite !list_lookup_insert_ne by exact Hne. exact Hua. }
  erewrite modify_option_ok.
  2:{ simpl. eapply lookup_insert_same. eapply lookup_insert_same.
      eapply lookup_insert_same. exact Ha. }
  eexists. split; [reflexivity |]. simpl.
  repeat (eapply lookup_insert_same). exact Ha.
Qed.

(** The constructor on an underlying that is a future. *)
Lemma CurrencyFutureOption_init_ok E ot K ex lastVol ts qs u w ub f :
  heap w !! u = Some {| nbase := ub; ncls := CurrencyFuture f |} ->
  exists w',
    CurrencyFutureOption_init E ot K ex lastVol ts qs (Some u) w
      = (Ok (length (heap w)), w')
    /\ heap w' !! length (heap w)
       = Some {| nbase := {| _bid := None; _ask := None; mark := None;
                             spread := None; tsym := ts; qsym := qs;
                             underlying := Some u; derivatives := [];
                             _now := None; isSnapshot := false |};
                 ncls := CurrencyFutureOption
                           {| otype := Some ot; strike := K; expir := ex;
                              _vol := lastVol; _manual_vol := false;
                              moneyness := None; probability := None;
                              oprice := None; ogreeks := null_greeks |} |}.
Proof.
  intros Hu.
  assert (Hlt : (u < length (heap w))%nat) by (now apply lookup_lt_Some in Hu).
  unfold CurrencyFutureOption_init.
  erewrite bind_ok by (eapply BaseInstrument_init_ok; exact Hu).
  match goal with
  | |- context [bind (vol_setter E ?a lastVol) _ ?w2] =>
      assert (H2a : exists sb o, heap w2 !! a
                      = Some {| nbase := sb; ncls := CurrencyFutureOption o |}
                    /\ otype o = None /\ underlying sb = Some u
                    /\ sb = {| _bid := None; _ask := None; mark := None;
                               spread := None; tsym := ts; qsym := qs;
                               underlying := Some u; derivatives := [];
                               _now := None; isSnapshot := false |}
                    /\ o = {| otype := None; strike := K; expir := ex;
                              _vol := None; _manual_vol := false;
                              moneyness := None; probability := None;
                              oprice := None; ogreeks := null_greeks |});
      [| assert (H2u : exists ub', heap w2 !! u
                         = Some {| nbase := ub'; ncls := CurrencyFuture f |}) ]
  end.
  - do 2 eexists. split; [| repeat split; reflexivity].
    simpl. rewrite list_lookup_insert_ne by lia.
    apply list_lookup_middle. reflexivity.
  - eexists. simpl. eapply lookup_insert_same.
    rewrite lookup_app_l by assumption. exact Hu.
  - destruct H2a as (sb & o & H2a & Ht & Hus & -> & ->).
    destruct H2u as (ub' & H2u).
    destruct (vol_setter_no_type E _ lastVol _ _ _ _ _ _ H2a Ht Hus H2u)
      as (w3 & Hv & H3).
    erewrite bind_ok by exact Hv.
    erewrite bind_ok by (eapply modify_option_ok; exact H3).
    eexists. split; [reflexivity |]. simpl.
    eapply lookup_insert_same. exact H3.
Qed.

(** C8 (as the code has it): the constructor of CurrencyFutureOption checks
    none of its arguments.  On an underlying that is a future it returns
    the new object, whatever the type, the strike and the expiry are, with
    these stored as given, [lastVol] as its volatility and every derived
    attribute null. *)
Theorem option_init_accepts_any_arguments
    E ot K ex lastVol ts qs u w ub f :
  heap w !! u = Some {| nbase := ub; ncls := CurrencyFuture f |} ->
  exists w',
    CurrencyFutureOption_init E ot K ex lastVol ts qs (Some u) w
      = (Ok (length (heap w)), w')
    /\ heap w' !! length (heap w)
       = Some {| nbase := {| _bid := None; _ask := None; mark := None;
                             spread := None; tsym := ts; qsym := qs;
                             underlying := Some u; derivatives := [];
                             _now := None; isSnapshot := false |};
                 ncls := CurrencyFutureOption
                           {| otype := Some ot; strike := K; expir := ex;
                              _vol := lastVol; _manual_vol := false;
                              moneyness := None; probability := None;
                              oprice := None; ogreeks := null_greeks |} |}.
Proof. apply CurrencyFutureOption_init_ok. Qed.

Lemma option_init_accepts_any_arguments_witness :
  exists w',
    CurrencyFutureOption_init sample_externals "straddle"%string (-1) 0%Z None
      None None (Some 0%nat) lone_future
      = (Ok (length (heap lone_future)), w')
    /\ heap w' !! length (heap lone_future)
       = Some {| nbase := {| _bid := None; _ask := None; mark := None;
                             spread := None; tsym := None; qsym := None;
                             underlying := Some 0%nat; derivatives := [];
                             _now := None; isSnapshot := false |};
                 ncls := CurrencyFutureOption
                           {| otype := Some "straddle"%string; strike := -1;
                              expir := 0%Z;
                              _vol := None; _manual_vol := false;
                              moneyness := None; probability := None;
                              oprice := None; ogreeks := null_greeks |} |}.
Proof.
  exact (option_init_accepts_any_arguments sample_externals "straddle"%string (-1)
           0%Z None None None 0%nat lone_future
           (quoted None None None None None []) (rated 0 0 90%Z) eq_refl).
Defined.

(** C8 fails as stated: with a type that is neither "call" nor "put", a
    negative strike and an expiry that is not after the clock of the new
    object, the constructor returns the object and raises nothing. *)
Lemma option_init_does_not_validate :
  "straddle"%string <> "call"%string
  /\ "straddle"%string <> "put"%string
  /\ -1 <= 0
  /\ (0 <= wall_clock sample_externals)%Z
  /\ exists w',
       CurrencyFutureOption_init sample_externals "straddle"%string (-1) 0%Z None
         None None (Some 0%nat) lone_future
       = (Ok 1%nat, w').
Proof.
  repeat split; try discriminate; try lra; try reflexivity.
  destruct (CurrencyFutureOption_init_ok sample_externals "straddle"%string (-1)
              0%Z None None None 0%nat lone_future
              (quoted None None None None None []) (rated 0 0 90%Z) eq_refl)
    as (w' & H & _).
  exists w'. exact H.
Qed.

(** ** The passes of the calibration *)

(** Case analysis on an innermost scrutinee of the goal. *)
Ltac inner_case :=
  match goal with
  | |- context [match ?x with _ => _ end] =>
      lazymatch x with
      | context [match _ with _ => _ end] => fail
      | context [reference_and_solve] => fail
      | context [_calc_implied] => fail
      | _ => destruct x eqn:?; simpl in *
      end
  end.

Ltac crunch := repeat first [ reflexivity | inner_case ].

Section CalibrationFacts.

Variable E : externals.

Lemma _calc_implied_stored k a sb ub f st v :
  _vol (self st) = Some v ->
  _calc_implied E (S k) a sb ub f st = single_pass E a sb ub f v st.
Proof.
  intros Hv. destruct st as [o tr]. simpl in Hv.
  simpl. unfold single_pass, reference_and_solve, call_newton.
  unfold bind, read, require, assign, tell, ret, raise. simpl. rewrite Hv.
  crunch.
Qed.

Lemma _calc_implied_first k a sb ub f st :
  _vol (self st) = None ->
  _calc_implied E (S (S k)) a sb ub f st = two_stage_calibration E a sb ub f st.
Proof.
  intros Hv. destruct st as [o tr]. simpl in Hv.
  remember (S k) as k' eqn:Hk.
  simpl. unfold two_stage_calibration, seed_estimate.
  unfold reference_and_solve at 1.
  unfold call_newton, bind, read, require, assign, tell, ret, raise.
  unfold t_tenor, r_tenor. simpl. rewrite Hv.
  repeat first
    [ reflexivity
    | match goal with
      | |- _calc_implied _ _ _ _ _ _ _ = _ =>
          subst k'; erewrite _calc_implied_stored by reflexivity;
          unfold single_pass, bind, ret; reflexivity
      end
    | inner_case ].
Qed.

(** Two levels of recursion are all that [_calc_implied] uses. *)
Lemma _calc_implied_passes k a sb ub f st :
  _calc_implied E (S (S k)) a sb ub f st
  = match _vol (self st) with
    | None => two_stage_calibration E a sb ub f st
    | Some v => single_pass E a sb ub f v st
    end.
Proof.
  destruct (_vol (self st)) as [v|] eqn:Hv.
  - now apply _calc_implied_stored.
  - now apply _calc_implied_first.
Qed.

(** A pass from a stored volatility makes no seed estimate; the
    calibration from none makes one. *)
Lemma single_pass_no_seed a sb ub f v st :
  existsb is_seed (trace (snd (single_pass E a sb ub f v st)))
  = existsb is_seed (trace st).
Proof.
  destruct st as [o tr].
  unfold single_pass, reference_and_solve, call_newton.
  unfold bind, read, require, assign, tell, ret, raise.
  unfold t_tenor, r_tenor. simpl.
  repeat first
    [ reflexivity
    | progress (rewrite ?existsb_app; simpl; rewrite ?orb_false_r)
    | inner_case ].
Qed.

Lemma two_stage_calibration_seeds a sb ub f st F r tm :
  mark ub = Some F -> ccr f = Some r ->
  temp_mark (_bid sb) (_ask sb) = Some tm ->
  existsb is_seed (trace (snd (two_stage_calibration E a sb ub f st))) = true.
Proof.
  intros HF Hr Htm. destruct st as [o tr].
  unfold two_stage_calibration, seed_estimate, reference_and_solve, call_newton.
  unfold bind, read, require, assign, tell, ret, raise.
  unfold t_tenor, r_tenor. simpl. rewrite HF, Hr, Htm. simpl.
  repeat first
    [ reflexivity
    | progress (rewrite ?existsb_app; simpl;
                rewrite ?orb_false_r, ?orb_true_r)
    | inner_case ].
Qed.

End CalibrationFacts.

Arguments _calc_implied : simpl never.

(** C5 (as the code has it): the calibration is the seed estimate followed
    by two passes of re-reference and root-find, the second from the result
    of the first and its result final, exactly when no volatility is stored;
    when one is stored (by an earlier calibration, an assignment or the
    constructor) it is a single pass from the stored volatility, with no
    seed estimate and no second pass. *)
Theorem calibration_passes E a sb ub f st :
  _calc_implied E recursion_limit a sb ub f st
  = match _vol (self st) with
    | None => two_stage_calibration E a sb ub f st
    | Some v => single_pass E a sb ub f v st
    end.
Proof. apply (_calc_implied_passes E 998). Qed.

(** C5 fails as stated: on a call with a stored volatility, not being
    assigned, all inputs present, the calibration makes no seed estimate and
    calls the root-finder once, from the stored volatility; it is not the
    seed estimate and two passes, whatever the collaborators are. *)
Lemma stored_volatility_is_not_reseeded :
  _vol (call_attrs (Some (2 / 10))) = Some (2 / 10)
  /\ _manual_vol (call_attrs (Some (2 / 10))) = false
  /\ is_number (_bid call_base) = true
  /\ is_number (mark future_base) = true
  /\ forall E,
       let st := {| self := call_attrs (Some (2 / 10)); trace := [] |} in
       let run := _calc_implied E recursion_limit 1%nat call_base future_base
                    (rated 0 0 90%Z) st in
       (exists realPrice, trace (snd run) = [EvNewton 1%nat (2 / 10) realPrice])
       /\ run <> two_stage_calibration E 1%nat call_base future_base
                   (rated 0 0 90%Z) st.
Proof.
  repeat split; try reflexivity.
  - change recursion_limit with (S (S 998)).
    rewrite _calc_implied_passes. simpl.
    unfold single_pass, reference_and_solve, call_newton.
    unfold bind, read, require, assign, tell, ret, raise. simpl.
    destruct (Req_dec_T 1 0) as [H|H]; [lra |]. simpl.
    eexists.
    destruct (newton E _ _); reflexivity.
  - change recursion_limit with (S (S 998)).
    rewrite _calc_implied_passes. simpl.
    intros Heq.
    apply (f_equal (fun r => existsb is_seed (trace (snd r)))) in Heq.
    rewrite single_pass_no_seed in Heq.
    erewrite two_stage_calibration_seeds in Heq by reflexivity.
    discriminate.
Qed.

(** ** A root-finder that does not converge *)

Section FailedRootFind.

Variable E : externals.

(** One pass from [v] on a call or a put when the root-finder fails: the
    moneyness and the probability are already assigned, the volatility is
    not. *)
Lemma reference_and_solve_fails a sb ub f v st F r rp :
  mark ub = Some F -> ccr f = Some r ->
  is_call (otype (self st)) || is_put (otype (self st)) = true ->
  strike (self st) <> 0 -> F <> 0 ->
  let m := std_moneyness (otype (self st)) F (strike (self st))
             (t_tenor E ub (self st)) v in
  reference_price E sb (otype (self st)) F (strike (self st)) m = Some rp ->
  newton E (objective E rp (otype (self st)) r (r_tenor E ub (self st))
              (t_tenor E ub (self st)) F (strike (self st))) v = None ->
  reference_and_solve E a sb ub f v st
  = (Raise RuntimeError,
     {| self := with_probability (Some (norm_cdf E m))
                  (with_moneyness (Some m) (self st));
        trace := trace st ++ [EvNewton a v rp] |}).
Proof.
  intros HF Hr Hot HK HF0 m Hrp Hn. destruct st as [o tr]. simpl in *.
  unfold reference_price in Hrp.
  destruct (new_temp_mark _ _ _ _) as [ntm|] eqn:Hntm; [| discriminate].
  injection Hrp as <-.
  unfold reference_and_solve, call_newton.
  unfold bind, read, require, assign, tell, ret, raise.
  simpl. rewrite HF, Hr. simpl.
  subst m. unfold std_moneyness in *. unfold t_tenor, r_tenor in *.
  destruct (is_call (otype o)) eqn:Hc; simpl in *.
  - destruct (Req_dec_T (strike o) 0) as [|_]; [contradiction |]. simpl.
    rewrite Hntm. simpl.
    destruct (Req_dec_T (strike o) 0) as [|_]; [contradiction |].
    rewrite ?Hc. simpl. rewrite Hn. reflexivity.
  - rewrite Hot.
    destruct (Req_dec_T F 0) as [|_]; [contradiction |]. simpl.
    rewrite Hntm. simpl.
    destruct (Req_dec_T (strike o) 0) as [|_]; [contradiction |].
    rewrite ?Hc, ?Hot. simpl. rewrite Hn. reflexivity.
Qed.

Lemma CurrencyFutureOption_update_fails a sb ub f o ot F r q v rp :
  ccr f = Some r -> ccq f = Some q -> otype o = Some ot ->
  is_call (otype o) || is_put (otype o) = true ->
  is_number (_bid sb) || is_number (_ask sb) = true ->
  mark ub = Some F ->
  _manual_vol o = false -> _vol o = Some v ->
  strike o <> 0 -> F <> 0 ->
  let m := std_moneyness (otype o) F (strike o) (t_tenor E ub o) v in
  reference_price E sb (otype o) F (strike o) m = Some rp ->
  newton E (objective E rp (otype o) r (r_tenor E ub o) (t_tenor E ub o) F
              (strike o)) v = None ->
  CurrencyFutureOption_update E a sb ub f {| self := o; trace := [] |}
  = (Raise RuntimeError,
     {| self := with_probability (Some (norm_cdf E m))
                  (with_moneyness (Some m) o);
        trace := [EvNewton a v rp] |}).
Proof.
  intros Hr Hq Hot Hcp Hba HF Hman Hv HK HF0 m Hrp Hn.
  unfold CurrencyFutureOption_update.
  erewrite bind_ok by reflexivity. simpl.
  rewrite Hr, Hq, Hot, Hba, HF, Hman. simpl.
  apply bind_raise.
  change recursion_limit with (S (S 998)).
  rewrite _calc_implied_passes. simpl. rewrite Hv.
  unfold single_pass. apply bind_raise.
  exact (reference_and_solve_fails a sb ub f v {| self := o; trace := [] |}
           F r rp HF Hr Hcp HK HF0 Hrp Hn).
Qed.

(** The same at the level of the arena. *)
Lemma _update_option_fails a w sb o ua ub f ot F r q v rp :
  heap w !! a = Some {| nbase := sb; ncls := CurrencyFutureOption o |} ->
  underlying sb = Some ua ->
  heap w !! ua = Some {| nbase := ub; ncls := CurrencyFuture f |} ->
  ccr f = Some r -> ccq f = Some q -> otype o = Some ot ->
  is_call (otype o) || is_put (otype o) = true ->
  is_number (_bid sb) || is_number (_ask sb) = true ->
  mark ub = Some F ->
  _manual_vol o = false -> _vol o = Some v ->
  strike o <> 0 -> F <> 0 ->
  let m := std_moneyness (otype o) F (strike o) (t_tenor E ub o) v in
  reference_price E sb (otype o) F (strike o) m = Some rp ->
  newton E (objective E rp (otype o) r (r_tenor E ub o) (t_tenor E ub o) F
              (strike o)) v = None ->
  _update E a w
  = (Raise RuntimeError,
     {| heap := <[a := {| nbase := sb;
                          ncls := CurrencyFutureOption
                                    (with_probability (Some (norm_cdf E m))
                                       (with_moneyness (Some m) o)) |}]>
                  (heap w);
        log := (log w ++ [EvUpdate a]) ++ [EvNewton a v rp] |}).
Proof.
  intros Ha Hu Hua Hr Hq Hot Hcp Hba HF Hman Hv HK HF0 m Hrp Hn.
  pose proof (CurrencyFutureOption_update_fails a sb ub f o ot F r q v rp
                Hr Hq Hot Hcp Hba HF Hman Hv HK HF0 Hrp Hn) as Hfail.
  rewrite (_update_option E a w sb o ua ub f Ha Hu Hua).
  unfold run_method. fold m in Hfail. rewrite Hfail. reflexivity.
Qed.

End FailedRootFind.

(** C2 (as the code has it): an option with a stored volatility, all inputs
    present, whose recompute reaches a root-finder that does not converge.
    The recompute raises RuntimeError, to whoever called it and through the
    loop over the derivatives of an upstream object; the volatility, the
    price and the Greeks hold their prior values; the moneyness and the
    probability do not: they hold the values just computed from the current
    forward and the stored volatility. *)
Theorem failed_root_find_update E a w sb o ua ub f ot F r q v rp :
  heap w !! a = Some {| nbase := sb; ncls := CurrencyFutureOption o |} ->
  underlying sb = Some ua ->
  heap w !! ua = Some {| nbase := ub; ncls := CurrencyFuture f |} ->
  ccr f = Some r -> ccq f = Some q -> otype o = Some ot ->
  is_call (otype o) || is_put (otype o) = true ->
  is_number (_bid sb) || is_number (_ask sb) = true ->
  mark ub = Some F ->
  _manual_vol o = false -> _vol o = Some v ->
  strike o <> 0 -> F <> 0 ->
  reference_price E sb (otype o) F (strike o)
    (std_moneyness (otype o) F (strike o) (t_tenor E ub o) v) = Some rp ->
  newton E (objective E rp (otype o) r (r_tenor E ub o) (t_tenor E ub o) F
              (strike o)) v = None ->
  exists w' o',
    _update E a w = (Raise RuntimeError, w')
    /\ (forall ds, for_each (_update E) (a :: ds) w = (Raise RuntimeError, w'))
    /\ heap w' !! a = Some {| nbase := sb; ncls := CurrencyFutureOption o' |}
    /\ _vol o' = _vol o
    /\ oprice o' = oprice o
    /\ ogreeks o' = ogreeks o
    /\ moneyness o'
       = Some (std_moneyness (otype o) F (strike o) (t_tenor E ub o) v)
    /\ probability o'
       = Some (norm_cdf E
                 (std_moneyness (otype o) F (strike o) (t_tenor E ub o) v)).
Proof.
  intros Ha Hu Hua Hr Hq Hot Hcp Hba HF Hman Hv HK HF0 Hrp Hn.
  pose proof (_update_option_fails E a w sb o ua ub f ot F r q v rp
                Ha Hu Hua Hr Hq Hot Hcp Hba HF Hman Hv HK HF0 Hrp Hn) as Hup.
  do 2 eexists. split; [exact Hup |]. split.
  - intros ds. simpl. apply bind_raise. exact Hup.
  - simpl. split; [eapply lookup_insert_same; exact Ha |].
    repeat split; reflexivity.
Qed.

Lemma reference_price_requoted E m :
  reference_price E call_base (Some "call"%string) ((2 + 2) / 2) 1 m
  = Some ((2 + 2) / 2 - 1).
Proof.
  unfold reference_price, real_price. simpl.
  destruct (Rgt_dec ((2 + 2) / 2 - 1) (1 / 10)) as [_|H]; [reflexivity |].
  exfalso. apply H. lra.
Qed.

Lemma failed_root_find_update_witness :
  exists w' o',
    _update diverging_externals 1%nat requoted_future_and_call
      = (Raise RuntimeError, w')
    /\ (forall ds, for_each (_update diverging_externals) (1%nat :: ds)
                     requoted_future_and_call = (Raise RuntimeError, w'))
    /\ heap w' !! 1%nat
       = Some {| nbase := call_base; ncls := CurrencyFutureOption o' |}
    /\ _vol o' = _vol calibrated_call_attrs
    /\ oprice o' = oprice calibrated_call_attrs
    /\ ogreeks o' = ogreeks calibrated_call_attrs
    /\ moneyness o'
       = Some (std_moneyness (otype calibrated_call_attrs) ((2 + 2) / 2)
                 (strike calibrated_call_attrs)
                 (t_tenor diverging_externals requoted_future_base
                    calibrated_call_attrs) (2 / 10))
    /\ probability o'
       = Some (norm_cdf diverging_externals
                 (std_moneyness (otype calibrated_call_attrs) ((2 + 2) / 2)
                    (strike calibrated_call_attrs)
                    (t_tenor diverging_externals requoted_future_base
                       calibrated_call_attrs) (2 / 10))).
Proof.
  refine (failed_root_find_update diverging_externals 1%nat
            requoted_future_and_call call_base calibrated_call_attrs 0%nat
            requoted_future_base (rated 0 0 90%Z) "call"%string ((2 + 2) / 2)
            0 0 (2 / 10) ((2 + 2) / 2 - 1)
            eq_refl eq_refl eq_refl eq_refl eq_refl eq_refl eq_refl eq_refl
            eq_refl eq_refl eq_refl _ _ _ eq_refl).
  - simpl. lra.
  - lra.
  - apply reference_price_requoted.
Defined.

(** C2 fails as stated: the call was calibrated when the future was quoted
    1 / 1 (moneyness 0); the future is now quoted 2 / 2 and the root-finder
    does not converge.  Whatever the collaborators are, as long as the
    tenor is positive, the recompute raises and the stored moneyness is no
    longer its prior value. *)
Lemma failed_root_find_overwrites_moneyness :
  _vol calibrated_call_attrs = Some (2 / 10)
  /\ moneyness calibrated_call_attrs = Some 0
  /\ forall E,
       0 < trading_T E (wall_clock E) 30%Z ->
       (forall g x, newton E g x = None) ->
       exists w' o',
         _update E 1%nat requoted_future_and_call = (Raise RuntimeError, w')
         /\ heap w' !! 1%nat
            = Some {| nbase := call_base; ncls := CurrencyFutureOption o' |}
         /\ moneyness o' <> moneyness calibrated_call_attrs.
Proof.
  split; [reflexivity |]. split; [reflexivity |].
  intros E HT Hn.
  assert (HK : strike calibrated_call_attrs <> 0) by (simpl; lra).
  assert (HF : (2 + 2) / 2 <> 0) by lra.
  pose proof (_update_option_fails E 1%nat requoted_future_and_call call_base
                calibrated_call_attrs 0%nat requoted_future_base
                (rated 0 0 90%Z) "call"%string ((2 + 2) / 2) 0 0 (2 / 10)
                ((2 + 2) / 2 - 1)
                eq_refl eq_refl eq_refl eq_refl eq_refl eq_refl eq_refl
                eq_refl eq_refl eq_refl eq_refl HK HF
                (reference_price_requoted E _) (Hn _ _)) as Hup.
  do 2 eexists. split; [exact Hup |]. split; [reflexivity |].
  simpl. unfold std_moneyness, t_tenor, now_of. simpl.
  intros [= H]. revert H.
  apply Rgt_not_eq. apply Rdiv_lt_0_compat.
  - replace ((2 + 2) / 2 / 1) with 2 by lra.
    pose proof ln_lt_2. lra.
  - apply Rmult_lt_0_compat; [now apply sqrt_lt_R0 | lra].
Qed.

(** ** A recompute that raises inside a mutation *)

Lemma bind_assoc {S A B C} (m : M S A) (k : A -> M S B) (h : B -> M S C) w :
  bind (bind m k) h w = bind m (fun x => bind (k x) h) w.
Proof. unfold bind. destruct (m w) as [[x|e] w']; reflexivity. Qed.

Section Cascade.

Variable E : externals.

(** A cascading mutation is its writes, the recompute of the object, and
    the loop over its derivatives. *)
Lemma mutate_cascades a m w :
  cascades m = true ->
  mutate E a m w = (writes a m ;;; _update E a ;;; alert_derivatives E a) w.
Proof.
  destruct m as [b k|[b|]|[k|]|t|[x|]|[x|]|v]; try discriminate; intros _;
    unfold mutate, quote, bid_setter, ask_setter, now_setter, rf_setter,
      qf_setter, writes, bind;
    repeat first [ reflexivity | inner_case ].
Qed.

(** What a method records: calls of the first guess and of the root-finder,
    never a call of [_update]. *)
Definition quiet {X A} (m : M (frame X) A) : Prop :=
  forall st, existsb is_update (trace (snd (m st)))
             = existsb is_update (trace st).

Lemma quiet_bind {X A B} (m : M (frame X) A) (k : A -> M (frame X) B) :
  quiet m -> (forall x, quiet (k x)) -> quiet (bind m k).
Proof.
  intros Hm Hk st. unfold bind. specialize (Hm st).
  destruct (m st) as [[x|e] st']; simpl in *.
  - now rewrite Hk.
  - exact Hm.
Qed.

Lemma quiet_ret {X A} (x : A) : quiet (@ret (frame X) A x).
Proof. intros st. reflexivity. Qed.

Lemma quiet_reference_and_solve a sb ub f v :
  quiet (reference_and_solve E a sb ub f v).
Proof.
  intros [o tr].
  unfold reference_and_solve, call_newton.
  unfold bind, read, require, assign, tell, ret, raise.
  unfold t_tenor, r_tenor. simpl.
  repeat first
    [ reflexivity
    | progress (rewrite ?existsb_app; simpl; rewrite ?orb_false_r)
    | inner_case ].
Qed.

Lemma quiet_seed_estimate a sb ub f : quiet (seed_estimate E a sb ub f).
Proof.
  intros [o tr].
  unfold seed_estimate.
  unfold bind, read, require, assign, tell, ret, raise.
  unfold t_tenor, r_tenor. simpl.
  repeat first
    [ reflexivity
    | progress (rewrite ?existsb_app; simpl; rewrite ?orb_false_r)
    | inner_case ].
Qed.

Lemma quiet__calc_implied a sb ub f :
  quiet (_calc_implied E recursion_limit a sb ub f).
Proof.
  intros st. change recursion_limit with (S (S 998)).
  rewrite _calc_implied_passes.
  destruct (_vol (self st)).
  - apply quiet_bind; [apply quiet_reference_and_solve |].
    intros; apply quiet_ret.
  - apply quiet_bind; [apply quiet_seed_estimate |]. intros seed.
    apply quiet_bind; [apply quiet_reference_and_solve |]. intros v1.
    apply quiet_bind; [apply quiet_reference_and_solve |].
    intros; apply quiet_ret.
Qed.

Lemma quiet__calc_price ub f : quiet (_calc_price E ub f).
Proof.
  intros [o tr].
  unfold _calc_price, assign_greeks.
  unfold bind, read, require, assign, tell, ret, raise.
  unfold t_tenor, r_tenor. simpl.
  repeat first [ reflexivity | inner_case ].
Qed.

Lemma quiet_CurrencyFutureOption_update a sb ub f :
  quiet (CurrencyFutureOption_update E a sb ub f).
Proof.
  unfold CurrencyFutureOption_update.
  apply quiet_bind; [intros st; reflexivity |]. intros o.
  destruct (ccr f), (ccq f), (otype o); try apply quiet_ret.
  destruct (_ && _); [| apply quiet_ret].
  apply quiet_bind; [| intros; apply quiet__calc_price].
  destruct (_manual_vol o); [apply quiet_ret | apply quiet__calc_implied].
Qed.

Lemma quiet_CurrencyFuture_update sb u : quiet (CurrencyFuture_update E sb u).
Proof.
  intros [f tr].
  unfold CurrencyFuture_update.
  unfold bind, read, require, assign, tell, ret, raise. simpl.
  repeat first [ reflexivity | inner_case ].
Qed.

Lemma run_method_log {X} a sb inj (x : X) m w :
  quiet m ->
  exists l, log (snd (run_method a sb inj x m w)) = log w ++ l
            /\ existsb is_update l = false.
Proof.
  intros Hq. unfold run_method.
  specialize (Hq {| self := x; trace := [] |}).
  destruct (m _) as [r s]. simpl in *. eauto.
Qed.

Lemma _update_log a w :
  exists l, log (snd (_update E a w)) = log w ++ EvUpdate a :: l
            /\ existsb is_update l = false.
Proof.
  assert (Hnil : exists l, log w ++ [EvUpdate a] = log w ++ EvUpdate a :: l
                           /\ existsb is_update l = false)
    by (exists []; split; reflexivity).
  assert (Hrun : forall X sb inj (x : X) m,
             quiet m ->
             exists l,
               log (snd (run_method a sb inj x m
                           {| heap := heap w; log := log w ++ [EvUpdate a] |}))
               = log w ++ EvUpdate a :: l
               /\ existsb is_update l = false).
  { intros X sb inj x m Hq.
    destruct (run_method_log a sb inj x m
                {| heap := heap w; log := log w ++ [EvUpdate a] |} Hq)
      as (l & Hl & Hu).
    exists l. split; [| exact Hu]. rewrite Hl. simpl.
    now rewrite <- app_assoc. }
  unfold _update, underlying_future, get_future, emit, get.
  unfold bind at 1 2. simpl.
  destruct (heap w !! a) as [[sb c]|] eqn:Ha; simpl; [| exact Hnil].
  destruct c as [|f|o]; simpl.
  - exact Hnil.
  - unfold bind, ret. destruct (underlying sb) as [ua|]; simpl.
    + destruct (heap w !! ua) as [un|]; simpl; [| exact Hnil].
      apply Hrun, quiet_CurrencyFuture_update.
    + apply Hrun, quiet_CurrencyFuture_update.
  - unfold bind, ret, raise. destruct (underlying sb) as [ua|]; simpl;
      [| exact Hnil].
    destruct (heap w !! ua) as [[ub [|f|o']]|]; simpl; try exact Hnil.
    apply Hrun, quiet_CurrencyFutureOption_update.
Qed.

Lemma writes_log a m w : log (snd (writes a m w)) = log w.
Proof.
  unfold writes, modify_base, modify_future, bind, get, put, ret, raise.
  destruct m as [b k|[b|]|[k|]|t|[x|]|[x|]|v]; simpl;
    repeat first [ reflexivity | inner_case ].
Qed.

(** When the recompute of the object raises, the mutation raises the same
    exception from the same state, and no other [_update] was called. *)
Lemma mutate_own_update_raises a m w w1 e w2 :
  cascades m = true ->
  writes a m w = (Ok tt, w1) ->
  _update E a w1 = (Raise e, w2) ->
  mutate E a m w = (Raise e, w2)
  /\ exists l, log w2 = log w ++ EvUpdate a :: l
               /\ existsb is_update l = false.
Proof.
  intros Hc Hw Hu. split.
  - rewrite mutate_cascades by exact Hc.
    erewrite bind_ok by exact Hw. now apply bind_raise.
  - destruct (_update_log a w1) as (l & Hl & Hq).
    rewrite Hu in Hl. simpl in Hl.
    pose proof (writes_log a m w) as Hlog. rewrite Hw in Hlog. simpl in Hlog.
    exists l. split; [| exact Hq]. now rewrite Hl, Hlog.
Qed.

End Cascade.

(** C7 (as the code has it): when a mutation (quote, bid or ask assignment,
    rate or clock change) recomputes its object and that recompute raises,
    the mutation raises the same exception and the loop over the
    derivatives is never entered: the trace holds the [_update] of the
    object and of no other, and the arena is as the failed recompute left
    it. *)
Theorem failed_recompute_ends_mutation E a m w w1 e w2 :
  cascades m = true ->
  writes a m w = (Ok tt, w1) ->
  _update E a w1 = (Raise e, w2) ->
  mutate E a m w = (Raise e, w2)
  /\ exists l, log w2 = log w ++ EvUpdate a :: l
               /\ existsb is_update l = false.
Proof. apply mutate_own_update_raises. Qed.

(** The future of [corrupted_spot_chain], once quoted 1 / 1, cannot back
    out the cost of carry: the mark of the spot is zero. *)
Lemma corrupted_spot_update E :
  exists f',
    _update E 1%nat (snd (writes 1%nat (Quote (Some 1) (Some 1))
                            corrupted_spot_chain))
    = (Raise ZeroDivisionError,
       {| heap := [ {| nbase := quoted (Some 0) (Some 0) (Some ((0 + 0) / 2))
                                  (Some (0 - 0)) None [1%nat];
                       ncls := FXSpot |};
                    {| nbase := quoted (Some 1) (Some 1) (Some ((1 + 1) / 2))
                                  (Some (1 - 1)) (Some 0%nat) [2%nat];
                       ncls := CurrencyFuture f' |};
                    {| nbase := quoted (Some (1 / 10)) None None None
                                  (Some 1%nat) [];
                       ncls := CurrencyFutureOption (call_attrs None) |} ];
          log := [EvUpdate 1%nat] |}).
Proof.
  eexists.
  unfold _update, emit, get, bind, ret, run_method, CurrencyFuture_update,
    read, assign, raise. simpl.
  destruct (Req_dec_T ((0 + 0) / 2) 0) as [_|H]; [reflexivity |].
  exfalso. apply H. lra.
Qed.


Lemma failed_recompute_ends_mutation_witness :
  exists w2,
    mutate sample_externals 1%nat (Quote (Some 1) (Some 1)) corrupted_spot_chain
    = (Raise ZeroDivisionError, w2)
    /\ exists l, log w2 = log corrupted_spot_chain ++ EvUpdate 1%nat :: l
                 /\ existsb is_update l = false.
Proof.
  destruct (corrupted_spot_update sample_externals) as (f' & H).
  eexists.
  exact (failed_recompute_ends_mutation sample_externals 1%nat
           (Quote (Some 1) (Some 1)) corrupted_spot_chain _
           ZeroDivisionError _ eq_refl eq_refl H).
Defined.

(** C7 fails as stated: the spot is quoted 0 / 0, so the future, once
    quoted, divides by the zero mark of the spot when it backs out the cost
    of carry.  Quoting the future raises ZeroDivisionError, and the call in
    its derivatives is not recomputed: the trace holds the [_update] of the
    future alone, whatever the collaborators are. *)
Lemma failed_recompute_is_not_cascaded :
  (exists n, heap corrupted_spot_chain !! 1%nat = Some n
             /\ derivatives (nbase n) = [2%nat])
  /\ forall E,
       exists w',
         mutate E 1%nat (Quote (Some 1) (Some 1)) corrupted_spot_chain
         = (Raise ZeroDivisionError, w')
         /\ log w' = [EvUpdate 1%nat]
         /\ ~ In (EvUpdate 2%nat) (log w')
         /\ heap w' !! 2%nat = heap corrupted_spot_chain !! 2%nat.
Proof.
  split; [eexists; split; reflexivity |].
  intros E. destruct (corrupted_spot_update E) as (f' & H).
  destruct (mutate_own_update_raises E 1%nat (Quote (Some 1) (Some 1))
              corrupted_spot_chain _ ZeroDivisionError _ eq_refl eq_refl H)
    as (Hm & _).
  eexists. split; [exact Hm |]. simpl. repeat split.
  intros [Hin|[]]. discriminate.
Qed.

(** ** Recomputing twice *)

(** Case analysis already made: rewrite with its equation. *)
Ltac known_case :=
  match goal with
  | H : ?x = _ |- context [match ?x with _ => _ end] => rewrite H; simpl
  end.

Section Twice.

Variable E : externals.

(** A method run on what its first run left gives the same outcome and
    leaves the same attributes. *)
Definition settles {X} (m : M (frame X) unit) (x : X) : Prop :=
  forall tr tr',
    fst (m {| self := self (snd (m {| self := x; trace := tr |}));
              trace := tr' |})
    = fst (m {| self := x; trace := tr |})
    /\ self (snd (m {| self := self (snd (m {| self := x; trace := tr |}));
                       trace := tr' |}))
       = self (snd (m {| self := x; trace := tr |})).

Lemma model_prices_idem r q T ub p :
  model_prices r q T ub (model_prices r q T ub p) = model_prices r q T ub p.
Proof.
  unfold model_prices.
  destruct (_bid ub), (_ask ub), (p_bid p), (p_ask p); reflexivity.
Qed.

Lemma CurrencyFuture_update_settles sb u f :
  settles (CurrencyFuture_update E sb u) f.
Proof.
  intros tr tr'.
  unfold CurrencyFuture_update.
  unfold bind, read, require, assign, tell, ret, raise. simpl.
  repeat first
    [ solve [ simplify_eq; unfold with_fprice, with_carry; simpl;
              rewrite ?model_prices_idem; first [ split; congruence | congruence ] ]
    | inner_case ].
Qed.

Lemma _calc_price_priced ub f st :
  _calc_price E ub f st
  = (fst (priced E ub f (self st)),
     {| self := snd (priced E ub f (self st)); trace := trace st |}).
Proof.
  destruct st as [o tr].
  unfold _calc_price, priced, assign_greeks.
  unfold bind, read, require, assign, tell, ret, raise. simpl.
  destruct (ccr f) as [r|]; simpl; [| destruct (mark ub); reflexivity].
  destruct (mark ub) as [F|]; simpl; [| reflexivity].
  destruct (Req_dec_T (strike o) 0) as [HK|HK]; simpl; [reflexivity |].
  destruct (_vol o) as [v|]; simpl; [| reflexivity].
  destruct (black76 E _ _ _ _ _ _) as [p|]; simpl;
    (destruct (is_call (otype o) || is_put (otype o)); simpl;
     [ destruct (Req_dec_T (trading_days E) 0); simpl;
       [ reflexivity | destruct (ccq f); reflexivity ]
     | reflexivity ]).
Qed.

Lemma calc_delta_idem ot D dp old :
  calc_delta E ot D dp (calc_delta E ot D dp old) = calc_delta E ot D dp old.
Proof. unfold calc_delta. destruct (is_call ot), (is_put ot); reflexivity. Qed.

Lemma calc_theta_idem ot D dp dm F v T r K old :
  calc_theta E ot D dp dm F v T r K (calc_theta E ot D dp dm F v T r K old)
  = calc_theta E ot D dp dm F v T r K old.
Proof. unfold calc_theta. destruct (is_call ot), (is_put ot); reflexivity. Qed.

Lemma calc_rho_idem ot D dm K Tr old :
  calc_rho E ot D dm K Tr (calc_rho E ot D dm K Tr old)
  = calc_rho E ot D dm K Tr old.
Proof. unfold calc_rho. destruct (is_call ot), (is_put ot); reflexivity. Qed.

Lemma calc_epsilon_idem ot dp F Tr q old :
  calc_epsilon E ot dp F Tr q (calc_epsilon E ot dp F Tr q old)
  = calc_epsilon E ot dp F Tr q old.
Proof. unfold calc_epsilon. destruct (is_call ot), (is_put ot); reflexivity. Qed.

Lemma priced_idem ub f o :
  priced E ub f (snd (priced E ub f o)) = priced E ub f o.
Proof.
  unfold priced, t_tenor, r_tenor.
  destruct (ccr f) as [r|]; [| reflexivity].
  destruct (mark ub) as [F|]; [| reflexivity].
  destruct (Req_dec_T (strike o) 0) as [HK|HK] eqn:HKe; cbn [snd];
    [now rewrite HKe |].
  destruct (_vol o) as [v|] eqn:Hv; cbn [snd]; [| now rewrite HKe, Hv].
  cbv zeta.
  set (D := exp (- r * actual360_T E (now_of E ub) (expir o))).
  set (T := trading_T E (now_of E ub) (expir o)).
  set (Tr := actual360_T E (now_of E ub) (expir o)).
  set (dp := d_plus F (strike o) v T).
  set (dm := d_minus F (strike o) v T).
  destruct (is_call (otype o) || is_put (otype o)) eqn:Hcp; cbn [andb].
  - destruct (Req_dec_T (trading_days E) 0) as [Hd|Hd] eqn:Hde;
      [| destruct (ccq f) as [q|] eqn:Hq];
      simpl; rewrite HKe, Hv, Hcp; simpl; rewrite ?Hde, ?Hq; simpl;
      fold D T Tr dp dm;
      rewrite ?calc_delta_idem, ?calc_theta_idem, ?calc_rho_idem,
        ?calc_epsilon_idem;
      destruct (black76 E (otype o) D F (strike o) dp dm); reflexivity.
  - simpl; rewrite HKe, Hv, Hcp; simpl; fold D T Tr dp dm;
      rewrite ?calc_delta_idem, ?calc_theta_idem, ?calc_rho_idem;
      destruct (black76 E (otype o) D F (strike o) dp dm); reflexivity.
Qed.

Lemma priced_keeps ub f o :
  let o' := snd (priced E ub f o) in
  otype o' = otype o /\ strike o' = strike o /\ expir o' = expir o
  /\ _vol o' = _vol o /\ _manual_vol o' = _manual_vol o
  /\ moneyness o' = moneyness o /\ probability o' = probability o.
Proof.
  unfold priced.
  destruct (ccr f) as [r|]; [| repeat split; reflexivity].
  destruct (mark ub) as [F|]; [| repeat split; reflexivity].
  destruct (Req_dec_T (strike o) 0); [repeat split; reflexivity |].
  destruct (_vol o) as [v|] eqn:Hv;
    [| simpl; repeat split; congruence].
  cbv zeta.
  destruct (is_call (otype o) || is_put (otype o)); cbn [andb];
    [ destruct (Req_dec_T (trading_days E) 0); [| destruct (ccq f)] | ];
    simpl; repeat split; congruence.
Qed.

Lemma _calc_price_settles ub f o : settles (_calc_price E ub f) o.
Proof.
  intros tr tr'. rewrite !_calc_price_priced. simpl.
  rewrite priced_idem. split; reflexivity.
Qed.

(** [CurrencyFutureOption._update] when an input of its guard is missing,
    and when the volatility is being assigned. *)
Lemma CurrencyFutureOption_update_idle a sb ub f st :
  is_number (ccr f) && is_number (ccq f)
  && (match otype (self st) with Some _ => true | None => false end)
  && (is_number (_bid sb) || is_number (_ask sb))
  && is_number (mark ub) = false ->
  CurrencyFutureOption_update E a sb ub f st = (Ok tt, st).
Proof.
  intros Hg. unfold CurrencyFutureOption_update, bind, read.
  destruct (ccr f), (ccq f), (otype (self st)); try reflexivity.
  simpl in Hg. rewrite Hg. reflexivity.
Qed.

Lemma CurrencyFutureOption_update_manual a sb ub f st :
  is_number (ccr f) && is_number (ccq f)
  && (match otype (self st) with Some _ => true | None => false end)
  && (is_number (_bid sb) || is_number (_ask sb))
  && is_number (mark ub) = true ->
  _manual_vol (self st) = true ->
  CurrencyFutureOption_update E a sb ub f st = _calc_price E ub f st.
Proof.
  intros Hg Hm. unfold CurrencyFutureOption_update, bind at 1, read.
  destruct (ccr f), (ccq f), (otype (self st)); try discriminate.
  simpl in Hg. rewrite Hg, Hm.
  now erewrite bind_ok by reflexivity.
Qed.

(** An option that does not calibrate: its recompute settles. *)
Lemma CurrencyFutureOption_update_settles a sb ub f o :
  is_number (ccr f) && is_number (ccq f)
  && (match otype o with Some _ => true | None => false end)
  && (is_number (_bid sb) || is_number (_ask sb))
  && is_number (mark ub) && negb (_manual_vol o) = false ->
  settles (CurrencyFutureOption_update E a sb ub f) o.
Proof.
  intros Hg tr tr'.
  destruct (is_number (ccr f) && is_number (ccq f)
            && (match otype o with Some _ => true | None => false end)
            && (is_number (_bid sb) || is_number (_ask sb))
            && is_number (mark ub)) eqn:Hin.
  - destruct (_manual_vol o) eqn:Hman; [| discriminate].
    rewrite (CurrencyFutureOption_update_manual a sb ub f
               {| self := o; trace := tr |}) by assumption.
    rewrite _calc_price_priced. cbn [self snd fst].
    pose proof (priced_keeps ub f o) as (Hk1 & _ & _ & _ & Hk5 & _).
    cbv zeta in Hk1, Hk5.
    rewrite CurrencyFutureOption_update_manual;
      cbn [self]; rewrite ?Hk1, ?Hk5; try assumption.
    rewrite _calc_price_priced. cbn [self snd fst]. rewrite priced_idem.
    split; reflexivity.
  - rewrite (CurrencyFutureOption_update_idle a sb ub f
               {| self := o; trace := tr |}) by assumption.
    cbn [self snd fst].
    rewrite CurrencyFutureOption_update_idle by assumption.
    split; reflexivity.
Qed.

(** [_update] reads the arena, not the trace. *)
Lemma _update_heap_only a w w' :
  heap w = heap w' ->
  fst (_update E a w) = fst (_update E a w')
  /\ heap (snd (_update E a w)) = heap (snd (_update E a w')).
Proof.
  destruct w as [h lg], w' as [h' lg']. simpl. intros <-.
  unfold _update, underlying_future, get_future, emit, get, run_method.
  unfold bind, ret, raise. simpl.
  repeat first [ solve [ split; reflexivity ] | inner_case ].
Qed.

Lemma run_method_twice {X} a sb inj (x : X) m h lg lg' :
  settles m x ->
  let r1 := run_method a sb inj x m {| heap := h; log := lg |} in
  let x1 := self (snd (m {| self := x; trace := [] |})) in
  let r2 := run_method a sb inj x1 m {| heap := heap (snd r1); log := lg' |} in
  fst r2 = fst r1 /\ heap (snd r2) = heap (snd r1).
Proof.
  intros Hs. specialize (Hs [] []). unfold run_method. simpl.
  destruct (m {| self := x; trace := [] |}) as [r1 s1]. simpl in *.
  destruct (m {| self := self s1; trace := [] |}) as [r2 s2]. simpl in *.
  destruct Hs as [-> ->]. split; [reflexivity |].
  apply list_insert_insert_eq.
Qed.

(** The recompute of an object that does not calibrate: a second one
    changes nothing and ends as the first did. *)
Lemma _update_twice a w :
  calibrates w a = false ->
  fst (_update E a (snd (_update E a w))) = fst (_update E a w)
  /\ heap (snd (_update E a (snd (_update E a w)))) = heap (snd (_update E a w)).
Proof.
  intros Hc. unfold calibrates in Hc.
  assert (Hsame : heap (snd (_update E a w)) = heap w ->
                  fst (_update E a (snd (_update E a w))) = fst (_update E a w)
                  /\ heap (snd (_update E a (snd (_update E a w))))
                     = heap (snd (_update E a w))).
  { intros H. destruct (_update_heap_only a (snd (_update E a w)) w H)
      as [H1 H2]. rewrite H1, H2. split; [reflexivity | now rewrite H]. }
  destruct (heap w !! a) as [[sb [|f|o]]|] eqn:Ha.
  - apply Hsame. now rewrite (_update_spot E a w sb Ha).
  - destruct (underlying sb) as [ua|] eqn:Hu.
    + destruct (heap w !! ua) as [un|] eqn:Hua.
      * rewrite (_update_future E a w sb f ua un Ha Hu Hua).
        set (w0 := {| heap := heap w; log := log w ++ [EvUpdate a] |}).
        set (m := CurrencyFuture_update E sb (Some (nbase un))).
        set (f1 := self (snd (m {| self := f; trace := [] |}))).
        assert (H1 : heap (snd (run_method a sb CurrencyFuture f m w0))
                     = <[a := {| nbase := sb; ncls := CurrencyFuture f1 |}]> (heap w)).
        { unfold run_method, f1. destruct (m _). reflexivity. }
        assert (H1a : heap (snd (run_method a sb CurrencyFuture f m w0)) !! a
                      = Some {| nbase := sb; ncls := CurrencyFuture f1 |}).
        { rewrite H1. eapply lookup_insert_same. exact Ha. }
        assert (H1u : exists un', heap (snd (run_method a sb CurrencyFuture f m w0)) !! ua
                                  = Some un' /\ nbase un' = nbase un).
        { rewrite H1. destruct (decide (a = ua)) as [<-|Hne].
          - eexists. split; [eapply lookup_insert_same; exact Ha |].
            rewrite Ha in Hua. now injection Hua as <-.
          - exists un. split; [| reflexivity].
            now rewrite list_lookup_insert_ne. }
        destruct H1u as (un' & H1u & Hb).
        rewrite (_update_future E a _ sb f1 ua un' H1a Hu H1u). rewrite Hb.
        fold m.
        apply (run_method_twice a sb CurrencyFuture f m (heap w)).
        apply CurrencyFuture_update_settles.
      * apply Hsame. unfold _update, emit, get, bind, ret. simpl.
        rewrite Ha. simpl. rewrite Hu. simpl. rewrite Hua. reflexivity.
    + rewrite (_update_future_orphan E a w sb f Ha Hu).
      set (w0 := {| heap := heap w; log := log w ++ [EvUpdate a] |}).
      set (m := CurrencyFuture_update E sb None).
      set (f1 := self (snd (m {| self := f; trace := [] |}))).
      assert (H1 : heap (snd (run_method a sb CurrencyFuture f m w0))
                   = <[a := {| nbase := sb; ncls := CurrencyFuture f1 |}]> (heap w)).
      { unfold run_method, f1. destruct (m _). reflexivity. }
      assert (H1a : heap (snd (run_method a sb CurrencyFuture f m w0)) !! a
                    = Some {| nbase := sb; ncls := CurrencyFuture f1 |}).
      { rewrite H1. eapply lookup_insert_same. exact Ha. }
      rewrite (_update_future_orphan E a _ sb f1 H1a Hu). fold m.
      apply (run_method_twice a sb CurrencyFuture f m (heap w)).
      apply CurrencyFuture_update_settles.
  - destruct (underlying sb) as [ua|] eqn:Hu.
    2:{ apply Hsame. unfold _update, underlying_future, emit, get, bind, raise.
        simpl. rewrite Ha. simpl. rewrite Hu. reflexivity. }
    destruct (heap w !! ua) as [[ub [|f|o']]|] eqn:Hua.
    2:{ rewrite (_update_option E a w sb o ua ub f Ha Hu Hua).
        set (w0 := {| heap := heap w; log := log w ++ [EvUpdate a] |}).
        set (m := CurrencyFutureOption_update E a sb ub f).
        set (o1 := self (snd (m {| self := o; trace := [] |}))).
        assert (Hne : a <> ua) by (intros ->; rewrite Ha in Hua; discriminate).
        assert (H1 : heap (snd (run_method a sb CurrencyFutureOption o m w0))
                     = <[a := {| nbase := sb; ncls := CurrencyFutureOption o1 |}]> (heap w)).
        { unfold run_method, o1. destruct (m _). reflexivity. }
        assert (H1a : heap (snd (run_method a sb CurrencyFutureOption o m w0)) !! a
                      = Some {| nbase := sb; ncls := CurrencyFutureOption o1 |}).
        { rewrite H1. eapply lookup_insert_same. exact Ha. }
        assert (H1u : heap (snd (run_method a sb CurrencyFutureOption o m w0)) !! ua
                      = Some {| nbase := ub; ncls := CurrencyFuture f |}).
        { rewrite H1. now rewrite list_lookup_insert_ne. }
        rewrite (_update_option E a _ sb o1 ua ub f H1a Hu H1u). fold m.
        apply (run_method_twice a sb CurrencyFutureOption o m (heap w)).
        apply CurrencyFutureOption_update_settles. exact Hc. }
    all: apply Hsame;
      unfold _update, underlying_future, get_future, emit, get, bind, raise;
      simpl; rewrite Ha; simpl; rewrite Hu; simpl; rewrite Hua; reflexivity.
  - apply Hsame. unfold _update, emit, get, bind. simpl. now rewrite Ha.
Qed.

(** One pass from [v] on a call or a put when the root-finder returns
    [v']. *)
Lemma reference_and_solve_ok a sb ub f v st F r rp v' :
  mark ub = Some F -> ccr f = Some r ->
  is_call (otype (self st)) || is_put (otype (self st)) = true ->
  strike (self st) <> 0 -> F <> 0 ->
  let m := std_moneyness (otype (self st)) F (strike (self st))
             (t_tenor E ub (self st)) v in
  reference_price E sb (otype (self st)) F (strike (self st)) m = Some rp ->
  newton E (objective E rp (otype (self st)) r (r_tenor E ub (self st))
              (t_tenor E ub (self st)) F (strike (self st))) v = Some v' ->
  reference_and_solve E a sb ub f v st
  = (Ok v',
     {| self := with_vol (Some v')
                  (with_probability (Some (norm_cdf E m))
                     (with_moneyness (Some m) (self st)));
        trace := trace st ++ [EvNewton a v rp] |}).
Proof.
  intros HF Hr Hot HK HF0 m Hrp Hn. destruct st as [o tr]. simpl in *.
  unfold reference_price in Hrp.
  destruct (new_temp_mark _ _ _ _) as [ntm|] eqn:Hntm; [| discriminate].
  injection Hrp as <-.
  unfold reference_and_solve, call_newton.
  unfold bind, read, require, assign, tell, ret, raise.
  simpl. rewrite HF, Hr. simpl.
  subst m. unfold std_moneyness in *. unfold t_tenor, r_tenor in *.
  destruct (is_call (otype o)) eqn:Hc; simpl in *.
  - destruct (Req_dec_T (strike o) 0) as [|_]; [contradiction |]. simpl.
    rewrite Hntm. simpl.
    destruct (Req_dec_T (strike o) 0) as [|_]; [contradiction |].
    rewrite ?Hc. simpl. rewrite Hn. reflexivity.
  - rewrite Hot.
    destruct (Req_dec_T F 0) as [|_]; [contradiction |]. simpl.
    rewrite Hntm. simpl.
    destruct (Req_dec_T (strike o) 0) as [|_]; [contradiction |].
    rewrite ?Hc, ?Hot. simpl. rewrite Hn. reflexivity.
Qed.

(** The recompute of an option with a stored volatility [v], all inputs
    present, when the root-finder returns [v']: [v'] is stored, whether or
    not pricing then raises. *)
Lemma _update_option_recalibrated a w sb o ua ub f ot F r q v rp v' :
  heap w !! a = Some {| nbase := sb; ncls := CurrencyFutureOption o |} ->
  underlying sb = Some ua ->
  heap w !! ua = Some {| nbase := ub; ncls := CurrencyFuture f |} ->
  ccr f = Some r -> ccq f = Some q -> otype o = Some ot ->
  is_call (otype o) || is_put (otype o) = true ->
  is_number (_bid sb) || is_number (_ask sb) = true ->
  mark ub = Some F ->
  _manual_vol o = false -> _vol o = Some v ->
  strike o <> 0 -> F <> 0 ->
  reference_price E sb (otype o) F (strike o)
    (std_moneyness (otype o) F (strike o) (t_tenor E ub o) v) = Some rp ->
  newton E (objective E rp (otype o) r (r_tenor E ub o) (t_tenor E ub o) F
              (strike o)) v = Some v' ->
  exists res o' lg,
    _update E a w
    = (res, {| heap := <[a := {| nbase := sb; ncls := CurrencyFutureOption o' |}]>
                         (heap w);
               log := lg |})
    /\ _vol o' = Some v' /\ otype o' = otype o /\ strike o' = strike o
    /\ expir o' = expir o /\ _manual_vol o' = false.
Proof.
  intros Ha Hu Hua Hr Hq Hot Hcp Hba HF Hman Hv HK HF0 Hrp Hn.
  rewrite (_update_option E a w sb o ua ub f Ha Hu Hua).
  unfold run_method, CurrencyFutureOption_update.
  erewrite bind_ok by reflexivity. cbn [self].
  rewrite Hr, Hq, Hot, Hba, HF, Hman. cbn [is_number andb].
  rewrite <- Hot.
  erewrite bind_ok.
  2:{ change recursion_limit with (S (S 998)).
      rewrite _calc_implied_passes. cbn [self]. rewrite Hv.
      unfold single_pass. erewrite bind_ok; [reflexivity |].
      exact (reference_and_solve_ok a sb ub f v {| self := o; trace := [] |}
               F r rp v' HF Hr Hcp HK HF0 Hrp Hn). }
  rewrite _calc_price_priced. cbn [self trace].
  match goal with
  | |- context [priced E ub f ?o2] =>
      pose proof (priced_keeps ub f o2) as (K1 & K2 & K3 & K4 & K5 & _)
  end.
  cbv zeta in K1, K2, K3, K4, K5.
  do 3 eexists. split; [reflexivity |].
  rewrite K1, K2, K3, K4, K5. simpl. now rewrite Hman.
Qed.

End Twice.

Lemma reference_price_quoted E m :
  reference_price E call_base (Some "call"%string) ((1 + 1) / 2) 1 m
  = Some (1 / 10).
Proof.
  unfold reference_price, real_price. simpl.
  destruct (Rgt_dec ((1 + 1) / 2 - 1) (1 / 10)) as [H|_]; [| reflexivity].
  exfalso. lra.
Qed.

Lemma one_step_objective rp r Tr T x :
  objective one_step_externals rp (Some "call"%string) r Tr T ((1 + 1) / 2) 1 x
  = - rp.
Proof.
  unfold objective, _newton_implied, black76. simpl.
  replace ((1 + 1) / 2 * (1 / 2) - 1 * (1 / 2)) with 0 by lra.
  ring.
Qed.

(** ** Calibrating to a Black-76 price *)

Section RoundTrip.

Variable E : externals.

Lemma call_is_not_put ot : is_call ot = true -> is_put ot = false.
Proof.
  destruct ot as [s|]; simpl; [| reflexivity].
  intros H. apply String.eqb_eq in H. now subst s.
Qed.

Lemma weights_sum m p : bid_adj m p + ask_adj m p = 1.
Proof. unfold bid_adj, ask_adj. destruct (Rge_dec m 0); lra. Qed.

(** Bid and ask both [p], not below the intrinsic value: the re-referenced
    price is [p], whatever the weights. *)
Lemma reference_price_both sb ot F K m p :
  _bid sb = Some p -> _ask sb = Some p ->
  intrinsic ot F K <= p ->
  reference_price E sb ot F K m = Some p.
Proof.
  intros Hb Ha Hi. unfold reference_price. rewrite Hb, Ha. simpl. f_equal.
  set (x := norm_cdf E m).
  replace (p * bid_adj m x + p * ask_adj m x) with p
    by (rewrite <- Rmult_plus_distr_l, weights_sum; ring).
  unfold real_price, intrinsic in *.
  destruct (is_call ot) eqn:Hc; simpl.
  - destruct (Rgt_dec (F - K) p); [lra | ].
    now rewrite (call_is_not_put ot Hc).
  - destruct (is_put ot); simpl; [| reflexivity].
    destruct (Rgt_dec (K - F) p); [lra | reflexivity].
Qed.

Lemma seed_estimate_ok a sb ub f st F r tm :
  mark ub = Some F -> ccr f = Some r ->
  temp_mark (_bid sb) (_ask sb) = Some tm ->
  exists seed tp,
    seed_estimate E a sb ub f st
    = (Ok seed, {| self := with_vol (Some seed) (self st);
                   trace := trace st ++ [EvCorradoMiller a tp] |}).
Proof.
  intros HF Hr Htm. unfold seed_estimate.
  unfold bind, read, require, assign, tell, ret. rewrite HF, Hr, Htm.
  do 2 eexists. reflexivity.
Qed.

(** When the function is a call's or a put's, the objective is the
    Black-76 price less the price to match. *)
Lemma objective_black76 ub o r F p v :
  is_call (otype o) || is_put (otype o) = true ->
  exists price,
    black76_at E ub o r F v = Some price
    /\ objective E p (otype o) r (r_tenor E ub o) (t_tenor E ub o) F
         (strike o) v = price - p.
Proof.
  intros Hcp. unfold objective, _newton_implied, black76_at, black76.
  destruct (is_call (otype o)); simpl in *.
  - eexists. split; reflexivity.
  - rewrite Hcp. eexists. split; reflexivity.
Qed.

End RoundTrip.

Section BelowIntrinsic.

Variable E : externals.

(** The first pass of a calibration from no stored volatility, when the
    root-finder fails whatever its first guess. *)
Lemma _update_first_pass_fails a w sb o ua ub f ot F r q tm rp :
  heap w !! a = Some {| nbase := sb; ncls := CurrencyFutureOption o |} ->
  underlying sb = Some ua ->
  heap w !! ua = Some {| nbase := ub; ncls := CurrencyFuture f |} ->
  ccr f = Some r -> ccq f = Some q -> otype o = Some ot ->
  is_call (otype o) || is_put (otype o) = true ->
  is_number (_bid sb) || is_number (_ask sb) = true ->
  mark ub = Some F -> strike o <> 0 -> F <> 0 ->
  _manual_vol o = false -> _vol o = None ->
  temp_mark (_bid sb) (_ask sb) = Some tm ->
  (forall m, reference_price E sb (otype o) F (strike o) m = Some rp) ->
  (forall x0, newton E (objective E rp (otype o) r (r_tenor E ub o)
                          (t_tenor E ub o) F (strike o)) x0 = None) ->
  exists w', _update E a w = (Raise RuntimeError, w').
Proof.
  intros Ha Hu Hua Hr Hq Hot Hcp Hba HF HK HF0 Hman Hv Htm Hrp Hn.
  assert (Hci : exists st',
             _calc_implied E recursion_limit a sb ub f
               {| self := o; trace := [] |} = (Raise RuntimeError, st')).
  { change recursion_limit with (S (S 998)).
    rewrite _calc_implied_passes. cbn [self]. rewrite Hv.
    destruct (seed_estimate_ok E a sb ub f {| self := o; trace := [] |} F r tm
                HF Hr Htm) as (seed & tp & Hseed).
    unfold two_stage_calibration. erewrite bind_ok by exact Hseed.
    eexists. apply bind_raise.
    eapply (reference_and_solve_fails E a sb ub f seed _ F r rp);
      cbn [self]; try assumption.
    - apply Hrp.
    - apply Hn. }
  destruct Hci as (st' & Hci).
  rewrite (_update_option E a w sb o ua ub f Ha Hu Hua).
  unfold run_method, CurrencyFutureOption_update.
  erewrite bind_ok by reflexivity. cbn [self].
  rewrite Hr, Hq, Hot, Hba, HF, Hman. cbn [is_number andb].
  erewrite bind_raise by exact Hci. eexists. reflexivity.
Qed.

Hypothesis cdf_range : forall x, 0 <= norm_cdf E x <= 1.
Hypothesis a_year : 1 <= actual360_T E (wall_clock E) 360%Z.

(** No volatility prices the deep call above 96: the discounted forward is
    below that. *)
Lemma deep_price_bound v price :
  black76_at E deep_future_base deep_call_attrs (5 / 100) ((100 + 100) / 2) v
  = Some price ->
  price <= 96.
Proof.
  unfold black76_at, black76, r_tenor, t_tenor, now_of. simpl.
  intros [= <-].
  set (T := actual360_T E (wall_clock E) 360%Z) in *.
  set (n1 := norm_cdf E _). set (n2 := norm_cdf E _).
  assert (H1 : 0 <= n1 <= 1) by apply cdf_range.
  assert (H2 : 0 <= n2 <= 1) by apply cdf_range.
  assert (HD : 0 < exp (- (5 / 100) * T) <= 20 / 21).
  { split; [apply exp_pos |].
    replace (- (5 / 100) * T) with (- (5 / 100 * T)) by ring.
    rewrite exp_Ropp.
    assert (Hx : 1 + 5 / 100 <= exp (5 / 100 * T)).
    { pose proof (exp_ineq1_le (5 / 100 * T)). lra. }
    apply Rle_trans with (/ (1 + 5 / 100)); [| lra].
    apply Rinv_le_contravar; lra. }
  set (D := exp (- (5 / 100) * T)) in *.
  assert (H3 : (100 + 100) / 2 * n1 - 1 * n2 <= 100) by lra.
  assert (H4 : D * ((100 + 100) / 2 * n1 - 1 * n2) <= D * 100)
    by (apply Rmult_le_compat_l; lra).
  lra.
Qed.

(** Quoted at or below 96 on both sides, the deep call is re-referenced at
    its intrinsic value, 99. *)
Lemma reference_price_floored p m :
  p <= 96 ->
  reference_price E (deep_call_base p) (Some "call"%string)
    ((100 + 100) / 2) 1 m
  = Some ((100 + 100) / 2 - 1).
Proof.
  intros Hp. unfold reference_price. simpl.
  set (x := norm_cdf E m).
  replace (p * bid_adj m x + p * ask_adj m x) with p
    by (rewrite <- Rmult_plus_distr_l, weights_sum; ring).
  unfold real_price. simpl.
  destruct (Rgt_dec ((100 + 100) / 2 - 1) p) as [_|H]; [reflexivity |].
  exfalso. apply H. lra.
Qed.

Hypothesis newton_close :
  forall g x0 v, newton E g x0 = Some v -> Rabs (g v) <= 1.

(** No volatility brings the price of the deep call within 1 of 99, so the
    root-finder cannot return. *)
Lemma deep_newton_fails x0 :
  newton E (objective E ((100 + 100) / 2 - 1) (otype deep_call_attrs)
              (5 / 100) (r_tenor E deep_future_base deep_call_attrs)
              (t_tenor E deep_future_base deep_call_attrs)
              ((100 + 100) / 2) (strike deep_call_attrs)) x0 = None.
Proof.
  destruct (newton E _ x0) as [v|] eqn:Hn; [| reflexivity].
  exfalso. apply newton_close in Hn. revert Hn.
  destruct (objective_black76 E deep_future_base deep_call_attrs (5 / 100)
              ((100 + 100) / 2) ((100 + 100) / 2 - 1) v eq_refl)
    as (price & Hp & ->).
  apply deep_price_bound in Hp.
  intros H. pose proof (Rle_abs (- (price - ((100 + 100) / 2 - 1)))) as H'.
  rewrite Rabs_Ropp in H'. lra.
Qed.

Lemma deep_call_does_not_calibrate sigma p :
  black76_at E deep_future_base deep_call_attrs (5 / 100) ((100 + 100) / 2)
    sigma = Some p ->
  p < intrinsic (otype deep_call_attrs) ((100 + 100) / 2)
        (strike deep_call_attrs)
  /\ exists w', _update E 1%nat (deep_call p) = (Raise RuntimeError, w').
Proof.
  intros Hp. apply deep_price_bound in Hp.
  split; [unfold intrinsic; simpl; lra |].
  assert (HK : strike deep_call_attrs <> 0) by (simpl; lra).
  assert (HF : (100 + 100) / 2 <> 0) by lra.
  eapply (_update_first_pass_fails 1%nat (deep_call p) (deep_call_base p)
            deep_call_attrs 0%nat deep_future_base (rated (5 / 100) 0 360%Z)
            "call"%string ((100 + 100) / 2) (5 / 100) 0
            (p * (5 / 10) + p * (5 / 10)) ((100 + 100) / 2 - 1));
    try reflexivity; try assumption.
  - intros m. now apply reference_price_floored.
  - apply deep_newton_fails.
Qed.

End BelowIntrinsic.

(** C1 fails as stated: a call struck at 1 on a forward of 100, a year from
    expiry at a domestic rate of 5%, bid and asked the Black-76 price [p] of
    any volatility [sigma].  The discounted price is below the intrinsic
    value 99, so the price to match is floored at 99, which no volatility
    reaches: with any distribution function with values in [0, 1] and any
    root-finder whose results leave the objective within 1 of zero, the
    calibration does not converge and the recompute raises. *)
Lemma roundtrip_fails_below_intrinsic :
  (0 < (100 + 100) / 2 /\ 0 < strike deep_call_attrs)
  /\ forall E sigma p,
       (forall x, 0 <= norm_cdf E x <= 1) ->
       1 <= actual360_T E (wall_clock E) 360%Z ->
       (forall g x0 v, newton E g x0 = Some v -> Rabs (g v) <= 1) ->
       black76_at E deep_future_base deep_call_attrs (5 / 100)
         ((100 + 100) / 2) sigma = Some p ->
       p < intrinsic (otype deep_call_attrs) ((100 + 100) / 2)
             (strike deep_call_attrs)
       /\ exists w', _update E 1%nat (deep_call p) = (Raise RuntimeError, w').
Proof.
  split; [simpl; lra |].
  intros E sigma p Hcdf Hyear Hnewton.
  exact (deep_call_does_not_calibrate E Hcdf Hyear Hnewton sigma p).
Qed.


(** ** What a computation can touch *)

Lemma closed_links P h h' :
  links <$> h' = links <$> h -> closed P h -> closed P h'.
Proof.
  intros Hl Hc i n' Hp Hi.
  assert (Hli : links <$> h' !! i = links <$> h !! i)
    by (rewrite <- !list_lookup_fmap; now rewrite Hl).
  rewrite Hi in Hli. simpl in Hli.
  destruct (h !! i) as [n|] eqn:Hn; [| discriminate].
  simpl in Hli. injection Hli as Hu Hd.
  destruct (Hc i n Hp Hn) as [H1 H2].
  unfold links in *. split.
  - intros u Hu'. apply H1. congruence.
  - intros d Hd'. apply H2. congruence.
Qed.

Lemma closed_reachable P h x y :
  closed P h -> P x -> reachable h x y -> P y.
Proof.
  intros Hc Hx Hr. induction Hr as [|x y n z _ IH Hy Hu|x y n z _ IH Hy Hd].
  - exact Hx.
  - exact (proj1 (Hc y n (IH Hx) Hy) z Hu).
  - exact (proj2 (Hc y n (IH Hx) Hy) z Hd).
Qed.

(** A computation is confined to [P] when, from an arena that [P] is
    closed in, it changes no reference and no object outside [P]. *)
Definition confined (P : addr -> Prop) {A} (m : M world A) : Prop :=
  forall w, closed P (heap w) ->
    links <$> heap (snd (m w)) = links <$> heap w
    /\ forall b, ~ P b -> heap (snd (m w)) !! b = heap w !! b.

Lemma confined_ret P {A} (x : A) : confined P (ret x).
Proof. intros w _. split; [reflexivity | intros; reflexivity]. Qed.

Lemma confined_raise P {A} e : confined P (@raise world A e).
Proof. intros w _. split; [reflexivity | intros; reflexivity]. Qed.

Lemma confined_get P a : confined P (get a).
Proof.
  intros w _. unfold get. destruct (heap w !! a); split; intros; reflexivity.
Qed.

Lemma confined_emit P ev : confined P (emit ev).
Proof. intros w _. split; intros; reflexivity. Qed.

Lemma confined_bind P {A B} (m : M world A) (k : A -> M world B) :
  confined P m -> (forall x, confined P (k x)) -> confined P (bind m k).
Proof.
  intros Hm Hk w Hc. unfold bind. destruct (Hm w Hc) as [Hl Hf].
  destruct (m w) as [[x|e] w1]; simpl in *; [| now split].
  destruct (Hk x w1 (closed_links P _ _ Hl Hc)) as [Hl' Hf'].
  split; [congruence |]. intros b Hb. rewrite Hf' by exact Hb. now apply Hf.
Qed.

Lemma confined_for_each P {A} (f : A -> M world unit) l :
  (forall x, In x l -> confined P (f x)) -> confined P (for_each f l).
Proof.
  induction l as [|x l IH]; intros H; simpl.
  - apply confined_ret.
  - apply confined_bind; [apply H; now left |].
    intros _. apply IH. intros y Hy. apply H. now right.
Qed.

(** Writing at [a] an object with the references of the one it replaces. *)
Lemma insert_links (h : list node) a n n' :
  h !! a = Some n -> links n' = links n ->
  links <$> <[a := n']> h = links <$> h.
Proof.
  intros Ha Hl.
  rewrite list_fmap_insert, Hl. apply list_insert_id.
  now rewrite list_lookup_fmap, Ha.
Qed.

Lemma confined_modify_base (P : addr -> Prop) a g :
  P a ->
  (forall b, underlying (g b) = underlying b
             /\ derivatives (g b) = derivatives b) ->
  confined P (modify_base a g).
Proof.
  intros Hp Hg w _. unfold modify_base, bind, get, put.
  destruct (heap w !! a) as [n|] eqn:Ha; simpl;
    [| split; intros; reflexivity].
  split.
  - eapply insert_links; [exact Ha |]. unfold links. simpl.
    destruct (Hg (nbase n)) as [-> ->]. reflexivity.
  - intros b Hb. apply list_lookup_insert_ne. intros ->. contradiction.
Qed.

Lemma confined_modify_future (P : addr -> Prop) a g :
  P a -> confined P (modify_future a g).
Proof.
  intros Hp w _. unfold modify_future, bind, get, put, raise.
  destruct (heap w !! a) as [[sb [|f|o]]|] eqn:Ha; simpl;
    try (split; intros; reflexivity).
  split.
  - eapply insert_links; [exact Ha | reflexivity].
  - intros b Hb. apply list_lookup_insert_ne. intros ->. contradiction.
Qed.

Lemma confined_modify_option (P : addr -> Prop) a g :
  P a -> confined P (modify_option a g).
Proof.
  intros Hp w _. unfold modify_option, bind, get, put, raise.
  destruct (heap w !! a) as [[sb [|f|o]]|] eqn:Ha; simpl;
    try (split; intros; reflexivity).
  split.
  - eapply insert_links; [exact Ha | reflexivity].
  - intros b Hb. apply list_lookup_insert_ne. intros ->. contradiction.
Qed.

Section Confinement.

Variable E : externals.
Variable P : addr -> Prop.

Lemma confined_update a : P a -> confined P (_update E a).
Proof.
  intros Hp w _.
  assert (Hw : forall (n n' : node),
             heap w !! a = Some n -> links n' = links n ->
             links <$> <[a := n']> (heap w) = links <$> heap w
             /\ forall b, ~ P b -> <[a := n']> (heap w) !! b = heap w !! b).
  { intros n n' Ha Hl. split; [now apply (insert_links _ _ n) |].
    intros b Hb. apply list_lookup_insert_ne. intros ->. contradiction. }
  unfold _update, underlying_future, get_future, emit, get, run_method.
  unfold bind, ret, raise. simpl.
  destruct (heap w !! a) as [[sb [|f|o]]|] eqn:Ha; simpl;
    try (split; intros; reflexivity).
  - destruct (underlying sb) as [ua|]; simpl.
    + destruct (heap w !! ua) as [un|]; simpl;
        [| split; intros; reflexivity].
      destruct (CurrencyFuture_update E sb _ _) as [r s]. simpl.
      now apply (Hw _ _ eq_refl).
    + destruct (CurrencyFuture_update E sb _ _) as [r s]. simpl.
      now apply (Hw _ _ eq_refl).
  - destruct (underlying sb) as [ua|]; simpl;
      [| split; intros; reflexivity].
    destruct (heap w !! ua) as [[ub [|f|o']]|]; simpl;
      try (split; intros; reflexivity).
    destruct (CurrencyFutureOption_update E a sb ub f _) as [r s]. simpl.
    now apply (Hw _ _ eq_refl).
Qed.

Lemma confined_alert a : P a -> confined P (alert_derivatives E a).
Proof.
  intros Hp w Hc. unfold alert_derivatives, bind, get.
  destruct (heap w !! a) as [n|] eqn:Ha; simpl;
    [| split; intros; reflexivity].
  apply confined_for_each; [| exact Hc].
  intros d Hd. apply confined_update.
  exact (proj2 (Hc a n Hp Ha) d Hd).
Qed.

Ltac confine Hp :=
  repeat first
    [ apply confined_ret
    | apply confined_raise
    | apply confined_get
    | apply confined_emit
    | apply confined_update; exact Hp
    | apply confined_alert; exact Hp
    | apply confined_modify_base; [exact Hp | intros; split; reflexivity]
    | apply confined_modify_future; exact Hp
    | apply confined_modify_option; exact Hp
    | apply confined_bind; [| intros ?]
    | match goal with
      | |- confined _ (match ?x with _ => _ end) => destruct x
      end ].

(** A mutation of an object of [P] is confined to [P]. *)
Lemma confined_mutate a m : P a -> confined P (mutate E a m).
Proof.
  intros Hp.
  destruct m as [b k|b|k|t|x|x|v];
    unfold mutate, quote, bid_setter, ask_setter, now_setter, rf_setter,
      qf_setter, vol_setter;
    confine Hp.
Qed.

(** So is a sequence of mutations of objects of [P]. *)
Lemma run_mutations_confined ms w :
  closed P (heap w) ->
  Forall (fun am => P (fst am)) ms ->
  links <$> heap (run_mutations E ms w) = links <$> heap w
  /\ forall b, ~ P b -> heap (run_mutations E ms w) !! b = heap w !! b.
Proof.
  revert w. induction ms as [|[a m] ms IH]; intros w Hc Hall; simpl.
  - split; intros; reflexivity.
  - inversion Hall as [|? ? Ha Hms]; subst. simpl in Ha.
    destruct (confined_mutate a m Ha w Hc) as [Hl Hf].
    destruct (IH _ (closed_links P _ _ Hl Hc) Hms) as [Hl' Hf'].
    unfold run_mutations in *. simpl. split; [congruence |].
    intros b Hb. rewrite Hf' by exact Hb. now apply Hf.
Qed.

End Confinement.

(** ** The snapshot *)

Section Snapshot.

Variable w : world.

Let k := length (heap w).
Let h0 := heap w ++ map (relocate k) (heap w).

(** The arenas that the flagging of copies goes through: the original
    objects as they were, behind them their copies up to the flag. *)
Definition copied (h : list node) : Prop :=
  length h = (k + k)%nat
  /\ (forall i, (i < k)%nat -> h !! i = heap w !! i)
  /\ (forall i n, heap w !! i = Some n ->
        exists b, h !! (k + i)%nat
                  = Some {| nbase := with_isSnapshot b (nbase (relocate k n));
                            ncls := ncls n |}).

Lemma with_isSnapshot_same b : with_isSnapshot (isSnapshot b) b = b.
Proof. now destruct b. Qed.

Lemma copied_deepcopy : copied h0.
Proof.
  unfold copied, h0. split; [| split].
  - rewrite length_app, length_map. reflexivity.
  - intros i Hi. now apply lookup_app_l.
  - intros i n Hn. exists (isSnapshot (nbase (relocate k n))).
    rewrite with_isSnapshot_same.
    rewrite lookup_app_r by (unfold k; lia).
    replace (k + i - length (heap w))%nat with i by (unfold k; lia).
    change (map (relocate k) (heap w)) with (relocate k <$> heap w).
    rewrite list_lookup_fmap, Hn. now destruct n.
Qed.

Lemma copied_flag w1 i :
  copied (heap w1) -> (i < k)%nat ->
  exists w2, modify_base (k + i)%nat (with_isSnapshot true) w1 = (Ok tt, w2)
             /\ copied (heap w2) /\ log w2 = log w1
             /\ (exists n, heap w2 !! (k + i)%nat = Some n
                           /\ isSnapshot (nbase n) = true)
             /\ (forall j n, heap w1 !! j = Some n ->
                   isSnapshot (nbase n) = true ->
                   exists n', heap w2 !! j = Some n'
                              /\ isSnapshot (nbase n') = true).
Proof.
  intros (Hlen & Hlo & Hhi) Hi.
  destruct (heap w !! i) as [n|] eqn:Hn;
    [| apply lookup_ge_None in Hn; unfold k in Hi; lia].
  destruct (Hhi i n Hn) as [b Hb].
  eexists. split; [exact (modify_base_ok _ _ _ _ _ Hb) |]. simpl.
  split; [| split; [reflexivity | split]].
  - split; [| split].
    + now rewrite length_insert.
    + intros j Hj. rewrite list_lookup_insert_ne by lia. now apply Hlo.
    + intros j m Hm. destruct (decide (j = i)) as [->|Hne].
      * exists true. rewrite (lookup_insert_same _ _ _ _ Hb).
        rewrite Hn in Hm. injection Hm as <-. reflexivity.
      * rewrite list_lookup_insert_ne by lia. now apply Hhi.
  - eexists. split; [exact (lookup_insert_same _ _ _ _ Hb) | reflexivity].
  - intros j m Hm Hs. destruct (decide (j = (k + i)%nat)) as [->|Hne].
    + eexists. split; [exact (lookup_insert_same _ _ _ _ Hb) | reflexivity].
    + exists m. rewrite list_lookup_insert_ne by congruence. now split.
Qed.

Lemma copied_flag_all l w1 s :
  copied (heap w1) -> Forall (fun i => (i < k)%nat) l ->
  (exists n, heap w1 !! s = Some n /\ isSnapshot (nbase n) = true) ->
  exists w2,
    for_each (fun d => modify_base d (with_isSnapshot true))
      (map (Nat.add k) l) w1 = (Ok tt, w2)
    /\ copied (heap w2) /\ log w2 = log w1
    /\ exists n, heap w2 !! s = Some n /\ isSnapshot (nbase n) = true.
Proof.
  revert w1. induction l as [|i l IH]; intros w1 Hc Hl Hs; simpl.
  - exists w1. split; [reflexivity |]. split; [exact Hc |].
    split; [reflexivity | exact Hs].
  - inversion Hl as [|? ? Hi Hl']; subst.
    destruct (copied_flag w1 i Hc Hi) as (w2 & Hm & Hc2 & Hlog & _ & Hkeep).
    destruct Hs as (n & Hn & Hf). destruct (Hkeep s n Hn Hf) as (n' & Hn' & Hf').
    destruct (IH w2 Hc2 Hl' (ex_intro _ n' (conj Hn' Hf')))
      as (w3 & Hm3 & Hc3 & Hlog3 & Hs3).
    exists w3. unfold bind. rewrite Hm. simpl. rewrite Hm3.
    split; [reflexivity |]. split; [exact Hc3 |].
    split; [congruence | exact Hs3].
Qed.

(** In a well-formed arena the snapshot of an object succeeds; the arena it
    leaves holds [copied]. *)
Lemma snapshot_copied a :
  well_formed (heap w) -> (a < k)%nat ->
  exists w1, snapshot a w = (Ok (k + a)%nat, w1)
             /\ copied (heap w1) /\ log w1 = log w
             /\ exists n, heap w1 !! (k + a)%nat = Some n
                          /\ isSnapshot (nbase n) = true.
Proof.
  intros Hwf Ha. unfold snapshot, deepcopy. unfold bind at 1.
  fold k. fold h0.
  set (w0 := {| heap := h0; log := log w |}).
  destruct (copied_flag w0 a copied_deepcopy Ha)
    as (w1 & Hm1 & Hc1 & Hlog1 & (n1 & Hn1 & Hf1) & _).
  change (log w1 = log w) in Hlog1.
  unfold bind at 1. rewrite Hm1. simpl.
  unfold bind at 1. rewrite (get_ok _ _ _ Hn1). simpl.
  destruct (heap w !! a) as [na|] eqn:Hna;
    [| apply lookup_ge_None in Hna; unfold k in Ha; lia].
  destruct Hc1 as (Hlen1 & Hlo1 & Hhi1).
  destruct (Hhi1 a na Hna) as [b Hb]. rewrite Hn1 in Hb.
  injection Hb as ->. simpl.
  destruct (Hwf a na Hna) as [Hu Hd].
  assert (Hc1 : copied (heap w1)) by (now split).
  assert (Hs1 : exists n, heap w1 !! (k + a)%nat = Some n
                          /\ isSnapshot (nbase n) = true).
  { eexists. split; [exact Hn1 | exact Hf1]. }
  assert (Hds : Forall (fun i => (i < k)%nat) (derivatives (nbase na))).
  { apply List.Forall_forall. intros d Hin. apply Hd. exact Hin. }
  simpl in Hn1.
  destruct (underlying (nbase na)) as [u|] eqn:Hua; simpl.
  - destruct (copied_flag w1 u Hc1 (Hu u eq_refl))
      as (w2 & Hm2 & Hc2 & Hlog2 & _ & Hkeep).
    destruct Hs1 as (n & Hn & Hf).
    destruct (Hkeep _ n Hn Hf) as (n' & Hn' & Hf').
    destruct (copied_flag_all _ w2 (k + a)%nat Hc2 Hds
                (ex_intro _ n' (conj Hn' Hf')))
      as (w3 & Hm3 & Hc3 & Hlog3 & Hs3).
    exists w3. unfold bind at 1. unfold bind at 1. rewrite Hm2. simpl.
    unfold bind. rewrite Hm3. simpl. unfold ret.
    split; [reflexivity |]. split; [exact Hc3 |].
    split; [congruence | exact Hs3].
  - destruct (copied_flag_all _ w1 (k + a)%nat Hc1 Hds Hs1)
      as (w3 & Hm3 & Hc3 & Hlog3 & Hs3).
    exists w3. unfold bind, ret. simpl. rewrite Hm3. simpl.
    split; [reflexivity |]. split; [exact Hc3 |].
    split; [congruence | exact Hs3].
Qed.

(** No reference of an original object designates a copy, and no reference
    of a copy designates an original object. *)
Lemma copied_closed_low h :
  well_formed (heap w) -> copied h -> closed (fun i => (i < k)%nat) h.
Proof.
  intros Hwf (_ & Hlo & _) i n Hi Hn. simpl in Hi.
  apply (Hwf i n). rewrite <- Hn. symmetry. exact (Hlo i Hi).
Qed.

Lemma copied_closed_high h :
  copied h -> closed (fun i => (k <= i)%nat) h.
Proof.
  intros (Hlen & _ & Hhi) i n Hi Hn.
  assert (Hlt : (i < k + k)%nat)
    by (rewrite <- Hlen; now apply lookup_lt_Some in Hn).
  destruct (heap w !! (i - k)%nat) as [m|] eqn:Hm;
    [| apply lookup_ge_None in Hm; unfold k in *; lia].
  destruct (Hhi _ m Hm) as [b Hb].
  replace (k + (i - k))%nat with i in Hb by lia.
  pose proof (eq_trans (eq_sym Hn) Hb) as Heq. injection Heq as ->.
  simpl. split.
  - intros u Hu. destruct (underlying (nbase m)); [| discriminate].
    simpl in Hu. injection Hu as <-. lia.
  - intros d Hd. apply in_map_iff in Hd as (d0 & <- & _). lia.
Qed.

End Snapshot.

(** C4.  In an arena whose references all designate objects, the snapshot of
    the object at [a] succeeds and returns the copy of [a]; it leaves the
    original objects as they were and puts behind them a copy of each, equal
    to it up to the [isSnapshot] flag, with its references moved to the
    copies; the flag of the returned copy is set.  Whatever the copy
    reaches is a copy and whatever the original reaches is an original.
    Mutations (quote, bid, ask, now, rate and volatility assignments) of
    original objects, however many, leave every copy as it was, and
    mutations of copies leave every original object as it was. *)
Theorem snapshot_is_isolated E w a :
  well_formed (heap w) -> (a < length (heap w))%nat ->
  exists w1,
    snapshot a w = (Ok (length (heap w) + a)%nat, w1)
    /\ (forall i, (i < length (heap w))%nat -> heap w1 !! i = heap w !! i)
    /\ (forall i n, heap w !! i = Some n ->
          exists b, heap w1 !! (length (heap w) + i)%nat
                    = Some {| nbase := with_isSnapshot b
                                         (nbase (relocate (length (heap w)) n));
                              ncls := ncls n |})
    /\ (exists n, heap w1 !! (length (heap w) + a)%nat = Some n
                  /\ isSnapshot (nbase n) = true)
    /\ (forall y, reachable (heap w1) (length (heap w) + a)%nat y ->
          (length (heap w) <= y)%nat)
    /\ (forall y, reachable (heap w1) a y -> (y < length (heap w))%nat)
    /\ (forall ms y,
          Forall (fun am => (fst am < length (heap w))%nat) ms ->
          (length (heap w) <= y)%nat ->
          heap (run_mutations E ms w1) !! y = heap w1 !! y)
    /\ (forall ms i,
          Forall (fun am => (length (heap w) <= fst am)%nat) ms ->
          (i < length (heap w))%nat ->
          heap (run_mutations E ms w1) !! i = heap w1 !! i).
Proof.
  intros Hwf Ha.
  destruct (snapshot_copied w a Hwf Ha) as (w1 & Hs & Hc & _ & Hflag).
  pose proof (copied_closed_low w _ Hwf Hc) as Hlow.
  pose proof (copied_closed_high w _ Hc) as Hhigh.
  exists w1. split; [exact Hs |].
  destruct Hc as (_ & Hlo & Hhi).
  split; [exact Hlo |]. split; [exact Hhi |]. split; [exact Hflag |].
  split; [| split; [| split]].
  - intros y Hr.
    apply (closed_reachable _ _ _ _ Hhigh) in Hr; [exact Hr | simpl; lia].
  - intros y Hr.
    apply (closed_reachable _ _ _ _ Hlow) in Hr; [exact Hr | exact Ha].
  - intros ms y Hms Hy.
    apply (run_mutations_confined E _ ms w1 Hlow Hms). simpl. lia.
  - intros ms i Hms Hi.
    apply (run_mutations_confined E _ ms w1 Hhigh Hms). simpl. lia.
Qed.

Lemma spot_and_future_well_formed : well_formed (heap spot_and_future).
Proof.
  intros [|[|i]] n Hn; simpl in Hn; [| | discriminate];
    injection Hn as <-; simpl; split.
  - discriminate.
  - intros d [<-|[]]. lia.
  - intros u [= <-]. lia.
  - intros d [].
Qed.

Lemma snapshot_is_isolated_witness :
  exists w1,
    snapshot 1%nat spot_and_future = (Ok 3%nat, w1)
    /\ (forall i, (i < 2)%nat -> heap w1 !! i = heap spot_and_future !! i)
    /\ (forall y, (2 <= y)%nat ->
          heap (run_mutations sample_externals
                  [(0%nat, Quote (Some 3) (Some 4)); (1%nat, SetRf (Some 1))]
                  w1) !! y
          = heap w1 !! y)
    /\ (forall i, (i < 2)%nat ->
          heap (run_mutations sample_externals
                  [(2%nat, Quote (Some 3) (Some 4)); (3%nat, SetNow (Some 5%Z))]
                  w1) !! i
          = heap w1 !! i).
Proof.
  destruct (snapshot_is_isolated sample_externals spot_and_future 1%nat
              spot_and_future_well_formed (le_n 2))
    as (w1 & Hs & Hlo & _ & _ & _ & _ & Horig & Hcopy).
  exists w1. split; [exact Hs |]. split; [exact Hlo |]. split.
  - intros y Hy. apply Horig; [| exact Hy].
    repeat constructor.
  - intros i Hi. apply Hcopy; [| exact Hi].
    repeat constructor.
Defined.

(** ** The option's own clock *)

Section OwnClock.

Variable E : externals.

(** The recompute of an option reads none of its own clock. *)
Lemma reference_and_solve_own_now t a sb ub f v st :
  reference_and_solve E a (with_now t sb) ub f v st
  = reference_and_solve E a sb ub f v st.
Proof. reflexivity. Qed.

Lemma seed_estimate_own_now t a sb ub f st :
  seed_estimate E a (with_now t sb) ub f st = seed_estimate E a sb ub f st.
Proof. reflexivity. Qed.

Lemma CurrencyFutureOption_update_own_now t a sb ub f st :
  CurrencyFutureOption_update E a (with_now t sb) ub f st
  = CurrencyFutureOption_update E a sb ub f st.
Proof. reflexivity. Qed.

(** The recompute of a future reads none of the clock of its underlying. *)
Lemma CurrencyFuture_update_underlying_now t sb ub st :
  CurrencyFuture_update E sb (Some (with_now t ub)) st
  = CurrencyFuture_update E sb (Some ub) st.
Proof. reflexivity. Qed.


(** The expiry of an option is an input that no method assigns. *)
Definition keeps_expir {A} (m : M (frame option_attrs) A) : Prop :=
  forall st, expir (self (snd (m st))) = expir (self st).

Lemma keeps_expir_bind {A B} (m : M (frame option_attrs) A)
    (k : A -> M (frame option_attrs) B) :
  keeps_expir m -> (forall x, keeps_expir (k x)) -> keeps_expir (bind m k).
Proof.
  intros Hm Hk st. unfold bind. specialize (Hm st).
  destruct (m st) as [[x|e] st']; simpl in *.
  - now rewrite Hk.
  - exact Hm.
Qed.

Lemma keeps_expir_ret {A} (x : A) : keeps_expir (ret x).
Proof. intros st. reflexivity. Qed.

Lemma keeps_expir_reference_and_solve a sb ub f v :
  keeps_expir (reference_and_solve E a sb ub f v).
Proof.
  intros [o tr].
  unfold reference_and_solve, call_newton.
  unfold bind, read, require, assign, tell, ret, raise.
  unfold t_tenor, r_tenor. simpl.
  crunch.
Qed.

Lemma keeps_expir_seed_estimate a sb ub f :
  keeps_expir (seed_estimate E a sb ub f).
Proof.
  intros [o tr].
  unfold seed_estimate.
  unfold bind, read, require, assign, tell, ret, raise.
  unfold t_tenor, r_tenor. simpl.
  crunch.
Qed.

Lemma keeps_expir__calc_implied a sb ub f :
  keeps_expir (_calc_implied E recursion_limit a sb ub f).
Proof.
  intros st. change recursion_limit with (S (S 998)).
  rewrite _calc_implied_passes.
  destruct (_vol (self st)).
  - apply keeps_expir_bind; [apply keeps_expir_reference_and_solve |].
    intros; apply keeps_expir_ret.
  - apply keeps_expir_bind; [apply keeps_expir_seed_estimate |]. intros seed.
    apply keeps_expir_bind; [apply keeps_expir_reference_and_solve |].
    intros v1.
    apply keeps_expir_bind; [apply keeps_expir_reference_and_solve |].
    intros; apply keeps_expir_ret.
Qed.

Lemma keeps_expir__calc_price ub f : keeps_expir (_calc_price E ub f).
Proof.
  intros [o tr].
  unfold _calc_price, assign_greeks.
  unfold bind, read, require, assign, tell, ret, raise.
  unfold t_tenor, r_tenor. simpl.
  crunch.
Qed.

Lemma keeps_expir_CurrencyFutureOption_update a sb ub f :
  keeps_expir (CurrencyFutureOption_update E a sb ub f).
Proof.
  unfold CurrencyFutureOption_update.
  apply keeps_expir_bind; [intros st; reflexivity |]. intros o.
  destruct (ccr f), (ccq f), (otype o); try apply keeps_expir_ret.
  destruct (_ && _); [| apply keeps_expir_ret].
  apply keeps_expir_bind; [| intros; apply keeps_expir__calc_price].
  destruct (_manual_vol o);
    [apply keeps_expir_ret | apply keeps_expir__calc_implied].
Qed.

End OwnClock.

(** ** Assigning the clock of an option *)

(** The arena [g] with, at [a], the option of attributes [sb] and [o] whose
    clock has been assigned [t]. *)
Definition restamped (a : addr) (sb : base) (o : option_attrs)
    (g : list node) (lg : list event) (t : option time) : world :=
  {| heap := <[a := {| nbase := with_now t sb;
                       ncls := CurrencyFutureOption o |}]> g;
     log := lg |}.

Section Restamped.

Variable E : externals.

Lemma run_method_eq {X} a sb inj (x : X) m w :
  run_method a sb inj x m w
  = (fst (m {| self := x; trace := [] |}),
     {| heap := <[a := {| nbase := sb;
                          ncls := inj (self (snd (m {| self := x; trace := [] |}))) |}]>
                  (heap w);
        log := log w ++ trace (snd (m {| self := x; trace := [] |})) |}).
Proof. unfold run_method. now destruct (m _). Qed.

Lemma insert_bases (g : list node) x n n' :
  g !! x = Some n -> nbase n' = nbase n ->
  nbase <$> <[x := n']> g = nbase <$> g.
Proof.
  intros Hx Hn. rewrite list_fmap_insert, Hn.
  apply list_insert_id. now rewrite list_lookup_fmap, Hx.
Qed.

(** Whatever the clock of the option at [a] has been assigned, the
    recompute of any object [x] has the same outcome, records the same
    calls and leaves the same arena; it changes no base attribute and not
    the expiry of the option. *)
Lemma _update_restamped x a sb o g lg :
  (a < length g)%nat ->
  exists res o' g' lg',
    nbase <$> g' = nbase <$> g
    /\ expir o' = expir o
    /\ (exists l, lg' = lg ++ EvUpdate x :: l /\ existsb is_update l = false)
    /\ forall t, _update E x (restamped a sb o g lg t)
                 = (res, restamped a sb o' g' lg' t).
Proof.
  intros Ha.
  assert (Hnil : exists l : list event,
             lg ++ [EvUpdate x] = lg ++ EvUpdate x :: l
             /\ existsb is_update l = false)
    by (exists []; split; reflexivity).
  assert (Hsame : forall res,
             (forall t, _update E x (restamped a sb o g lg t)
                        = (res, restamped a sb o g (lg ++ [EvUpdate x]) t)) ->
             exists res o' g' lg',
               nbase <$> g' = nbase <$> g
               /\ expir o' = expir o
               /\ (exists l, lg' = lg ++ EvUpdate x :: l
                             /\ existsb is_update l = false)
               /\ forall t, _update E x (restamped a sb o g lg t)
                            = (res, restamped a sb o' g' lg' t)).
  { intros res H. exists res, o, g, (lg ++ [EvUpdate x]).
    split; [reflexivity |]. split; [reflexivity |]. split; [exact Hnil |].
    exact H. }
  assert (Hat : forall n : node, <[a := n]> g !! a = Some n).
  { intros n. now apply list_lookup_insert_eq. }
  assert (Hoff : forall (y : addr) n, y <> a -> <[a := n]> g !! y = g !! y).
  { intros y n Hy. apply list_lookup_insert_ne. congruence. }
  destruct (decide (x = a)) as [->|Hxa].
  - (* the option itself *)
    destruct (underlying sb) as [ua|] eqn:Hu.
    2:{ apply (Hsame (Raise AttributeError)). intros t.
        unfold _update, underlying_future, get_future, emit, get, restamped.
        unfold bind, ret, raise. simpl.
        rewrite (Hat _). simpl. now rewrite Hu. }
    destruct (decide (ua = a)) as [->|Hua].
    { apply (Hsame (Raise AttributeError)). intros t.
      unfold _update, underlying_future, get_future, emit, get, restamped.
      unfold bind, ret, raise. simpl.
      rewrite (Hat _). simpl. rewrite Hu. simpl.
      now rewrite (Hat _). }
    destruct (g !! ua) as [[ub [|f|o2]]|] eqn:Hg.
    2:{ (* the underlying is a future *)
        set (m := CurrencyFutureOption_update E a sb ub f).
        set (st0 := {| self := o; trace := [] |}).
        exists (fst (m st0)), (self (snd (m st0))), g,
          ((lg ++ [EvUpdate a]) ++ trace (snd (m st0))).
        split; [reflexivity |].
        split; [exact (keeps_expir_CurrencyFutureOption_update E a sb ub f st0) |].
        split.
        { exists (trace (snd (m st0))). split; [now rewrite <- app_assoc |].
          exact (quiet_CurrencyFutureOption_update E a sb ub f st0). }
        intros t.
        rewrite (_update_option E a _ (with_now t sb) o ua ub f).
        - rewrite run_method_eq.
          rewrite (CurrencyFutureOption_update_own_now E t a sb ub f).
          fold m st0. unfold restamped. simpl.
          now rewrite list_insert_insert_eq.
        - exact (Hat _).
        - exact Hu.
        - unfold restamped. simpl.
          rewrite list_lookup_insert_ne by congruence. exact Hg. }
    all: apply (Hsame (Raise AttributeError)); intros t;
      unfold _update, underlying_future, get_future, emit, get, restamped;
      unfold bind, ret, raise; simpl;
      rewrite (Hat _); simpl; rewrite Hu; simpl;
      rewrite (Hoff ua) by congruence; now rewrite Hg.
  - (* another object *)
    assert (Hx : forall t, heap (restamped a sb o g lg t) !! x = g !! x).
    { intros t. unfold restamped. simpl.
      apply list_lookup_insert_ne. congruence. }
    assert (Hrun : forall X (inj : X -> klass) xb (f : X) m
                     (m' : option time -> M (frame X) unit),
               g !! x = Some {| nbase := xb; ncls := inj f |} ->
               quiet m ->
               (forall t, _update E x (restamped a sb o g lg t)
                          = run_method x xb inj f (m' t)
                              {| heap := heap (restamped a sb o g lg t);
                                 log := lg ++ [EvUpdate x] |}) ->
               (forall t st, m' t st = m st) ->
               exists res o' g' lg',
                 nbase <$> g' = nbase <$> g
                 /\ expir o' = expir o
                 /\ (exists l, lg' = lg ++ EvUpdate x :: l
                               /\ existsb is_update l = false)
                 /\ forall t, _update E x (restamped a sb o g lg t)
                              = (res, restamped a sb o' g' lg' t)).
    { intros X inj xb f m m' Hgx Hq Hup Hm.
      set (st0 := {| self := f; trace := [] |}).
      exists (fst (m st0)), o,
        (<[x := {| nbase := xb; ncls := inj (self (snd (m st0))) |}]> g),
        ((lg ++ [EvUpdate x]) ++ trace (snd (m st0))).
      split; [now apply (insert_bases g x _ _ Hgx) |].
      split; [reflexivity |].
      split.
      { exists (trace (snd (m st0))). split; [now rewrite <- app_assoc |].
        exact (Hq st0). }
      intros t. rewrite Hup, run_method_eq, Hm. fold st0.
      unfold restamped. simpl.
      now rewrite list_insert_insert_ne by congruence. }
    destruct (g !! x) as [[xb [|f|o2]]|] eqn:Hgx.
    + (* a spot *)
      apply (Hsame (Ok tt)). intros t.
      rewrite (_update_spot E x _ xb) by (exact (Hx t)).
      reflexivity.
    + (* a future *)
      destruct (underlying xb) as [ux|] eqn:Hux.
      * destruct (decide (ux = a)) as [->|Hne].
        -- apply (Hrun _ CurrencyFuture xb f
                    (CurrencyFuture_update E xb (Some sb))
                    (fun t => CurrencyFuture_update E xb (Some (with_now t sb)))
                    eq_refl (quiet_CurrencyFuture_update E xb _)).
           ++ intros t.
              rewrite (_update_future E x _ xb f a
                         {| nbase := with_now t sb;
                            ncls := CurrencyFutureOption o |});
                [reflexivity | exact (Hx t) | exact Hux |].
              exact (Hat _).
           ++ intros t st. reflexivity.
        -- destruct (g !! ux) as [un|] eqn:Hgu.
           ++ apply (Hrun _ CurrencyFuture xb f
                       (CurrencyFuture_update E xb (Some (nbase un)))
                       (fun _ => CurrencyFuture_update E xb (Some (nbase un)))
                       eq_refl (quiet_CurrencyFuture_update E xb _)).
              ** intros t.
                 rewrite (_update_future E x _ xb f ux un);
                   [reflexivity | exact (Hx t) | exact Hux |].
                 unfold restamped. simpl.
                 rewrite list_lookup_insert_ne by congruence. exact Hgu.
              ** intros t st. reflexivity.
           ++ apply (Hsame (Raise AttributeError)). intros t.
              unfold _update, emit, get. unfold bind, ret, raise.
              cbn [heap log]. rewrite Hx. simpl. rewrite Hux. simpl.
              unfold restamped. simpl.
              rewrite (Hoff ux) by congruence. now rewrite Hgu.
      * apply (Hrun _ CurrencyFuture xb f
                 (CurrencyFuture_update E xb None)
                 (fun _ => CurrencyFuture_update E xb None)
                 eq_refl (quiet_CurrencyFuture_update E xb _)).
        -- intros t.
           rewrite (_update_future_orphan E x _ xb f);
             [reflexivity | exact (Hx t) | exact Hux].
        -- intros t st. reflexivity.
    + (* another option *)
      destruct (underlying xb) as [ux|] eqn:Hux.
      2:{ apply (Hsame (Raise AttributeError)). intros t.
          unfold _update, underlying_future, get_future, emit, get.
          unfold bind, ret, raise.
          cbn [heap log]. rewrite Hx. simpl. now rewrite Hux. }
      destruct (decide (ux = a)) as [->|Hne].
      { apply (Hsame (Raise AttributeError)). intros t.
        unfold _update, underlying_future, get_future, emit, get.
        unfold bind, ret, raise.
        cbn [heap log]. rewrite Hx. simpl. rewrite Hux. simpl.
        unfold restamped. simpl. now rewrite (Hat _). }
      destruct (g !! ux) as [[ub [|f|o3]]|] eqn:Hgu.
      2:{ apply (Hrun _ CurrencyFutureOption xb o2
                   (CurrencyFutureOption_update E x xb ub f)
                   (fun _ => CurrencyFutureOption_update E x xb ub f)
                   eq_refl (quiet_CurrencyFutureOption_update E x xb ub f)).
          - intros t.
            rewrite (_update_option E x _ xb o2 ux ub f);
              [reflexivity | exact (Hx t) | exact Hux |].
            unfold restamped. simpl.
            rewrite list_lookup_insert_ne by congruence. exact Hgu.
          - intros t st. reflexivity. }
      all: apply (Hsame (Raise AttributeError)); intros t;
        unfold _update, underlying_future, get_future, emit, get;
        unfold bind, ret, raise;
        cbn [heap log]; rewrite Hx; simpl; rewrite Hux; simpl;
        unfold restamped; simpl;
        rewrite (Hoff ux) by congruence; now rewrite Hgu.
    + (* no object *)
      apply (Hsame (Raise AttributeError)). intros t.
      unfold _update, emit, get. unfold bind, ret, raise.
      cbn [heap log]. now rewrite Hx.
Qed.


Lemma filter_quiet (l : list event) :
  existsb is_update l = false -> List.filter is_update l = [].
Proof.
  induction l as [|ev l IH]; simpl; [reflexivity |].
  destruct (is_update ev); simpl; [discriminate | exact IH].
Qed.

Lemma bases_length (g g' : list node) :
  nbase <$> g' = nbase <$> g -> length g' = length g.
Proof.
  intros H. apply (f_equal length) in H. now rewrite !length_fmap in H.
Qed.

(** The same for the loop over a list of derivatives; when no recompute
    raises, the recomputes recorded are those of the list, in order. *)
Lemma for_each_update_restamped ds a sb o g lg :
  (a < length g)%nat ->
  exists res o' g' lg',
    nbase <$> g' = nbase <$> g
    /\ expir o' = expir o
    /\ (exists l, lg' = lg ++ l)
    /\ (res = Ok tt ->
        List.filter is_update lg'
        = List.filter is_update lg ++ map EvUpdate ds)
    /\ forall t, for_each (_update E) ds (restamped a sb o g lg t)
                 = (res, restamped a sb o' g' lg' t).
Proof.
  revert o g lg. induction ds as [|d ds IH]; intros o g lg Ha.
  - exists (Ok tt), o, g, lg. split; [reflexivity |]. split; [reflexivity |].
    split; [exists []; now rewrite app_nil_r |].
    split; [intros _; simpl; now rewrite app_nil_r |].
    intros t. reflexivity.
  - destruct (_update_restamped d a sb o g lg Ha)
      as (res1 & o1 & g1 & lg1 & Hb1 & He1 & (l & -> & Hl) & H1).
    destruct res1 as [[]|e].
    + assert (Ha1 : (a < length g1)%nat)
        by (rewrite (bases_length _ _ Hb1); exact Ha).
      destruct (IH o1 g1 (lg ++ EvUpdate d :: l) Ha1)
        as (res & o' & g' & lg' & Hb & He & (l2 & ->) & Hlog & H).
      exists res, o', g', ((lg ++ EvUpdate d :: l) ++ l2).
      split; [congruence |]. split; [congruence |].
      split; [exists ((EvUpdate d :: l) ++ l2); now rewrite app_assoc |].
      split.
      * intros Hr. rewrite (Hlog Hr), List.filter_app. simpl.
        rewrite (filter_quiet l Hl), <- app_assoc. reflexivity.
      * intros t. simpl. unfold bind. rewrite H1. apply H.
    + exists (Raise e), o1, g1, (lg ++ EvUpdate d :: l).
      split; [exact Hb1 |]. split; [exact He1 |].
      split; [now exists (EvUpdate d :: l) |].
      split; [discriminate |].
      intros t. simpl. unfold bind. now rewrite H1.
Qed.

(** Assigning [now] on an option: the outcome, the calls recorded, every
    other object and every attribute of the option but the clock itself are
    the same whatever time is assigned. *)
Lemma now_setter_restamped a w sb o :
  heap w !! a = Some {| nbase := sb; ncls := CurrencyFutureOption o |} ->
  exists res o' g lg,
    nbase <$> g = nbase <$> heap w
    /\ expir o' = expir o
    /\ (exists l, lg = log w ++ EvUpdate a :: l)
    /\ (res = Ok tt ->
        List.filter is_update lg
        = List.filter is_update (log w)
          ++ map EvUpdate (a :: derivatives sb))
    /\ forall t, now_setter E a t w = (res, restamped a sb o' g lg t).
Proof.
  intros Hw.
  assert (Ha : (a < length (heap w))%nat) by (now apply lookup_lt_Some in Hw).
  destruct (_update_restamped a a sb o (heap w) (log w) Ha)
    as (res1 & o1 & g1 & lg1 & Hb1 & He1 & (l & -> & Hl) & H1).
  assert (Hset : forall t, modify_base a (with_now t) w
                           = (Ok tt, restamped a sb o (heap w) (log w) t))
    by (intros t; exact (modify_base_ok a (with_now t) w sb _ Hw)).
  destruct res1 as [[]|e].
  - assert (Ha1 : (a < length g1)%nat)
      by (rewrite (bases_length _ _ Hb1); exact Ha).
    destruct (for_each_update_restamped (derivatives sb) a sb o1 g1
                (log w ++ EvUpdate a :: l) Ha1)
      as (res & o' & g' & lg' & Hb & He & (l2 & ->) & Hlog & H).
    exists res, o', g', ((log w ++ EvUpdate a :: l) ++ l2).
    split; [congruence |]. split; [congruence |]. split; [| split].
    + exists (l ++ l2). now rewrite <- app_assoc.
    + intros Hr. rewrite (Hlog Hr), List.filter_app. simpl.
      rewrite (filter_quiet l Hl), <- app_assoc. reflexivity.
    + intros t. unfold now_setter, bind. rewrite Hset. simpl.
      rewrite H1. simpl. unfold alert_derivatives, bind, get.
      unfold restamped at 1 2. simpl.
      rewrite list_lookup_insert_eq by exact Ha1. simpl. apply H.
  - exists (Raise e), o1, g1, (log w ++ EvUpdate a :: l).
    split; [exact Hb1 |]. split; [exact He1 |].
    split; [now exists l |]. split; [discriminate |].
    intros t. unfold now_setter, bind. rewrite Hset. simpl. now rewrite H1.
Qed.

End Restamped.

(** C10.  The year fractions of an option are those of the clock of its
    underlying ([r_tenor] and [t_tenor] take the base attributes of the
    underlying, not of the option).  Assigning [now] on an option stores the
    time, recomputes the option and, unless that raises, each of its
    derivatives in order.  The outcome, the calls recorded, every other
    object and every attribute of the option except the stored clock are the
    same whatever time is assigned; the clock of the underlying, the expiry
    and so both year fractions are what they were before the assignment.
    The attributes derived from them are those that a recompute gives, which
    need not be the ones held before. *)
Theorem option_now_assignment E w a sb o :
  heap w !! a = Some {| nbase := sb; ncls := CurrencyFutureOption o |} ->
  exists res o' g lg,
    (forall t, now_setter E a t w = (res, restamped a sb o' g lg t))
    /\ (exists l, lg = log w ++ EvUpdate a :: l)
    /\ (res = Ok tt ->
        List.filter is_update lg
        = List.filter is_update (log w) ++ map EvUpdate (a :: derivatives sb))
    /\ forall t ua un,
         underlying sb = Some ua -> ua <> a -> heap w !! ua = Some un ->
         exists un',
           heap (restamped a sb o' g lg t) !! ua = Some un'
           /\ now_of E (nbase un') = now_of E (nbase un)
           /\ r_tenor E (nbase un') o' = r_tenor E (nbase un) o
           /\ t_tenor E (nbase un') o' = t_tenor E (nbase un) o.
Proof.
  intros Hw.
  destruct (now_setter_restamped E a w sb o Hw)
    as (res & o' & g & lg & Hb & He & Hl & Hlog & H).
  exists res, o', g, lg.
  split; [exact H |]. split; [exact Hl |]. split; [exact Hlog |].
  intros t ua un _ Hne Hun.
  assert (Hg : nbase <$> g !! ua = nbase <$> heap w !! ua)
    by (rewrite <- !list_lookup_fmap; now rewrite Hb).
  rewrite Hun in Hg.
  destruct (g !! ua) as [un'|] eqn:Hun'; [| discriminate].
  simpl in Hg. injection Hg as Hg.
  exists un'. split.
  - unfold restamped. simpl.
    rewrite list_lookup_insert_ne by congruence. exact Hun'.
  - unfold r_tenor, t_tenor. rewrite Hg, He. repeat split.
Qed.

Lemma option_now_assignment_witness :
  exists res o' g lg,
    forall t,
      now_setter sample_externals 1%nat t (future_and_call None)
      = (res, restamped 1%nat call_base o' g lg t).
Proof.
  destruct (option_now_assignment sample_externals (future_and_call None)
              1%nat call_base (call_attrs None) eq_refl)
    as (res & o' & g & lg & H & _).
  exists res, o', g, lg. exact H.
Defined.

(** C10 fails as stated: a call with a stored volatility of 2/10, bid
    1/10, on a future quoted 1 / 1 whose clock is not touched.  With a
    root-finder that makes one step from its first guess, assigning [now]
    on the call leaves both year fractions as they were and moves the
    volatility to 3/10. *)
Lemma now_assignment_moves_volatility :
  exists o1,
    heap (snd (now_setter one_step_externals 1%nat (Some 5%Z)
                 (future_and_call (Some (2 / 10))))) !! 1%nat
    = Some {| nbase := with_now (Some 5%Z) call_base;
              ncls := CurrencyFutureOption o1 |}
    /\ heap (snd (now_setter one_step_externals 1%nat (Some 5%Z)
                    (future_and_call (Some (2 / 10))))) !! 0%nat
       = heap (future_and_call (Some (2 / 10))) !! 0%nat
    /\ r_tenor one_step_externals future_base o1
       = r_tenor one_step_externals future_base (call_attrs (Some (2 / 10)))
    /\ t_tenor one_step_externals future_base o1
       = t_tenor one_step_externals future_base (call_attrs (Some (2 / 10)))
    /\ _vol (call_attrs (Some (2 / 10))) = Some (2 / 10)
    /\ _vol o1 = Some (3 / 10)
    /\ _vol o1 <> _vol (call_attrs (Some (2 / 10))).
Proof.
  set (E := one_step_externals).
  set (w := future_and_call (Some (2 / 10))).
  set (w' := restamped 1%nat call_base (call_attrs (Some (2 / 10)))
               (heap w) (log w) (Some 5%Z)).
  assert (Hset : modify_base 1%nat (with_now (Some 5%Z)) w = (Ok tt, w'))
    by reflexivity.
  assert (HK : strike (call_attrs (Some (2 / 10))) <> 0) by (simpl; lra).
  assert (HF : (1 + 1) / 2 <> 0) by lra.
  assert (Hrp : forall m,
             reference_price E (with_now (Some 5%Z) call_base)
               (Some "call"%string) ((1 + 1) / 2) 1 m
             = Some (1 / 10))
    by (intros m; exact (reference_price_quoted E m)).
  destruct (_update_option_recalibrated E 1%nat w'
              (with_now (Some 5%Z) call_base)
              (call_attrs (Some (2 / 10))) 0%nat future_base (rated 0 0 90%Z)
              "call"%string ((1 + 1) / 2) 0 0 (2 / 10) (1 / 10) _
              eq_refl eq_refl eq_refl eq_refl eq_refl eq_refl eq_refl eq_refl
              eq_refl eq_refl eq_refl HK HF (Hrp _) eq_refl)
    as (res1 & o1 & lg1 & H1 & Hv1 & Hot1 & Hk1 & He1 & Hm1).
  rewrite one_step_objective in Hv1.
  assert (Hend : heap (snd (now_setter E 1%nat (Some 5%Z) w))
                 = [ {| nbase := future_base;
                        ncls := CurrencyFuture (rated 0 0 90%Z) |};
                     {| nbase := with_now (Some 5%Z) call_base;
                        ncls := CurrencyFutureOption o1 |} ]).
  { unfold now_setter, bind. rewrite Hset. simpl. rewrite H1.
    destruct res1 as [[]|e]; reflexivity. }
  exists o1. rewrite Hend.
  split; [reflexivity |]. split; [reflexivity |].
  unfold r_tenor, t_tenor. rewrite He1.
  split; [reflexivity |]. split; [reflexivity |].
  split; [reflexivity |].
  assert (Hv : _vol o1 = Some (3 / 10)) by (rewrite Hv1; f_equal; lra).
  split; [exact Hv |].
  rewrite Hv. simpl. intros [= Heq]. lra.
Qed.

(** * Further properties of the instruments *)

(** ** What a recompute writes *)

(** The attributes of an object that are given to it (by its constructor or
    a setter), as opposed to those its recompute models: the modeled
    attributes are erased. *)
Definition inputs (c : klass) : klass :=
  match c with
  | FXSpot => FXSpot
  | CurrencyFuture f =>
      CurrencyFuture {| _rf := _rf f; ccr := ccr f; _qf := _qf f;
                        ccq := ccq f; settle := settle f; carry := None;
                        fprice := null_prices |}
  | CurrencyFutureOption o =>
      CurrencyFutureOption
        {| otype := otype o; strike := strike o; expir := expir o;
           _vol := None; _manual_vol := _manual_vol o; moneyness := None;
           probability := None; oprice := None; ogreeks := null_greeks |}
  end.

(** A method that assigns none of the given attributes of its object. *)
Definition keeps_inputs {X A} (inj : X -> klass) (m : M (frame X) A) : Prop :=
  forall st, inputs (inj (self (snd (m st)))) = inputs (inj (self st)).

Lemma insert_same_view {V} (v : node -> V) (g : list node) (x : nat) n n' :
  g !! x = Some n -> v n' = v n -> v <$> <[x := n']> g = v <$> g.
Proof.
  intros Hx Hn. rewrite list_fmap_insert, Hn.
  apply list_insert_id. now rewrite list_lookup_fmap, Hx.
Qed.

Section Recompute.

Variable E : externals.

Lemma keeps_inputs_bind {X A B} inj (m : M (frame X) A)
    (k : A -> M (frame X) B) :
  keeps_inputs inj m -> (forall x, keeps_inputs inj (k x)) ->
  keeps_inputs inj (bind m k).
Proof.
  intros Hm Hk st. unfold bind. specialize (Hm st).
  destruct (m st) as [[x|e] st']; simpl in *.
  - now rewrite Hk.
  - exact Hm.
Qed.

Lemma keeps_inputs_ret {X A} inj (x : A) :
  keeps_inputs inj (@ret (frame X) A x).
Proof. intros st. reflexivity. Qed.

Lemma keeps_inputs_reference_and_solve a sb ub f v :
  keeps_inputs CurrencyFutureOption (reference_and_solve E a sb ub f v).
Proof.
  intros [o tr].
  unfold reference_and_solve, call_newton.
  unfold bind, read, require, assign, tell, ret, raise.
  unfold t_tenor, r_tenor. simpl.
  repeat first [ reflexivity | congruence | inner_case ].
Qed.

Lemma keeps_inputs_seed_estimate a sb ub f :
  keeps_inputs CurrencyFutureOption (seed_estimate E a sb ub f).
Proof.
  intros [o tr].
  unfold seed_estimate.
  unfold bind, read, require, assign, tell, ret, raise.
  unfold t_tenor, r_tenor. simpl.
  repeat first [ reflexivity | congruence | inner_case ].
Qed.

Lemma keeps_inputs__calc_implied a sb ub f :
  keeps_inputs CurrencyFutureOption (_calc_implied E recursion_limit a sb ub f).
Proof.
  intros st. change recursion_limit with (S (S 998)).
  rewrite _calc_implied_passes.
  destruct (_vol (self st)).
  - apply keeps_inputs_bind; [apply keeps_inputs_reference_and_solve |].
    intros; apply keeps_inputs_ret.
  - apply keeps_inputs_bind; [apply keeps_inputs_seed_estimate |]. intros seed.
    apply keeps_inputs_bind; [apply keeps_inputs_reference_and_solve |].
    intros v1.
    apply keeps_inputs_bind; [apply keeps_inputs_reference_and_solve |].
    intros; apply keeps_inputs_ret.
Qed.

Lemma keeps_inputs__calc_price ub f :
  keeps_inputs CurrencyFutureOption (_calc_price E ub f).
Proof.
  intros st. rewrite _calc_price_priced. simpl.
  destruct st as [o tr]. unfold priced. simpl.
  repeat first [ reflexivity | congruence | inner_case ].
Qed.

Lemma keeps_inputs_CurrencyFutureOption_update a sb ub f :
  keeps_inputs CurrencyFutureOption (CurrencyFutureOption_update E a sb ub f).
Proof.
  unfold CurrencyFutureOption_update.
  apply keeps_inputs_bind; [intros st; reflexivity |]. intros o.
  destruct (ccr f), (ccq f), (otype o); try apply keeps_inputs_ret.
  destruct (_ && _); [| apply keeps_inputs_ret].
  apply keeps_inputs_bind; [| intros; apply keeps_inputs__calc_price].
  destruct (_manual_vol o);
    [apply keeps_inputs_ret | apply keeps_inputs__calc_implied].
Qed.

Lemma keeps_inputs_CurrencyFuture_update sb u :
  keeps_inputs CurrencyFuture (CurrencyFuture_update E sb u).
Proof.
  intros [f tr].
  unfold CurrencyFuture_update.
  unfold bind, read, require, assign, tell, ret, raise. simpl.
  repeat first [ reflexivity | congruence | inner_case ].
Qed.

Lemma _update_frame a w :
  nbase <$> heap (snd (_update E a w)) = nbase <$> heap w
  /\ (fun n => inputs (ncls n)) <$> heap (snd (_update E a w))
     = (fun n => inputs (ncls n)) <$> heap w
  /\ forall b, b <> a -> heap (snd (_update E a w)) !! b = heap w !! b.
Proof.
  assert (Hw : forall (n n' : node),
             heap w !! a = Some n -> nbase n' = nbase n ->
             inputs (ncls n') = inputs (ncls n) ->
             nbase <$> <[a := n']> (heap w) = nbase <$> heap w
             /\ (fun n => inputs (ncls n)) <$> <[a := n']> (heap w)
                = (fun n => inputs (ncls n)) <$> heap w
             /\ forall b, b <> a -> <[a := n']> (heap w) !! b = heap w !! b).
  { intros n n' Ha Hb Hi. split; [| split].
    - exact (insert_same_view nbase _ _ _ _ Ha Hb).
    - exact (insert_same_view (fun n => inputs (ncls n)) _ _ _ _ Ha Hi).
    - intros b Hb'. apply list_lookup_insert_ne. congruence. }
  unfold _update, underlying_future, get_future, emit, get.
  unfold bind, ret, raise. simpl.
  destruct (heap w !! a) as [[sb [|f|o]]|] eqn:Ha; simpl;
    try (repeat split; intros; reflexivity).
  - destruct (underlying sb) as [ua|]; simpl.
    + destruct (heap w !! ua) as [un|]; simpl;
        [| repeat split; intros; reflexivity].
      rewrite run_method_eq. simpl.
      eapply Hw; [reflexivity | reflexivity |].
      apply keeps_inputs_CurrencyFuture_update.
    + rewrite run_method_eq. simpl.
      eapply Hw; [reflexivity | reflexivity |].
      apply keeps_inputs_CurrencyFuture_update.
  - destruct (underlying sb) as [ua|]; simpl;
      [| repeat split; intros; reflexivity].
    destruct (heap w !! ua) as [[ub [|f|o']]|]; simpl;
      try (repeat split; intros; reflexivity).
    rewrite run_method_eq. simpl.
    eapply Hw; [reflexivity | reflexivity |].
    apply keeps_inputs_CurrencyFutureOption_update.
Qed.
End Recompute.

(** X1.  A recompute writes one object, the one it is called on, and of
    that object only modeled attributes: the base attributes of every
    object (quotes, mark, spread, symbols, links, clock, snapshot flag) and
    the given attributes of every object (rates and settlement of a future;
    type, strike, expiry and manual flag of an option) are what they were,
    whether the recompute returns or raises. *)
Theorem _update_writes_modeled_only E a w :
  nbase <$> heap (snd (_update E a w)) = nbase <$> heap w
  /\ (fun n => inputs (ncls n)) <$> heap (snd (_update E a w))
     = (fun n => inputs (ncls n)) <$> heap w
  /\ forall b, b <> a -> heap (snd (_update E a w)) !! b = heap w !! b.
Proof. exact (_update_frame E a w). Qed.

(** ** Quotes, mark and spread *)

(** What a mutation makes of the base attributes of its object. *)
Definition midpoint (bid ask : option R) : option R :=
  match bid, ask with
  | Some b, Some k => Some ((b + k) / 2)
  | _, _ => None
  end.

Definition difference (bid ask : option R) : option R :=
  match bid, ask with
  | Some b, Some k => Some (k - b)
  | _, _ => None
  end.

Definition base_after (m : mutation) (b : base) : base :=
  match m with
  | Quote bid ask =>
      with_mark_spread (midpoint bid ask) (difference bid ask)
        (with_ask ask (with_bid bid b))
  | SetBid (Some x) =>
      match _ask b with
      | Some k =>
          with_mark_spread (Some ((x + k) / 2)) (Some (k - x))
            (with_bid (Some x) b)
      | None => with_bid (Some x) b
      end
  | SetBid None => with_bid None b
  | SetAsk (Some k) =>
      match _bid b with
      | Some x =>
          with_mark_spread (Some ((x + k) / 2)) (Some (k - x))
            (with_ask (Some k) b)
      | None => with_ask (Some k) b
      end
  | SetAsk None => with_ask None b
  | SetNow t => with_now t b
  | SetRf _ | SetQf _ | SetVol _ => b
  end.

(** Whenever both sides are quoted, the mark is their midpoint and the
    spread their difference. *)
Definition midpoint_ok (b : base) : Prop :=
  forall x y, _bid b = Some x -> _ask b = Some y ->
    mark b = Some ((x + y) / 2) /\ spread b = Some (y - x).

(** A computation that changes no base attribute. *)
Definition keeps_bases {A} (m : M world A) : Prop :=
  forall w, nbase <$> heap (snd (m w)) = nbase <$> heap w.

Lemma keeps_bases_bind {A B} (m : M world A) (k : A -> M world B) :
  keeps_bases m -> (forall x, keeps_bases (k x)) -> keeps_bases (bind m k).
Proof.
  intros Hm Hk w. unfold bind. specialize (Hm w).
  destruct (m w) as [[x|e] w1]; simpl in *; [| exact Hm].
  now rewrite Hk.
Qed.

Lemma keeps_bases_ret {A} (x : A) : keeps_bases (ret x).
Proof. intros w. reflexivity. Qed.

Lemma keeps_bases_get a : keeps_bases (get a).
Proof. intros w. unfold get. now destruct (heap w !! a). Qed.

Lemma keeps_bases_for_each {A} (f : A -> M world unit) l :
  (forall x, keeps_bases (f x)) -> keeps_bases (for_each f l).
Proof.
  intros Hf. induction l as [|x l IH]; simpl.
  - apply keeps_bases_ret.
  - apply keeps_bases_bind; [apply Hf | intros _; exact IH].
Qed.

Lemma keeps_bases_modify_future a g : keeps_bases (modify_future a g).
Proof.
  intros w. unfold modify_future, bind, get, put, raise.
  destruct (heap w !! a) as [[sb [|f|o]]|] eqn:Ha; simpl; try reflexivity.
  eapply insert_same_view; [exact Ha | reflexivity].
Qed.

Lemma keeps_bases_modify_option a g : keeps_bases (modify_option a g).
Proof.
  intros w. unfold modify_option, bind, get, put, raise.
  destruct (heap w !! a) as [[sb [|f|o]]|] eqn:Ha; simpl; try reflexivity.
  eapply insert_same_view; [exact Ha | reflexivity].
Qed.

Lemma bind_keeps_bases {A B} (m : M world A) (k : A -> M world B) w :
  (forall x, keeps_bases (k x)) ->
  nbase <$> heap (snd (bind m k w)) = nbase <$> heap (snd (m w)).
Proof.
  intros Hk. unfold bind. destruct (m w) as [[x|e] w1]; simpl; [| reflexivity].
  apply Hk.
Qed.

Lemma modify_base_bases a g w n :
  heap w !! a = Some n ->
  nbase <$> heap (snd (modify_base a g w))
  = <[a := g (nbase n)]> (nbase <$> heap w).
Proof.
  intros Ha. destruct n as [sb c].
  rewrite (modify_base_ok a g w sb c Ha). simpl.
  now rewrite list_fmap_insert.
Qed.

Lemma bases_id (g : list node) (x : nat) n :
  g !! x = Some n -> <[x := nbase n]> (nbase <$> g) = nbase <$> g.
Proof. intros Hx. apply list_insert_id. now rewrite list_lookup_fmap, Hx. Qed.

Section Quotes.

Variable E : externals.

Lemma keeps_bases_update a : keeps_bases (_update E a).
Proof. intros w. exact (proj1 (_update_frame E a w)). Qed.

Lemma keeps_bases_alert a : keeps_bases (alert_derivatives E a).
Proof.
  unfold alert_derivatives.
  apply keeps_bases_bind; [apply keeps_bases_get |]. intros n.
  apply keeps_bases_for_each. intros d. apply keeps_bases_update.
Qed.

Lemma keeps_bases_recompute a :
  keeps_bases (_update E a ;;; alert_derivatives E a).
Proof.
  apply keeps_bases_bind; [apply keeps_bases_update |].
  intros _. apply keeps_bases_alert.
Qed.

Lemma writes_bases a m w n :
  cascades m = true -> heap w !! a = Some n ->
  nbase <$> heap (snd (writes a m w))
  = <[a := base_after m (nbase n)]> (nbase <$> heap w).
Proof.
  intros Hc Ha. destruct n as [sb c].
  assert (Hlt : (a < length (heap w))%nat) by (now apply lookup_lt_Some in Ha).
  assert (Hat : forall (l : list node) n, length l = length (heap w) ->
                  <[a := n]> l !! a = Some n).
  { intros l n Hl. apply list_lookup_insert_eq. now rewrite Hl. }
  destruct m as [b k|[b|]|[k|]|t|[x|]|[x|]|v]; try discriminate;
    unfold writes, base_after.
  - (* quote *)
    erewrite bind_ok by (exact (modify_base_ok _ _ _ _ _ Ha)).
    erewrite bind_ok.
    2:{ apply modify_base_ok. simpl. now apply Hat. }
    assert (H3 : forall g,
               nbase <$> heap (snd (modify_base a g
                 {| heap := <[a := {| nbase := with_ask k (with_bid b sb);
                                      ncls := c |}]>
                              (<[a := {| nbase := with_bid b sb; ncls := c |}]>
                                 (heap w));
                    log := log w |}))
               = <[a := g (with_ask k (with_bid b sb))]> (nbase <$> heap w)).
    { intros g. erewrite modify_base_bases.
      2:{ simpl. apply Hat. now rewrite length_insert. }
      simpl. rewrite !list_fmap_insert, !list_insert_insert_eq.
      reflexivity. }
    destruct b as [b|], k as [k|]; simpl; apply H3.
  - (* bid *)
    erewrite bind_ok by (exact (modify_base_ok _ _ _ _ _ Ha)).
    erewrite bind_ok by (apply get_ok; simpl; now apply Hat).
    simpl. destruct (_ask sb) as [k|]; simpl.
    + erewrite modify_base_bases by (simpl; now apply Hat).
      simpl. now rewrite !list_fmap_insert, !list_insert_insert_eq.
    + now rewrite list_fmap_insert.
  - (* ask *)
    erewrite bind_ok by (exact (modify_base_ok _ _ _ _ _ Ha)).
    erewrite bind_ok by (apply get_ok; simpl; now apply Hat).
    simpl. destruct (_bid sb) as [b|]; simpl.
    + erewrite modify_base_bases by (simpl; now apply Hat).
      simpl. now rewrite !list_fmap_insert, !list_insert_insert_eq.
    + now rewrite list_fmap_insert.
  - (* now *)
    now apply modify_base_bases.
  - (* rf *)
    rewrite keeps_bases_modify_future.
    symmetry. exact (bases_id _ _ _ Ha).
  - (* qf *)
    rewrite keeps_bases_modify_future.
    symmetry. exact (bases_id _ _ _ Ha).
Qed.

(** The base attributes after a mutation, whether it returns or raises:
    those of the other objects are unchanged, those of its object are given
    by [base_after]. *)
Lemma mutate_bases a m w n :
  heap w !! a = Some n ->
  nbase <$> heap (snd (mutate E a m w))
  = <[a := base_after m (nbase n)]> (nbase <$> heap w).
Proof.
  intros Ha.
  assert (Hid : nbase <$> heap w = <[a := nbase n]> (nbase <$> heap w)).
  { symmetry. exact (bases_id _ _ _ Ha). }
  destruct (cascades m) eqn:Hc.
  - rewrite (mutate_cascades E a m w Hc).
    rewrite bind_keeps_bases by (intros _; apply keeps_bases_recompute).
    now apply writes_bases.
  - destruct m as [b k|[b|]|[k|]|t|[x|]|[x|]|v]; try discriminate;
      unfold mutate, bid_setter, ask_setter, rf_setter, qf_setter, vol_setter,
        base_after.
    + now apply modify_base_bases.
    + now apply modify_base_bases.
    + rewrite keeps_bases_modify_future. exact Hid.
    + rewrite keeps_bases_modify_future. exact Hid.
    + rewrite <- Hid.
      apply keeps_bases_bind; [apply keeps_bases_modify_option |]. intros _.
      apply keeps_bases_bind; [apply keeps_bases_modify_option |]. intros _.
      apply keeps_bases_bind; [apply keeps_bases_update |]. intros _.
      apply keeps_bases_modify_option.
Qed.

End Quotes.

Lemma base_after_midpoint m b : midpoint_ok b -> midpoint_ok (base_after m b).
Proof.
  intros Hb x y.
  destruct m as [bid ask|[v|]|[v|]|t|rf|qf|v]; simpl; try exact (Hb x y).
  - destruct bid as [p|], ask as [q|]; simpl;
      intros [= <-] [= <-] || discriminate || (intros _; discriminate).
    split; reflexivity.
  - destruct (_ask b) as [k|] eqn:Hk; simpl.
    + intros [= <-]. rewrite Hk. intros [= <-]. split; reflexivity.
    + intros _. rewrite Hk. discriminate.
  - discriminate.
  - destruct (_bid b) as [k|] eqn:Hk; simpl.
    + rewrite Hk. intros [= <-] [= <-]. split; reflexivity.
    + rewrite Hk. discriminate.
  - intros _. discriminate.
Qed.

Lemma lookup_bases (g : list node) (x : nat) n :
  g !! x = Some n -> (nbase <$> g) !! x = Some (nbase n).
Proof. intros Hx. now rewrite list_lookup_fmap, Hx. Qed.

Lemma mutate_missing E a m w :
  heap w !! a = None -> mutate E a m w = (Raise AttributeError, w).
Proof.
  intros Ha.
  destruct m as [b k|[b|]|[k|]|t|[x|]|[x|]|v];
    unfold mutate, quote, bid_setter, ask_setter, now_setter, rf_setter,
      qf_setter, vol_setter, modify_base, modify_future, modify_option;
    unfold bind, get; rewrite Ha; reflexivity.
Qed.

(** X2.  [quote(bid, ask)] on an object stores both sides, makes the mark
    their midpoint and the spread their difference when both are numbers,
    and makes mark and spread None when a side is None; it changes no
    other base attribute of the object and no base attribute of another
    object.  This holds whether the recompute and the cascade that follow
    return or raise. *)
Theorem quote_sets_mark_and_spread E a bid ask w n :
  heap w !! a = Some n ->
  exists n',
    heap (snd (quote E a bid ask w)) !! a = Some n'
    /\ nbase n'
       = with_mark_spread (midpoint bid ask) (difference bid ask)
           (with_ask ask (with_bid bid (nbase n)))
    /\ forall b, b <> a ->
         nbase <$> (heap (snd (quote E a bid ask w)) !! b)
         = nbase <$> (heap w !! b).
Proof.
  intros Ha.
  pose proof (mutate_bases E a (Quote bid ask) w n Ha) as Hb.
  change (mutate E a (Quote bid ask) w) with (quote E a bid ask w) in Hb.
  simpl in Hb.
  assert (Hlt : (a < length (nbase <$> heap w))%nat)
    by (rewrite length_fmap; now apply lookup_lt_Some in Ha).
  assert (Hat : nbase <$> (heap (snd (quote E a bid ask w)) !! a)
                = Some (with_mark_spread (midpoint bid ask)
                          (difference bid ask)
                          (with_ask ask (with_bid bid (nbase n))))).
  { rewrite <- list_lookup_fmap, Hb. now apply list_lookup_insert_eq. }
  destruct (heap (snd (quote E a bid ask w)) !! a) as [n'|]; [| discriminate].
  exists n'. split; [reflexivity |]. split; [now injection Hat |].
  intros b Hne. rewrite <- !list_lookup_fmap, Hb.
  apply list_lookup_insert_ne. congruence.
Qed.

Lemma quote_sets_mark_and_spread_witness :
  exists n',
    heap (snd (quote sample_externals 0%nat (Some 3) (Some 5)
                 spot_and_future)) !! 0%nat = Some n'
    /\ _bid (nbase n') = Some 3 /\ _ask (nbase n') = Some 5
    /\ mark (nbase n') = Some ((3 + 5) / 2)
    /\ spread (nbase n') = Some (5 - 3).
Proof.
  destruct (quote_sets_mark_and_spread sample_externals 0%nat (Some 3)
              (Some 5) spot_and_future _ eq_refl) as (n' & Hn & Hb & _).
  exists n'. split; [exact Hn |]. rewrite Hb. repeat split.
Defined.

(** X3.  Over any sequence of mutations of any objects (quote, bid, ask,
    now, rate and volatility assignments), returning or raising, this
    stays true of every object: whenever both its bid and its ask are
    numbers, its mark is their midpoint and its spread their difference. *)
Theorem mutations_keep_midpoint E ms w :
  Forall midpoint_ok (nbase <$> heap w) ->
  Forall midpoint_ok (nbase <$> heap (run_mutations E ms w)).
Proof.
  revert w. induction ms as [|[a m] ms IH]; intros w Hw; [exact Hw |].
  unfold run_mutations in *. simpl. apply IH.
  destruct (heap w !! a) as [n|] eqn:Ha.
  - rewrite (mutate_bases E a m w n Ha).
    apply Forall_insert; [exact Hw |].
    apply base_after_midpoint.
    rewrite Forall_lookup in Hw. apply (Hw a).
    exact (lookup_bases _ _ _ Ha).
  - now rewrite (mutate_missing E a m w Ha).
Qed.

Lemma mutations_keep_midpoint_witness :
  Forall midpoint_ok
    (nbase <$> heap (run_mutations sample_externals
                       [ (0%nat, SetAsk None); (0%nat, SetBid (Some 3));
                         (1%nat, Quote (Some 4) (Some 6));
                         (0%nat, SetAsk (Some 5)) ]
                       spot_and_future)).
Proof.
  apply (mutations_keep_midpoint sample_externals). simpl.
  apply Forall_cons_2; [| apply Forall_cons_2; [| apply Forall_nil_2]];
    intros x y; simpl; try discriminate.
  intros [= <-] [= <-]. split; reflexivity.
Defined.

(** ** Who is recomputed *)

(** The objects a mutation of [a] recomputes, in order, when nothing
    raises: [a] and its derivatives for a cascading mutation, [a] alone for
    a volatility assignment, none for the assignment of None to a quote or
    a rate. *)
Definition recomputed (m : mutation) (a : addr) (ds : list addr) : list addr :=
  if cascades m then a :: ds
  else match m with
       | SetVol _ => [a]
       | _ => []
       end.

Section Recomputed.

Variable E : externals.

Lemma _update_filter a w :
  List.filter is_update (log (snd (_update E a w)))
  = List.filter is_update (log w) ++ [EvUpdate a].
Proof.
  destruct (_update_log E a w) as (l & -> & Hl).
  rewrite List.filter_app. simpl. now rewrite (filter_quiet l Hl).
Qed.

Lemma for_each_update_filter ds w w' :
  for_each (_update E) ds w = (Ok tt, w') ->
  List.filter is_update (log w')
  = List.filter is_update (log w) ++ map EvUpdate ds.
Proof.
  revert w. induction ds as [|d ds IH]; intros w; simpl.
  - intros [= <-]. now rewrite app_nil_r.
  - unfold bind. pose proof (_update_filter d w) as Hd.
    destruct (_update E d w) as [[[]|e] w1]; simpl in *; [| discriminate].
    intros H. rewrite (IH w1 H), Hd, <- app_assoc. reflexivity.
Qed.

Lemma base_after_derivatives m b :
  derivatives (base_after m b) = derivatives b.
Proof.
  destruct m as [bid ask|[v|]|[v|]|t|rf|qf|v]; simpl; try reflexivity.
  - now destruct (_ask b).
  - now destruct (_bid b).
Qed.

Lemma modify_option_log a g w : log (snd (modify_option a g w)) = log w.
Proof.
  unfold modify_option, bind, get, put, raise.
  destruct (heap w !! a) as [[sb [|f|o]]|]; reflexivity.
Qed.

Lemma modify_future_log a g w : log (snd (modify_future a g w)) = log w.
Proof.
  unfold modify_future, bind, get, put, raise.
  destruct (heap w !! a) as [[sb [|f|o]]|]; reflexivity.
Qed.

Lemma modify_base_log a g w : log (snd (modify_base a g w)) = log w.
Proof.
  unfold modify_base, bind, get, put.
  destruct (heap w !! a) as [n|]; reflexivity.
Qed.

Lemma mutate_recomputes a m w n w' :
  heap w !! a = Some n ->
  mutate E a m w = (Ok tt, w') ->
  List.filter is_update (log w')
  = List.filter is_update (log w)
    ++ map EvUpdate (recomputed m a (derivatives (nbase n))).
Proof.
  intros Ha Hm. unfold recomputed.
  destruct (cascades m) eqn:Hc.
  - rewrite (mutate_cascades E a m w Hc) in Hm.
    pose proof (writes_log a m w) as Hlog.
    pose proof (writes_bases a m w n Hc Ha) as Hb.
    unfold bind in Hm.
    destruct (writes a m w) as [[[]|e] w1]; simpl in *; [| discriminate].
    pose proof (_update_filter a w1) as Hu.
    pose proof (keeps_bases_update E a w1) as Hb1.
    destruct (_update E a w1) as [[[]|e] w2]; simpl in *; [| discriminate].
    unfold alert_derivatives, bind, get in Hm.
    assert (Hn2 : nbase <$> (heap w2 !! a)
                  = Some (base_after m (nbase n))).
    { rewrite <- list_lookup_fmap, Hb1, Hb.
      apply list_lookup_insert_eq. rewrite length_fmap.
      now apply lookup_lt_Some in Ha. }
    destruct (heap w2 !! a) as [n2|]; [| discriminate].
    simpl in Hn2. injection Hn2 as Hn2. simpl in Hm.
    rewrite (for_each_update_filter _ _ _ Hm), Hu, Hlog, Hn2.
    rewrite base_after_derivatives, <- app_assoc. reflexivity.
  - destruct m as [b k|[b|]|[k|]|t|[x|]|[x|]|v]; try discriminate;
      unfold mutate, bid_setter, ask_setter, rf_setter, qf_setter, vol_setter
        in Hm; simpl.
    + pose proof (modify_base_log a (with_bid None) w) as Hl.
      rewrite Hm in Hl. simpl in Hl. now rewrite Hl, app_nil_r.
    + pose proof (modify_base_log a (with_ask None) w) as Hl.
      rewrite Hm in Hl. simpl in Hl. now rewrite Hl, app_nil_r.
    + pose proof (modify_future_log a (with_rf None None) w) as Hl.
      rewrite Hm in Hl. simpl in Hl. now rewrite Hl, app_nil_r.
    + pose proof (modify_future_log a (with_qf None None) w) as Hl.
      rewrite Hm in Hl. simpl in Hl. now rewrite Hl, app_nil_r.
    + unfold bind in Hm.
      pose proof (modify_option_log a (with_vol v) w) as H1.
      destruct (modify_option a (with_vol v) w) as [[[]|e] w1];
        simpl in *; [| discriminate].
      pose proof (modify_option_log a (with_manual_vol true) w1) as H2.
      destruct (modify_option a (with_manual_vol true) w1) as [[[]|e] w2];
        simpl in *; [| discriminate].
      pose proof (_update_filter a w2) as H3.
      destruct (_update E a w2) as [[[]|e] w3]; simpl in *; [| discriminate].
      pose proof (modify_option_log a (with_manual_vol false) w3) as H4.
      rewrite Hm in H4. simpl in H4.
      now rewrite H4, H3, H2, H1.
Qed.

End Recomputed.

(** X4.  A mutation that returns recomputes, in this order and each once:
    its object and then each of the object's derivatives, when it is a
    quote, a clock assignment or the assignment of a number to bid, ask or
    a rate; its object alone when it is a volatility assignment; nothing
    when it assigns None to bid, ask or a rate. *)
Theorem mutation_recomputes E a m w n w' :
  heap w !! a = Some n ->
  mutate E a m w = (Ok tt, w') ->
  List.filter is_update (log w')
  = List.filter is_update (log w)
    ++ map EvUpdate (recomputed m a (derivatives (nbase n))).
Proof. exact (mutate_recomputes E a m w n w'). Qed.

Lemma mutation_recomputes_witness :
  List.filter is_update
    (log (snd (mutate sample_externals 0%nat (Quote (Some 3) (Some 5))
                 spot_and_future)))
  = [EvUpdate 0%nat; EvUpdate 1%nat].
Proof.
  refine (mutation_recomputes sample_externals 0%nat (Quote (Some 3) (Some 5))
            spot_and_future _ _ eq_refl _).
  reflexivity.
Defined.

(** ** The volatility setter *)

(** The guard of [CurrencyFutureOption._update]: rates and type present, a
    quote on the option and a mark on the underlying. *)
Definition has_inputs (sb ub : base) (f : future_attrs) (o : option_attrs)
  : bool :=
  is_number (ccr f) && is_number (ccq f)
  && (match otype o with Some _ => true | None => false end)
  && (is_number (_bid sb) || is_number (_ask sb))
  && is_number (mark ub).

Lemma lookup_insert_other (g : list node) (a y : addr) n :
  y <> a -> <[a := n]> g !! y = g !! y.
Proof. intros Hy. apply list_lookup_insert_ne. congruence. Qed.

Section ManualVolatility.

Variable E : externals.

(** The recompute of an option whose underlying is not a future raises
    AttributeError before it writes anything. *)
Lemma _update_option_cases a w sb o :
  heap w !! a = Some {| nbase := sb; ncls := CurrencyFutureOption o |} ->
  (exists ua ub f,
      underlying sb = Some ua
      /\ heap w !! ua = Some {| nbase := ub; ncls := CurrencyFuture f |})
  \/ _update E a w
     = (Raise AttributeError,
        {| heap := heap w; log := log w ++ [EvUpdate a] |}).
Proof.
  intros Ha.
  destruct (underlying sb) as [ua|] eqn:Hu.
  - destruct (heap w !! ua) as [[ub [|f|o2]]|] eqn:Hua.
    2:{ left. now exists ua, ub, f. }
    all: right;
      unfold _update, underlying_future, get_future, emit, get;
      unfold bind, ret, raise; simpl; rewrite Ha; simpl; rewrite Hu; simpl;
      now rewrite Hua.
  - right.
    unfold _update, underlying_future, get_future, emit, get.
    unfold bind, ret, raise. simpl. rewrite Ha. simpl. now rewrite Hu.
Qed.

(** With the manual flag set, the recompute of an option prices it when its
    inputs are present and does nothing otherwise; it calls neither the
    first guess nor the root-finder. *)
Lemma CurrencyFutureOption_update_flagged a sb ub f o :
  _manual_vol o = true ->
  CurrencyFutureOption_update E a sb ub f {| self := o; trace := [] |}
  = if has_inputs sb ub f o
    then (fst (priced E ub f o),
          {| self := snd (priced E ub f o); trace := [] |})
    else (Ok tt, {| self := o; trace := [] |}).
Proof.
  intros Hm. unfold has_inputs.
  destruct (is_number (ccr f) && is_number (ccq f)
            && (match otype o with Some _ => true | None => false end)
            && (is_number (_bid sb) || is_number (_ask sb))
            && is_number (mark ub)) eqn:Hg.
  - rewrite (CurrencyFutureOption_update_manual E a sb ub f
               {| self := o; trace := [] |} Hg Hm).
    now rewrite _calc_price_priced.
  - exact (CurrencyFutureOption_update_idle E a sb ub f
             {| self := o; trace := [] |} Hg).
Qed.

(** The attributes that the [vol] setter leaves on an option whose
    underlying future has the attributes [ub] and [f], and its outcome. *)
Definition vol_set (v : option R) (sb ub : base) (f : future_attrs)
    (o : option_attrs) : outcome unit * option_attrs :=
  let o2 := with_manual_vol true (with_vol v o) in
  if has_inputs sb ub f o2 then
    match fst (priced E ub f o2) with
    | Ok _ => (Ok tt, with_manual_vol false (snd (priced E ub f o2)))
    | Raise e => (Raise e, snd (priced E ub f o2))
    end
  else (Ok tt, with_manual_vol false o2).

Lemma vol_setter_on_future a v w sb o ua ub f :
  heap w !! a = Some {| nbase := sb; ncls := CurrencyFutureOption o |} ->
  underlying sb = Some ua ->
  heap w !! ua = Some {| nbase := ub; ncls := CurrencyFuture f |} ->
  vol_setter E a v w
  = (fst (vol_set v sb ub f o),
     {| heap := <[a := {| nbase := sb;
                          ncls := CurrencyFutureOption
                                    (snd (vol_set v sb ub f o)) |}]> (heap w);
        log := log w ++ [EvUpdate a] |}).
Proof.
  intros Ha Hu Hua.
  assert (Hlt : (a < length (heap w))%nat) by (now apply lookup_lt_Some in Ha).
  assert (Hne : ua <> a) by (intros ->; rewrite Ha in Hua; discriminate).
  set (o2 := with_manual_vol true (with_vol v o)).
  set (h2 := <[a := {| nbase := sb; ncls := CurrencyFutureOption o2 |}]>
               (<[a := {| nbase := sb;
                          ncls := CurrencyFutureOption (with_vol v o) |}]>
                  (heap w))).
  assert (H2a : h2 !! a = Some {| nbase := sb; ncls := CurrencyFutureOption o2 |}).
  { unfold h2. apply list_lookup_insert_eq. now rewrite length_insert. }
  assert (H2u : h2 !! ua = Some {| nbase := ub; ncls := CurrencyFuture f |}).
  { unfold h2. now rewrite !list_lookup_insert_ne by congruence. }
  unfold vol_setter.
  erewrite bind_ok by (exact (modify_option_ok _ _ _ _ _ Ha)).
  erewrite bind_ok.
  2:{ apply modify_option_ok. simpl. now apply list_lookup_insert_eq. }
  cbn [heap log]. fold o2. fold h2. unfold bind.
  rewrite (_update_option E a {| heap := h2; log := log w |} sb o2 ua ub f
             H2a Hu H2u).
  rewrite run_method_eq.
  rewrite (CurrencyFutureOption_update_flagged a sb ub f o2 eq_refl).
  unfold vol_set. fold o2.
  destruct (has_inputs sb ub f o2); cbn [fst snd self trace heap log].
  - destruct (fst (priced E ub f o2)) as [[]|e]; cbn [fst snd].
    + erewrite modify_option_ok.
      2:{ cbn [heap]. apply list_lookup_insert_eq. unfold h2.
          now rewrite !length_insert. }
      cbn [heap log]. unfold h2.
      now rewrite !list_insert_insert_eq, app_nil_r.
    + unfold h2. now rewrite !list_insert_insert_eq, app_nil_r.
  - erewrite modify_option_ok.
    2:{ cbn [heap]. apply list_lookup_insert_eq. unfold h2.
        now rewrite !length_insert. }
    cbn [heap log]. unfold h2.
    now rewrite !list_insert_insert_eq, app_nil_r.
Qed.

Lemma vol_set_keeps v sb ub f o :
  _vol (snd (vol_set v sb ub f o)) = v
  /\ _manual_vol (snd (vol_set v sb ub f o))
     = match fst (vol_set v sb ub f o) with
       | Ok _ => false
       | Raise _ => true
       end.
Proof.
  unfold vol_set.
  destruct (priced_keeps E ub f (with_manual_vol true (with_vol v o)))
    as (_ & _ & _ & Hv & Hm & _).
  destruct (has_inputs _ _ _ _); [| split; reflexivity].
  destruct (fst (priced E ub f _)) as [[]|e]; cbn [fst snd].
  - split; [| reflexivity]. simpl. exact Hv.
  - split; [exact Hv | exact Hm].
Qed.

Lemma vol_setter_run a v w sb o :
  heap w !! a = Some {| nbase := sb; ncls := CurrencyFutureOption o |} ->
  exists r o',
    vol_setter E a v w
    = (r, {| heap := <[a := {| nbase := sb;
                               ncls := CurrencyFutureOption o' |}]> (heap w);
             log := log w ++ [EvUpdate a] |})
    /\ _vol o' = v
    /\ _manual_vol o' = match r with Ok _ => false | Raise _ => true end.
Proof.
  intros Ha.
  assert (Hlt : (a < length (heap w))%nat) by (now apply lookup_lt_Some in Ha).
  destruct (underlying sb) as [ua|] eqn:Hu.
  - destruct (heap w !! ua) as [[ub [|f|o3]]|] eqn:Hua.
    2:{ exists (fst (vol_set v sb ub f o)), (snd (vol_set v sb ub f o)).
        split; [now apply (vol_setter_on_future a v w sb o ua ub f) |].
        apply vol_set_keeps. }
    all: exists (Raise AttributeError), (with_manual_vol true (with_vol v o));
      (split; [| split; reflexivity]);
      unfold vol_setter;
      erewrite bind_ok by (exact (modify_option_ok _ _ _ _ _ Ha));
      (erewrite bind_ok;
       [| apply modify_option_ok; simpl; now apply list_lookup_insert_eq]);
      cbn [heap log]; rewrite list_insert_insert_eq;
      apply bind_raise;
      unfold _update, underlying_future, get_future, emit, get;
      unfold bind, ret, raise; cbn [heap log];
      rewrite list_lookup_insert_eq by exact Hlt; cbn [nbase ncls];
      rewrite Hu; cbn [heap log];
      destruct (decide (ua = a)) as [->|Hne];
      [ rewrite list_lookup_insert_eq by exact Hlt; reflexivity
      | rewrite lookup_insert_other by exact Hne; rewrite Hua; reflexivity ].
  - exists (Raise AttributeError), (with_manual_vol true (with_vol v o)).
    split; [| split; reflexivity].
    unfold vol_setter.
    erewrite bind_ok by (exact (modify_option_ok _ _ _ _ _ Ha)).
    erewrite bind_ok.
    2:{ apply modify_option_ok. simpl. now apply list_lookup_insert_eq. }
    cbn [heap log]. rewrite list_insert_insert_eq.
    apply bind_raise.
    unfold _update, underlying_future, get_future, emit, get.
    unfold bind, ret, raise. cbn [heap log].
    rewrite list_lookup_insert_eq by exact Hlt. cbn [nbase ncls].
    now rewrite Hu.
Qed.

End ManualVolatility.

Lemma priced_ok E ub f o r q F v :
  ccr f = Some r -> ccq f = Some q ->
  is_call (otype o) || is_put (otype o) = true ->
  mark ub = Some F -> _vol o = Some v ->
  strike o <> 0 -> trading_days E <> 0 ->
  fst (priced E ub f o) = Ok tt
  /\ oprice (snd (priced E ub f o)) = black76_at E ub o r F v
  /\ gamma (ogreeks (snd (priced E ub f o)))
     = Some (calc_gamma E (exp ((- r) * r_tenor E ub o))
               (d_plus F (strike o) v (t_tenor E ub o)) F v (t_tenor E ub o))
  /\ vega (ogreeks (snd (priced E ub f o)))
     = Some (calc_vega E (exp ((- r) * r_tenor E ub o))
               (d_plus F (strike o) v (t_tenor E ub o)) F (t_tenor E ub o)).
Proof.
  intros Hr Hq Hcp HF Hv HK Htd.
  unfold priced, black76_at. rewrite Hr, HF, Hv, Hq, Hcp.
  destruct (Req_dec_T (strike o) 0) as [|_]; [contradiction |].
  destruct (Req_dec_T (trading_days E) 0) as [|_]; [contradiction |].
  cbn [andb fst snd]. simpl.
  assert (Hb : exists p, black76 E (otype o) (exp (- r * r_tenor E ub o)) F
                           (strike o)
                           (d_plus F (strike o) v (t_tenor E ub o))
                           (d_minus F (strike o) v (t_tenor E ub o)) = Some p).
  { unfold black76. destruct (is_call (otype o)); [eauto |].
    simpl in Hcp. rewrite Hcp. eauto. }
  destruct Hb as [p Hp]. rewrite Hp. repeat split; reflexivity.
Qed.

(** X5.  Assigning [vol] on an option stores the value and recomputes the
    option once, with the manual flag set: no first guess and no
    root-finder call is recorded, and no derivative is alerted.  The stored
    volatility is the assigned one afterwards.  The flag is reset when the
    recompute returns; when the recompute raises the setter raises and the
    flag stays set. *)
Theorem vol_setter_stores_volatility E a v w sb o :
  heap w !! a = Some {| nbase := sb; ncls := CurrencyFutureOption o |} ->
  exists r o',
    vol_setter E a v w
    = (r, {| heap := <[a := {| nbase := sb;
                               ncls := CurrencyFutureOption o' |}]> (heap w);
             log := log w ++ [EvUpdate a] |})
    /\ _vol o' = v
    /\ _manual_vol o' = match r with Ok _ => false | Raise _ => true end.
Proof. exact (vol_setter_run E a v w sb o). Qed.

Lemma vol_setter_stores_volatility_witness :
  exists r o',
    vol_setter sample_externals 1%nat (Some (2 / 10)) (future_and_call None)
    = (r, {| heap := <[1%nat := {| nbase := call_base;
                                   ncls := CurrencyFutureOption o' |}]>
                       (heap (future_and_call None));
             log := [EvUpdate 1%nat] |})
    /\ _vol o' = Some (2 / 10).
Proof.
  destruct (vol_setter_stores_volatility sample_externals 1%nat
              (Some (2 / 10)) (future_and_call None) call_base
              (call_attrs None) eq_refl) as (r & o' & H & Hv & _).
  exists r, o'. split; [exact H | exact Hv].
Defined.

(** X6.  On a call or a put with a nonzero strike, quoted on at least one
    side, whose underlying future has both rates and a mark, and with a
    nonzero count of trading days, assigning the volatility [v] returns,
    leaves the flag reset and prices the option at [v]: the model price is
    the Black-76 price at [v], and gamma and vega are those at [v]. *)
Theorem vol_setter_prices_at_volatility E a v w sb o ua ub f r q F :
  heap w !! a = Some {| nbase := sb; ncls := CurrencyFutureOption o |} ->
  underlying sb = Some ua ->
  heap w !! ua = Some {| nbase := ub; ncls := CurrencyFuture f |} ->
  ccr f = Some r -> ccq f = Some q ->
  is_call (otype o) || is_put (otype o) = true ->
  is_number (_bid sb) || is_number (_ask sb) = true ->
  mark ub = Some F ->
  strike o <> 0 -> trading_days E <> 0 ->
  exists o',
    vol_setter E a (Some v) w
    = (Ok tt,
       {| heap := <[a := {| nbase := sb;
                            ncls := CurrencyFutureOption o' |}]> (heap w);
          log := log w ++ [EvUpdate a] |})
    /\ _vol o' = Some v /\ _manual_vol o' = false
    /\ oprice o' = black76_at E ub o r F v
    /\ gamma (ogreeks o')
       = Some (calc_gamma E (exp ((- r) * r_tenor E ub o))
                 (d_plus F (strike o) v (t_tenor E ub o)) F v (t_tenor E ub o))
    /\ vega (ogreeks o')
       = Some (calc_vega E (exp ((- r) * r_tenor E ub o))
                 (d_plus F (strike o) v (t_tenor E ub o)) F (t_tenor E ub o)).
Proof.
  intros Ha Hu Hua Hr Hq Hcp Hba HF HK Htd.
  rewrite (vol_setter_on_future E a (Some v) w sb o ua ub f Ha Hu Hua).
  destruct (priced_ok E ub f (with_manual_vol true (with_vol (Some v) o))
              r q F v Hr Hq Hcp HF eq_refl HK Htd) as (Hok & Hp & Hg & Hve).
  assert (Hot : exists s, otype o = Some s).
  { destruct (otype o) as [s|]; [eauto | discriminate]. }
  destruct Hot as [s Hs].
  assert (Hin : has_inputs sb ub f (with_manual_vol true (with_vol (Some v) o))
                = true).
  { unfold has_inputs. simpl. now rewrite Hr, Hq, Hs, Hba, HF. }
  unfold vol_set. rewrite Hin, Hok. cbn [fst snd].
  eexists. split; [reflexivity |].
  destruct (priced_keeps E ub f (with_manual_vol true (with_vol (Some v) o)))
    as (_ & _ & _ & Hv & _).
  split; [exact Hv |]. split; [reflexivity |].
  split; [exact Hp |]. split; [exact Hg | exact Hve].
Qed.

Lemma vol_setter_prices_at_volatility_witness :
  exists o',
    vol_setter sample_externals 1%nat (Some (2 / 10)) (future_and_call None)
    = (Ok tt,
       {| heap := <[1%nat := {| nbase := call_base;
                                ncls := CurrencyFutureOption o' |}]>
                    (heap (future_and_call None));
          log := [EvUpdate 1%nat] |})
    /\ _vol o' = Some (2 / 10)
    /\ oprice o'
       = black76_at sample_externals future_base (call_attrs None) 0
           ((1 + 1) / 2) (2 / 10).
Proof.
  assert (HK : strike (call_attrs None) <> 0) by (simpl; lra).
  assert (Htd : trading_days sample_externals <> 0) by (simpl; lra).
  destruct (vol_setter_prices_at_volatility sample_externals 1%nat (2 / 10)
              (future_and_call None) call_base (call_attrs None) 0%nat
              future_base (rated 0 0 90%Z) 0 0 ((1 + 1) / 2)
              eq_refl eq_refl eq_refl eq_refl eq_refl eq_refl eq_refl eq_refl
              HK Htd) as (o' & H & Hv & _ & Hp & _).
  exists o'. split; [exact H |]. split; [exact Hv | exact Hp].
Defined.

(** ** Calls and puts *)

(** X7.  With a distribution function symmetric about zero, the Black-76
    prices and the Greeks that [_calc_price] computes for a call and for a
    put from the same inputs satisfy put-call parity: the prices differ by
    the discounted distance from forward to strike, the deltas by the
    discount factor, the thetas by the daily carry of that distance, the
    rhos by strike times tenor times discount factor, and the epsilons by
    minus tenor times forward times the foreign discount factor. *)
Theorem put_call_parity E D F K dp dm vol T Tr r q old :
  (forall x, norm_cdf E (- x) = 1 - norm_cdf E x) ->
  exists c p dc dp' tc tp rc rp ec ep,
    black76 E (Some "call"%string) D F K dp dm = Some c
    /\ black76 E (Some "put"%string) D F K dp dm = Some p
    /\ c - p = D * (F - K)
    /\ calc_delta E (Some "call"%string) D dp old = Some dc
    /\ calc_delta E (Some "put"%string) D dp old = Some dp'
    /\ dc - dp' = D
    /\ calc_theta E (Some "call"%string) D dp dm F vol T r K old = Some tc
    /\ calc_theta E (Some "put"%string) D dp dm F vol T r K old = Some tp
    /\ tc - tp = r * (D * (F - K)) * (1 / trading_days E)
    /\ calc_rho E (Some "call"%string) D dm K Tr old = Some rc
    /\ calc_rho E (Some "put"%string) D dm K Tr old = Some rp
    /\ rc - rp = K * Tr * D
    /\ calc_epsilon E (Some "call"%string) dp F Tr q old = Some ec
    /\ calc_epsilon E (Some "put"%string) dp F Tr q old = Some ep
    /\ ec - ep = - Tr * F * exp ((- q) * Tr).
Proof.
  intros Hsym.
  unfold black76, calc_delta, calc_theta, calc_rho, calc_epsilon. simpl.
  do 10 eexists.
  repeat (split; [reflexivity |]).
  split; [rewrite !Hsym; ring |].
  repeat (split; [reflexivity |]).
  split; [ring |].
  repeat (split; [reflexivity |]).
  split; [rewrite !Hsym; ring |].
  repeat (split; [reflexivity |]).
  split; [rewrite !Hsym; ring |].
  repeat (split; [reflexivity |]).
  rewrite !Hsym; ring.
Qed.

Lemma put_call_parity_witness :
  exists c p,
    black76 sample_externals (Some "call"%string) 1 3 2 0 0 = Some c
    /\ black76 sample_externals (Some "put"%string) 1 3 2 0 0 = Some p
    /\ c - p = 1 * (3 - 2).
Proof.
  assert (Hsym : forall x, norm_cdf sample_externals (- x)
                           = 1 - norm_cdf sample_externals x)
    by (intros x; simpl; lra).
  destruct (put_call_parity sample_externals 1 3 2 0 0 1 1 1 0 0 None Hsym)
    as (c & p & _ & _ & _ & _ & _ & _ & _ & _ & Hc & Hp & Hcp & _).
  exists c, p. split; [exact Hc |]. split; [exact Hp | exact Hcp].
Defined.

(** ** The cost of carry of a future *)

Lemma carry_rate (x y T um : R) :
  -360 < x -> -360 < y -> 0 < um -> T <> 0 ->
  (exp (ln (um * exp ((360 * ln (1 + x / 360) - 360 * ln (1 + y / 360)) * T)
              / um) / T / 360) - 1) * 360
  = ((1 + x / 360) / (1 + y / 360) - 1) * 360.
Proof.
  intros Hx Hy Hum HT.
  assert (Hx' : 0 < 1 + x / 360) by lra.
  assert (Hy' : 0 < 1 + y / 360) by lra.
  replace (um * exp ((360 * ln (1 + x / 360) - 360 * ln (1 + y / 360)) * T)
           / um)
    with (exp ((360 * ln (1 + x / 360) - 360 * ln (1 + y / 360)) * T))
    by (field; lra).
  rewrite ln_exp.
  replace ((360 * ln (1 + x / 360) - 360 * ln (1 + y / 360)) * T / T / 360)
    with (ln (1 + x / 360) - ln (1 + y / 360)) by (field; exact HT).
  replace (ln (1 + x / 360) - ln (1 + y / 360))
    with (ln (1 + x / 360) + - ln (1 + y / 360)) by ring.
  rewrite exp_plus, exp_Ropp, !exp_ln by assumption.
  reflexivity.
Qed.

(** X8.  A future whose quoted mark is the forward of its underlying's
    mark, at the continuously compounded rates that the rate setters derive
    from the simple rates [x] and [y], recomputes without raising and
    stores as annualized cost of carry the simple-rate differential
    [360 * ((1 + x/360) / (1 + y/360) - 1)]: the conversion of the setters
    is undone by the conversion of the carry. *)
Theorem carry_recovers_rate_differential E a w sb f ua un x y s um :
  heap w !! a = Some {| nbase := sb; ncls := CurrencyFuture f |} ->
  underlying sb = Some ua ->
  heap w !! ua = Some un ->
  ccr f = Some (360 * ln (1 + x / 360)) ->
  ccq f = Some (360 * ln (1 + y / 360)) ->
  settle f = Some s ->
  -360 < x -> -360 < y ->
  mark (nbase un) = Some um -> 0 < um ->
  future_r_tenor E sb s <> 0 ->
  mark sb = Some (um * exp ((360 * ln (1 + x / 360) - 360 * ln (1 + y / 360))
                            * future_r_tenor E sb s)) ->
  exists f',
    _update E a w
    = (Ok tt,
       {| heap := <[a := {| nbase := sb; ncls := CurrencyFuture f' |}]> (heap w);
          log := log w ++ [EvUpdate a] |})
    /\ carry f' = Some (((1 + x / 360) / (1 + y / 360) - 1) * 360).
Proof.
  intros Ha Hu Hua Hr Hq Hs Hx Hy Hum Hpos HT Hm.
  rewrite (_update_future E a w sb f ua un Ha Hu Hua), run_method_eq.
  unfold CurrencyFuture_update, bind, read, assign, ret, raise.
  cbn [self trace fst snd]. rewrite Hr, Hq, Hs. cbn [self trace fst snd].
  rewrite Hum, Hm.
  destruct (Req_dec_T um 0) as [H0|_]; [lra |].
  cbn [fst snd self trace heap log].
  eexists. split; [now rewrite app_nil_r |].
  cbn [carry with_carry]. f_equal.
  now apply carry_rate.
Qed.

(** A spot at 0 quoted 1 / 2 and, at 1, a future on it with flat rates
    whose mark is the forward of the spot's mark. *)
Definition fair_future_base : base :=
  quoted None None
    (Some ((1 + 2) / 2
           * exp ((360 * ln (1 + 0 / 360) - 360 * ln (1 + 0 / 360))
                  * (IZR (90 - 0) / 360))))
    None (Some 0%nat) [].

Definition spot_and_fair_future : world :=
  {| heap :=
       [ {| nbase := quoted (Some 1) (Some 2) (Some ((1 + 2) / 2))
                       (Some (2 - 1)) None [1%nat];
            ncls := FXSpot |};
         {| nbase := fair_future_base;
            ncls := CurrencyFuture
                      {| _rf := Some 0; ccr := Some (360 * ln (1 + 0 / 360));
                         _qf := Some 0; ccq := Some (360 * ln (1 + 0 / 360));
                         settle := Some 90%Z; carry := None;
                         fprice := null_prices |} |} ];
     log := [] |}.

Lemma carry_recovers_rate_differential_witness :
  exists f',
    heap (snd (_update sample_externals 1%nat spot_and_fair_future)) !! 1%nat
    = Some {| nbase := fair_future_base; ncls := CurrencyFuture f' |}
    /\ carry f' = Some (((1 + 0 / 360) / (1 + 0 / 360) - 1) * 360).
Proof.
  assert (Hx : -360 < 0) by lra.
  assert (Hum : 0 < (1 + 2) / 2) by lra.
  assert (HT : IZR (90 - 0) / 360 <> 0)
    by (change (IZR (90 - 0)) with 90; lra).
  destruct (carry_recovers_rate_differential sample_externals 1%nat
              spot_and_fair_future fair_future_base _ 0%nat _ 0 0 90%Z
              ((1 + 2) / 2)
              eq_refl eq_refl eq_refl eq_refl eq_refl eq_refl Hx Hx eq_refl
              Hum HT eq_refl) as (f' & H & Hc).
  exists f'. rewrite H. split; [reflexivity | exact Hc].
Defined.

(** ** The quote stream

    [BaseInstrument._attach_stream]: while the stream is alive and the
    object is not a snapshot, the coroutine pulls the quotes of the
    object's symbol and assigns the sides that are numbers and differ from
    the stored ones.  What the stream shows at one poll is a [tick]; a
    stream is the list of the ticks it shows while it is alive.  A side of
    a tick that is not a number is None. *)

Record tick := { bidPrice : option R; askPrice : option R }.

(** [newBid] and [newAsk]: the side of the tick when it is a number and
    the stored side is None or another number. *)
Definition new_side (shown stored : option R) : option R :=
  match shown with
  | Some x =>
      match stored with
      | None => Some x
      | Some y => if Req_dec_T x y then None else Some x
      end
  | None => None
  end.

Section Stream.

Variable E : externals.

(** The body of the loop, between the two sleeps. *)
Definition poll (a : addr) (q : tick) : M world unit :=
  n <- get a ;;
  match new_side (bidPrice q) (_bid (nbase n)),
        new_side (askPrice q) (_ask (nbase n)) with
  | Some b, Some k => quote E a (Some b) (Some k)
  | Some b, None => bid_setter E a (Some b)
  | None, Some k => ask_setter E a (Some k)
  | None, None => ret tt
  end.

Fixpoint _attach_stream (a : addr) (ticks : list tick) : M world unit :=
  match ticks with
  | [] => ret tt
  | q :: rest =>
      n <- get a ;;
      if isSnapshot (nbase n) then ret tt
      else poll a q ;;; _attach_stream a rest
  end.

End Stream.

(** What a poll makes of the base attributes of its object. *)
Definition polled (q : tick) (b : base) : base :=
  match new_side (bidPrice q) (_bid b), new_side (askPrice q) (_ask b) with
  | Some x, Some y => base_after (Quote (Some x) (Some y)) b
  | Some x, None => base_after (SetBid (Some x)) b
  | None, Some y => base_after (SetAsk (Some y)) b
  | None, None => b
  end.

Lemma new_side_same x : new_side (Some x) (Some x) = None.
Proof. simpl. destruct (Req_dec_T x x); [reflexivity | contradiction]. Qed.

Lemma new_side_none shown stored x :
  new_side shown stored = Some x -> shown = Some x.
Proof.
  destruct shown as [s|], stored as [t|]; simpl; try discriminate;
    [destruct (Req_dec_T s t); [discriminate | tauto] | tauto].
Qed.

Lemma new_side_stored shown stored :
  new_side shown stored = None ->
  forall x, shown = Some x -> stored = Some x.
Proof.
  destruct shown as [s|], stored as [t|]; simpl;
    try discriminate; try (intros _ x; discriminate).
  destruct (Req_dec_T s t) as [->|]; [| discriminate].
  intros _ x [= <-]. reflexivity.
Qed.

(** After a poll the stored sides are those of the tick, where the tick
    shows numbers. *)
Lemma polled_sides q b :
  (forall x, bidPrice q = Some x -> _bid (polled q b) = Some x)
  /\ (forall y, askPrice q = Some y -> _ask (polled q b) = Some y)
  /\ (bidPrice q = None -> _bid (polled q b) = _bid b)
  /\ (askPrice q = None -> _ask (polled q b) = _ask b).
Proof.
  unfold polled.
  destruct (new_side (bidPrice q) (_bid b)) as [x|] eqn:Hb,
           (new_side (askPrice q) (_ask b)) as [y|] eqn:Hk; simpl.
  - apply new_side_none in Hb, Hk. rewrite Hb, Hk.
    repeat split; intros; congruence.
  - apply new_side_none in Hb. pose proof (new_side_stored _ _ Hk) as Hk'.
    rewrite Hb.
    destruct (_ask b) as [k|] eqn:Hask; simpl;
      (split; [intros; congruence |]); (split; [| split]);
      try (intros; congruence); try (intros y Hy; rewrite (Hk' y Hy); congruence).
    + intros y Hy. specialize (Hk' y Hy). congruence.
    + intros y Hy. specialize (Hk' y Hy). congruence.
  - apply new_side_none in Hk. pose proof (new_side_stored _ _ Hb) as Hb'.
    rewrite Hk.
    destruct (_bid b) as [k|] eqn:Hbid; simpl;
      (split; [intros x Hx; specialize (Hb' x Hx); congruence |]);
      (split; [intros; congruence |]); split; intros; congruence.
  - pose proof (new_side_stored _ _ Hb) as Hb'.
    pose proof (new_side_stored _ _ Hk) as Hk'.
    repeat split; auto.
Qed.

Lemma polled_midpoint q b : midpoint_ok b -> midpoint_ok (polled q b).
Proof.
  intros Hb. unfold polled.
  destruct (new_side _ _), (new_side _ _);
    try apply base_after_midpoint; exact Hb.
Qed.

Lemma polled_flag q b : isSnapshot (polled q b) = isSnapshot b.
Proof.
  unfold polled.
  destruct (new_side _ _), (new_side _ _); simpl; try reflexivity.
  - now destruct (_ask b).
  - now destruct (_bid b).
Qed.

Lemma polled_twice q b : polled q (polled q b) = polled q b.
Proof.
  destruct (polled_sides q b) as (Hb & Hk & Hb0 & Hk0).
  assert (H1 : new_side (bidPrice q) (_bid (polled q b)) = None).
  { destruct (bidPrice q) as [x|]; [| reflexivity].
    rewrite (Hb x eq_refl). apply new_side_same. }
  assert (H2 : new_side (askPrice q) (_ask (polled q b)) = None).
  { destruct (askPrice q) as [y|]; [| reflexivity].
    rewrite (Hk y eq_refl). apply new_side_same. }
  unfold polled at 1. now rewrite H1, H2.
Qed.

Section StreamFacts.

Variable E : externals.

Lemma poll_bases a q w n :
  heap w !! a = Some n ->
  nbase <$> heap (snd (poll E a q w))
  = <[a := polled q (nbase n)]> (nbase <$> heap w).
Proof.
  intros Ha. unfold poll, polled.
  erewrite bind_ok by (apply get_ok; exact Ha).
  destruct (new_side _ _) as [x|], (new_side _ _) as [y|].
  - exact (mutate_bases E a (Quote (Some x) (Some y)) w n Ha).
  - exact (mutate_bases E a (SetBid (Some x)) w n Ha).
  - exact (mutate_bases E a (SetAsk (Some y)) w n Ha).
  - simpl. symmetry. exact (bases_id _ _ _ Ha).
Qed.

(** A poll that shows what is stored assigns nothing. *)
Lemma poll_nothing_new a q w n :
  heap w !! a = Some n ->
  new_side (bidPrice q) (_bid (nbase n)) = None ->
  new_side (askPrice q) (_ask (nbase n)) = None ->
  poll E a q w = (Ok tt, w).
Proof.
  intros Ha Hb Hk. unfold poll.
  erewrite bind_ok by (apply get_ok; exact Ha).
  now rewrite Hb, Hk.
Qed.

Lemma poll_again a q w n :
  heap w !! a = Some n ->
  poll E a q (snd (poll E a q w)) = (Ok tt, snd (poll E a q w)).
Proof.
  intros Ha.
  pose proof (poll_bases a q w n Ha) as Hb.
  assert (Hat : nbase <$> (heap (snd (poll E a q w)) !! a)
                = Some (polled q (nbase n))).
  { rewrite <- list_lookup_fmap, Hb. apply list_lookup_insert_eq.
    rewrite length_fmap. now apply lookup_lt_Some in Ha. }
  destruct (heap (snd (poll E a q w)) !! a) as [n1|] eqn:Hn1; [| discriminate].
  simpl in Hat. injection Hat as Hat.
  destruct (polled_sides q (nbase n)) as (Hbid & Hask & _).
  apply (poll_nothing_new a q _ n1 Hn1); rewrite Hat.
  - destruct (bidPrice q) as [x|]; [| reflexivity].
    rewrite (Hbid x eq_refl). apply new_side_same.
  - destruct (askPrice q) as [y|]; [| reflexivity].
    rewrite (Hask y eq_refl). apply new_side_same.
Qed.

End StreamFacts.

(** X9.  A poll of the stream that shows the same quotes as the poll before
    it assigns nothing and recomputes nothing: run again on the state the
    first poll left, whether that poll returned or raised, the body of the
    loop returns and leaves the arena and the record of calls as they
    are. *)
Theorem poll_twice_is_poll_once E a q w n :
  heap w !! a = Some n ->
  poll E a q (snd (poll E a q w)) = (Ok tt, snd (poll E a q w)).
Proof. exact (poll_again E a q w n). Qed.

Lemma poll_twice_is_poll_once_witness :
  poll sample_externals 0%nat {| bidPrice := Some 3; askPrice := Some 5 |}
    (snd (poll sample_externals 0%nat
            {| bidPrice := Some 3; askPrice := Some 5 |} spot_and_future))
  = (Ok tt,
     snd (poll sample_externals 0%nat
            {| bidPrice := Some 3; askPrice := Some 5 |} spot_and_future)).
Proof.
  exact (poll_twice_is_poll_once sample_externals 0%nat
           {| bidPrice := Some 3; askPrice := Some 5 |} spot_and_future _
           eq_refl).
Defined.

Section StreamEnd.

Variable E : externals.

Lemma poll_node a q w n :
  heap w !! a = Some n ->
  exists n1, heap (snd (poll E a q w)) !! a = Some n1
             /\ nbase n1 = polled q (nbase n).
Proof.
  intros Ha.
  pose proof (poll_bases E a q w n Ha) as Hb.
  assert (Hat : nbase <$> (heap (snd (poll E a q w)) !! a)
                = Some (polled q (nbase n))).
  { rewrite <- list_lookup_fmap, Hb. apply list_lookup_insert_eq.
    rewrite length_fmap. now apply lookup_lt_Some in Ha. }
  destruct (heap (snd (poll E a q w)) !! a) as [n1|]; [| discriminate].
  exists n1. split; [reflexivity | now injection Hat].
Qed.

Lemma _attach_stream_last a ticks q w n w' x y :
  heap w !! a = Some n ->
  isSnapshot (nbase n) = false ->
  midpoint_ok (nbase n) ->
  bidPrice q = Some x -> askPrice q = Some y ->
  _attach_stream E a (ticks ++ [q]) w = (Ok tt, w') ->
  exists n',
    heap w' !! a = Some n'
    /\ _bid (nbase n') = Some x /\ _ask (nbase n') = Some y
    /\ mark (nbase n') = Some ((x + y) / 2)
    /\ spread (nbase n') = Some (y - x).
Proof.
  intros Ha Hf Hm Hx Hy. revert w n Ha Hf Hm.
  induction ticks as [|t ticks IH]; intros w n Ha Hf Hm; simpl;
    (erewrite bind_ok by (apply get_ok; exact Ha)); rewrite Hf; unfold bind.
  - destruct (poll_node a q w n Ha) as (n1 & Hn1 & Hb1).
    destruct (poll E a q w) as [[[]|e] w1]; simpl in *; [| discriminate].
    intros [= <-]. exists n1. split; [exact Hn1 |].
    destruct (polled_sides q (nbase n)) as (Hbid & Hask & _).
    rewrite Hb1. specialize (Hbid x Hx). specialize (Hask y Hy).
    split; [exact Hbid |]. split; [exact Hask |].
    exact (polled_midpoint q (nbase n) Hm x y Hbid Hask).
  - destruct (poll_node a t w n Ha) as (n1 & Hn1 & Hb1).
    destruct (poll E a t w) as [[[]|e] w1]; simpl in *; [| discriminate].
    apply (IH w1 n1 Hn1).
    + now rewrite Hb1, polled_flag.
    + rewrite Hb1. now apply polled_midpoint.
Qed.

Lemma _attach_stream_flagged a ticks w n :
  heap w !! a = Some n -> isSnapshot (nbase n) = true ->
  _attach_stream E a ticks w = (Ok tt, w).
Proof.
  intros Ha Hf. destruct ticks as [|q rest]; [reflexivity |]. simpl.
  erewrite bind_ok by (apply get_ok; exact Ha). now rewrite Hf.
Qed.

End StreamEnd.

(** X10.  When the coroutine of an object that is not a snapshot returns
    after a stream whose last tick shows two numbers, the object holds that
    tick: its bid and ask are the numbers shown, its mark their midpoint
    and its spread their difference, provided its mark and spread agreed
    with its quotes when the stream was attached. *)
Theorem stream_delivers_last_quote E a ticks q w n w' x y :
  heap w !! a = Some n ->
  isSnapshot (nbase n) = false ->
  midpoint_ok (nbase n) ->
  bidPrice q = Some x -> askPrice q = Some y ->
  _attach_stream E a (ticks ++ [q]) w = (Ok tt, w') ->
  exists n',
    heap w' !! a = Some n'
    /\ _bid (nbase n') = Some x /\ _ask (nbase n') = Some y
    /\ mark (nbase n') = Some ((x + y) / 2)
    /\ spread (nbase n') = Some (y - x).
Proof. exact (_attach_stream_last E a ticks q w n w' x y). Qed.

Lemma stream_delivers_last_quote_witness :
  exists n',
    heap (snd (_attach_stream sample_externals 0%nat
                 ([ {| bidPrice := Some 3; askPrice := None |} ]
                  ++ [ {| bidPrice := Some 3; askPrice := Some 5 |} ])
                 lone_future)) !! 0%nat = Some n'
    /\ _bid (nbase n') = Some 3 /\ _ask (nbase n') = Some 5
    /\ mark (nbase n') = Some ((3 + 5) / 2)
    /\ spread (nbase n') = Some (5 - 3).
Proof.
  assert (Hm : midpoint_ok (quoted None None None None None []))
    by (intros x y; discriminate).
  assert (Hrun : fst (_attach_stream sample_externals 0%nat
                        ([ {| bidPrice := Some 3; askPrice := None |} ]
                         ++ [ {| bidPrice := Some 3; askPrice := Some 5 |} ])
                        lone_future) = Ok tt).
  { cbn. unfold poll, bind, get. cbn.
    destruct (Req_dec_T 3 3) as [_|H]; [reflexivity | contradiction]. }
  destruct (_attach_stream sample_externals 0%nat _ lone_future)
    as [r w'] eqn:Hw.
  simpl in Hrun. subst r.
  exact (stream_delivers_last_quote sample_externals 0%nat
           [ {| bidPrice := Some 3; askPrice := None |} ]
           {| bidPrice := Some 3; askPrice := Some 5 |}
           lone_future _ w' 3 5 eq_refl eq_refl Hm eq_refl eq_refl Hw).
Defined.

(** ** The flags of a snapshot *)

(** The objects whose copies [snapshot] flags: the object itself, its
    underlying and its derivatives. *)
Definition flagged_by (a : addr) (na : base) (i : addr) : bool :=
  Nat.eqb i a
  || match underlying na with
     | Some u => Nat.eqb i u
     | None => false
     end
  || existsb (Nat.eqb i) (derivatives na).

Section SnapshotFlags.

Variable w : world.

Let k := length (heap w).

(** The arenas that the flagging goes through: the originals as they were,
    and behind them the copies, those of the objects of [S] flagged and the
    others with the flag of their original. *)
Definition marked (S : list addr) (h : list node) : Prop :=
  length h = (k + k)%nat
  /\ (forall i, (i < k)%nat -> h !! i = heap w !! i)
  /\ (forall i n, heap w !! i = Some n ->
        h !! (k + i)%nat
        = Some {| nbase := with_isSnapshot
                             (existsb (Nat.eqb i) S || isSnapshot (nbase n))
                             (nbase (relocate k n));
                  ncls := ncls n |}).

Lemma marked_deepcopy : marked [] (heap w ++ map (relocate k) (heap w)).
Proof.
  split; [| split].
  - rewrite length_app, length_map. reflexivity.
  - intros i Hi. now apply lookup_app_l.
  - intros i n Hn. simpl.
    rewrite lookup_app_r by (unfold k; lia).
    replace (k + i - length (heap w))%nat with i by (unfold k; lia).
    change (map (relocate k) (heap w)) with (relocate k <$> heap w).
    rewrite list_lookup_fmap, Hn. reflexivity.
Qed.

Lemma marked_flag S w1 i :
  marked S (heap w1) -> (i < k)%nat ->
  exists w2, modify_base (k + i)%nat (with_isSnapshot true) w1 = (Ok tt, w2)
             /\ marked (i :: S) (heap w2) /\ log w2 = log w1.
Proof.
  intros (Hlen & Hlo & Hhi) Hi.
  destruct (heap w !! i) as [n|] eqn:Hn;
    [| apply lookup_ge_None in Hn; unfold k in Hi; lia].
  pose proof (Hhi i n Hn) as Hb.
  eexists. split; [exact (modify_base_ok _ _ _ _ _ Hb) |]. simpl.
  split; [| reflexivity]. split; [| split].
  - now rewrite length_insert.
  - intros j Hj. rewrite list_lookup_insert_ne by lia. now apply Hlo.
  - intros j m Hm. destruct (Nat.eqb j i) eqn:Hji.
    + apply Nat.eqb_eq in Hji. subst j.
      rewrite Hn in Hm. injection Hm as <-.
      rewrite list_lookup_insert_eq by (rewrite Hlen; lia).
      simpl. now rewrite Nat.eqb_refl.
    + simpl. rewrite Hji. apply Nat.eqb_neq in Hji.
      rewrite list_lookup_insert_ne by lia. now apply Hhi.
Qed.

Lemma marked_flag_all l S w1 :
  marked S (heap w1) -> Forall (fun i => (i < k)%nat) l ->
  exists w2,
    for_each (fun d => modify_base d (with_isSnapshot true))
      (map (Nat.add k) l) w1 = (Ok tt, w2)
    /\ marked (rev l ++ S) (heap w2) /\ log w2 = log w1.
Proof.
  revert S w1. induction l as [|i l IH]; intros S w1 Hm Hl; simpl.
  - exists w1. split; [reflexivity |]. split; [exact Hm | reflexivity].
  - inversion Hl as [|? ? Hi Hl']; subst.
    destruct (marked_flag S w1 i Hm Hi) as (w2 & H2 & Hm2 & Hlog2).
    destruct (IH (i :: S) w2 Hm2 Hl') as (w3 & H3 & Hm3 & Hlog3).
    exists w3. unfold bind. rewrite H2. simpl. rewrite H3.
    split; [reflexivity |]. split; [| congruence].
    now rewrite <- app_assoc.
Qed.

Lemma existsb_reversed {A} (f : A -> bool) l :
  existsb f (rev l) = existsb f l.
Proof.
  induction l as [|x l IH]; [reflexivity |]. simpl.
  rewrite existsb_app, IH. simpl. rewrite orb_false_r. apply orb_comm.
Qed.

Lemma existsb_flagged a na i :
  existsb (Nat.eqb i)
    (rev (derivatives na)
     ++ match underlying na with Some u => [u; a] | None => [a] end)
  = flagged_by a na i.
Proof.
  unfold flagged_by. rewrite existsb_app, existsb_reversed.
  change (@existsb addr) with (@existsb nat).
  destruct (underlying na) as [u|]; simpl;
    match goal with
    | |- context [existsb ?f ?l] => generalize (existsb f l)
    end.
  - destruct (Nat.eqb i a), (Nat.eqb i u); intros []; reflexivity.
  - destruct (Nat.eqb i a); intros []; reflexivity.
Qed.

Lemma snapshot_marked a na :
  well_formed (heap w) ->
  heap w !! a = Some na ->
  exists w1,
    snapshot a w = (Ok (k + a)%nat, w1)
    /\ marked (rev (derivatives (nbase na))
               ++ match underlying (nbase na) with
                  | Some u => [u; a]
                  | None => [a]
                  end) (heap w1).
Proof.
  intros Hwf Hna.
  assert (Ha : (a < k)%nat) by (now apply lookup_lt_Some in Hna).
  unfold snapshot, deepcopy. unfold bind at 1. fold k.
  set (w0 := {| heap := heap w ++ map (relocate k) (heap w); log := log w |}).
  destruct (marked_flag [] w0 a marked_deepcopy Ha) as (w1 & Hm1 & Hc1 & _).
  unfold bind at 1. rewrite Hm1. simpl.
  pose proof (proj2 (proj2 Hc1) a na Hna) as Hn1.
  unfold bind at 1. rewrite (get_ok _ _ _ Hn1). simpl.
  destruct (Hwf a na Hna) as [Hu Hd].
  assert (Hds : Forall (fun i => (i < k)%nat) (derivatives (nbase na))).
  { apply List.Forall_forall. intros d Hin. apply Hd. exact Hin. }
  destruct (underlying (nbase na)) as [u|] eqn:Hua; simpl.
  - destruct (marked_flag [a] w1 u Hc1 (Hu u eq_refl)) as (w2 & Hm2 & Hc2 & _).
    destruct (marked_flag_all _ [u; a] w2 Hc2 Hds) as (w3 & Hm3 & Hc3 & _).
    exists w3. unfold bind at 1. unfold bind at 1. rewrite Hm2. simpl.
    unfold bind. rewrite Hm3. simpl. unfold ret.
    split; [reflexivity | exact Hc3].
  - destruct (marked_flag_all _ [a] w1 Hc1 Hds) as (w3 & Hm3 & Hc3 & _).
    exists w3. unfold bind, ret. simpl. rewrite Hm3. simpl.
    split; [reflexivity | exact Hc3].
Qed.

End SnapshotFlags.

(** X11.  [snapshot] flags the copy of the object, of its underlying and of
    each of its derivatives, and no other object: every other copy keeps the
    flag of its original (the underlying of the underlying, for one, is
    copied but not flagged), and the originals are as they were. *)
Theorem snapshot_flags_neighbours a w na :
  well_formed (heap w) ->
  heap w !! a = Some na ->
  exists w1,
    snapshot a w = (Ok (length (heap w) + a)%nat, w1)
    /\ (forall i, (i < length (heap w))%nat -> heap w1 !! i = heap w !! i)
    /\ forall i n, heap w !! i = Some n ->
         exists n',
           heap w1 !! (length (heap w) + i)%nat = Some n'
           /\ isSnapshot (nbase n')
              = flagged_by a (nbase na) i || isSnapshot (nbase n).
Proof.
  intros Hwf Hna.
  destruct (snapshot_marked w a na Hwf Hna) as (w1 & Hs & _ & Hlo & Hhi).
  exists w1. split; [exact Hs |]. split; [exact Hlo |].
  intros i n Hn. eexists. split; [exact (Hhi i n Hn) |].
  simpl. now rewrite existsb_flagged.
Qed.

Lemma three_chain_well_formed : well_formed (heap corrupted_spot_chain).
Proof.
  intros [|[|[|i]]] n Hn; simpl in Hn; [| | | discriminate];
    injection Hn as <-; simpl; split;
    try (intros u [= <-]; lia); try discriminate;
    try (intros d [<-|[]]; lia); intros d [].
Qed.

Lemma snapshot_flags_neighbours_witness :
  exists w1 n0 n1 n2,
    snapshot 2%nat corrupted_spot_chain = (Ok 5%nat, w1)
    /\ heap w1 !! 3%nat = Some n0 /\ isSnapshot (nbase n0) = false
    /\ heap w1 !! 4%nat = Some n1 /\ isSnapshot (nbase n1) = true
    /\ heap w1 !! 5%nat = Some n2 /\ isSnapshot (nbase n2) = true.
Proof.
  destruct (snapshot_flags_neighbours 2%nat corrupted_spot_chain _
              three_chain_well_formed eq_refl) as (w1 & Hs & _ & Hc).
  destruct (Hc 0%nat _ eq_refl) as (n0 & H0 & F0).
  destruct (Hc 1%nat _ eq_refl) as (n1 & H1 & F1).
  destruct (Hc 2%nat _ eq_refl) as (n2 & H2 & F2).
  exists w1, n0, n1, n2. repeat split; assumption.
Defined.

(** X12.  A snapshot takes no quote from a stream: attached to the copy
    that [snapshot] returns, the coroutine returns at once, whatever the
    stream shows, and leaves the arena and the record of calls as they
    are. *)
Theorem snapshot_is_not_streamed E a w ticks :
  well_formed (heap w) -> (a < length (heap w))%nat ->
  exists s w1,
    snapshot a w = (Ok s, w1)
    /\ _attach_stream E s ticks w1 = (Ok tt, w1).
Proof.
  intros Hwf Ha.
  destruct (snapshot_copied w a Hwf Ha) as (w1 & Hs & _ & _ & n & Hn & Hf).
  exists (length (heap w) + a)%nat, w1. split; [exact Hs |].
  exact (_attach_stream_flagged E _ ticks w1 n Hn Hf).
Qed.

Lemma snapshot_is_not_streamed_witness :
  exists s w1,
    snapshot 1%nat spot_and_future = (Ok s, w1)
    /\ _attach_stream sample_externals s
         [ {| bidPrice := Some 3; askPrice := Some 5 |} ] w1
       = (Ok tt, w1).
Proof.
  exact (snapshot_is_not_streamed sample_externals 1%nat spot_and_future
           [ {| bidPrice := Some 3; askPrice := Some 5 |} ]
           spot_and_future_well_formed (le_n 2)).
Defined.

(** ** Underlyings and derivatives *)

(** Every object that has an underlying is among the derivatives of that
    underlying. *)
Definition registered (h : list node) : Prop :=
  forall (a : addr) n (u : addr),
    h !! a = Some n -> underlying (nbase n) = Some u ->
    exists un, h !! u = Some un /\ In a (derivatives (nbase un)).

(** The calls of the three constructors. *)
Inductive construction :=
| NewSpot (tsym qsym : option string)
| NewFuture (rf qf : option R) (settle : option time) (tsym qsym : option string)
| NewOption (ot : string) (strike : R) (expir : time) (lastVol : option R)
    (tsym qsym : option string).

Definition construct (E : externals) (c : construction) (u : option addr)
  : M world addr :=
  match c with
  | NewSpot ts qs => FXSpot_init ts qs u
  | NewFuture rf qf s ts qs => CurrencyFuture_init E rf qf s ts qs u
  | NewOption ot K ex lastVol ts qs =>
      CurrencyFutureOption_init E ot K ex lastVol ts qs u
  end.

Lemma lookup_links (h : list node) (i : nat) :
  links <$> (h !! i) = (links <$> h) !! i.
Proof. now rewrite list_lookup_fmap. Qed.

Lemma links_transfer (h h' : list node) (i : addr) n' :
  links <$> h' = links <$> h -> h' !! i = Some n' ->
  exists n, h !! i = Some n /\ links n = links n'.
Proof.
  intros Hl Hi.
  pose proof (lookup_links h' i) as H1. pose proof (lookup_links h i) as H2.
  rewrite Hl, <- H2 in H1.
  change (links <$> (h' !! i) = links <$> (h !! i)) in H1.
  rewrite Hi in H1. destruct (h !! i) as [n|]; [| discriminate].
  exists n. split; [reflexivity |]. simpl in H1. congruence.
Qed.

Lemma links_length (h h' : list node) :
  links <$> h' = links <$> h -> length h' = length h.
Proof.
  intros H. apply (f_equal length) in H. now rewrite !length_fmap in H.
Qed.

Lemma well_formed_links h h' :
  links <$> h' = links <$> h -> well_formed h -> well_formed h'.
Proof.
  intros Hl Hwf i n' Hi.
  destruct (links_transfer h h' i n' Hl Hi) as (n & Hn & Hln).
  destruct (Hwf i n Hn) as [Hu Hd]. unfold links in Hln.
  injection Hln as Hlu Hld. rewrite (links_length _ _ Hl). split.
  - intros u Hu'. apply Hu. congruence.
  - intros d Hd'. apply Hd. congruence.
Qed.

Lemma registered_links h h' :
  links <$> h' = links <$> h -> registered h -> registered h'.
Proof.
  intros Hl Hr a n' u Ha Hu.
  destruct (links_transfer h h' a n' Hl Ha) as (n & Hn & Hln).
  unfold links in Hln. injection Hln as Hlu Hld.
  destruct (Hr a n u Hn) as (un & Hun & Hin); [congruence |].
  destruct (links_transfer h' h u un (eq_sym Hl) Hun) as (un' & Hun' & Hlu').
  unfold links in Hlu'. injection Hlu' as _ Hd'.
  exists un'. split; [exact Hun' |]. congruence.
Qed.

(** A computation that changes no reference. *)
Definition keeps_links {A} (m : M world A) : Prop :=
  forall w, links <$> heap (snd (m w)) = links <$> heap w.

Lemma confined_keeps_links {A} (m : M world A) :
  confined (fun _ => True) m -> keeps_links m.
Proof.
  intros Hc w. apply Hc. intros i n _ _. split; intros; exact I.
Qed.

Lemma keeps_links_mutate E a m : keeps_links (mutate E a m).
Proof.
  apply confined_keeps_links.
  exact (confined_mutate E (fun _ => True) a m I).
Qed.

Lemma keeps_links_modify_option a g : keeps_links (modify_option a g).
Proof.
  apply confined_keeps_links.
  exact (confined_modify_option (fun _ => True) a g I).
Qed.

Lemma keeps_links_then {A B} (m : M world A) (k : A -> M world B) w :
  (forall x, keeps_links (k x)) ->
  links <$> heap (snd (bind m k w)) = links <$> heap (snd (m w)).
Proof.
  intros Hk. unfold bind. destruct (m w) as [[x|e] w1]; simpl; [| reflexivity].
  apply Hk.
Qed.

Lemma keeps_links_bind {A B} (m : M world A) (k : A -> M world B) :
  keeps_links m -> (forall x, keeps_links (k x)) -> keeps_links (bind m k).
Proof. intros Hm Hk w. rewrite keeps_links_then by exact Hk. apply Hm. Qed.

Lemma keeps_links_ret {A} (x : A) : keeps_links (ret x).
Proof. intros w. reflexivity. Qed.

(** The references after a constructor are those that
    [BaseInstrument.__init__] leaves, whether it returns or raises. *)
Lemma construct_links E c u w :
  exists cls,
    links <$> heap (snd (construct E c u w))
    = links <$> heap (snd (BaseInstrument_init (match c with
                                                 | NewSpot ts _ => ts
                                                 | NewFuture _ _ _ ts _ => ts
                                                 | NewOption _ _ _ _ ts _ => ts
                                                 end)
                             (match c with
                              | NewSpot _ qs => qs
                              | NewFuture _ _ _ _ qs => qs
                              | NewOption _ _ _ _ _ qs => qs
                              end) u cls w)).
Proof.
  destruct c as [ts qs|rf qf s ts qs|ot K ex lv ts qs]; simpl;
    eexists; unfold FXSpot_init, CurrencyFuture_init,
      CurrencyFutureOption_init.
  - reflexivity.
  - apply keeps_links_then. intros a.
    apply keeps_links_bind; [exact (keeps_links_mutate E a (SetRf rf)) |].
    intros _.
    apply keeps_links_bind; [exact (keeps_links_mutate E a (SetQf qf)) |].
    intros _. apply keeps_links_ret.
  - apply keeps_links_then. intros a.
    apply keeps_links_bind; [exact (keeps_links_mutate E a (SetVol lv)) |].
    intros _.
    apply keeps_links_bind; [apply keeps_links_modify_option |].
    intros _. apply keeps_links_ret.
Qed.

Lemma BaseInstrument_init_orphan ts qs c w :
  BaseInstrument_init ts qs None c w
  = (Ok (length (heap w)),
     {| heap := heap w ++ [ {| nbase := {| _bid := None; _ask := None;
                                           mark := None; spread := None;
                                           tsym := ts; qsym := qs;
                                           underlying := None;
                                           derivatives := [];
                                           _now := None;
                                           isSnapshot := false |};
                               ncls := c |} ];
        log := log w |}).
Proof. reflexivity. Qed.

(** [BaseInstrument.__init__] appends the new object to the arena and to
    the derivatives of its underlying. *)
Lemma BaseInstrument_init_linked ts qs (u : option addr) c w :
  well_formed (heap w) -> registered (heap w) ->
  (forall ua : addr, u = Some ua -> (ua < length (heap w))%nat) ->
  well_formed (heap (snd (BaseInstrument_init ts qs u c w)))
  /\ registered (heap (snd (BaseInstrument_init ts qs u c w)))
  /\ (exists n,
        heap (snd (BaseInstrument_init ts qs u c w)) !! length (heap w)
        = Some n
        /\ links n = (u, []))
  /\ (forall ua : addr, u = Some ua ->
        exists un dl,
          heap (snd (BaseInstrument_init ts qs u c w)) !! ua = Some un
          /\ derivatives (nbase un) = dl ++ [length (heap w)]).
Proof.
  intros Hwf Hreg Hu.
  set (k := length (heap w)).
  destruct u as [ua|].
  - specialize (Hu ua eq_refl).
    destruct (heap w !! ua) as [[ub cu]|] eqn:Hua;
      [| apply lookup_ge_None in Hua; lia].
    rewrite (BaseInstrument_init_ok ts qs ua c w ub cu Hua). fold k. simpl.
    set (new := {| nbase := {| _bid := None; _ask := None; mark := None;
                               spread := None; tsym := ts; qsym := qs;
                               underlying := Some ua; derivatives := [];
                               _now := None; isSnapshot := false |};
                   ncls := c |}).
    set (upd := {| nbase := with_links (underlying ub)
                              (derivatives ub ++ [k]) ub;
                   ncls := cu |}).
    assert (Hlen : length (<[ua := upd]> (heap w ++ [new])) = S k)
      by (rewrite length_insert, length_app; simpl; unfold k; lia).
    assert (Hget : forall i n,
               <[ua := upd]> (heap w ++ [new]) !! i = Some n ->
               (i = ua /\ n = upd)
               \/ (i = k /\ n = new)
               \/ (i <> ua /\ (i < k)%nat /\ heap w !! i = Some n)).
    { intros i n Hi. destruct (decide (i = ua)) as [->|Hne].
      - left. split; [reflexivity |].
        rewrite list_lookup_insert_eq in Hi
          by (rewrite length_app; simpl; lia).
        congruence.
      - rewrite list_lookup_insert_ne in Hi by congruence.
        destruct (decide (i < k)%nat) as [Hlt|Hge].
        + right. right. rewrite lookup_app_l in Hi by exact Hlt. auto.
        + right. left. rewrite lookup_app_r in Hi by (unfold k in *; lia).
          destruct (i - length (heap w))%nat as [|j] eqn:Hj; simpl in Hi;
            [| discriminate].
          split; [unfold k in *; lia | congruence]. }
    assert (Hat : forall i un, heap w !! i = Some un ->
               exists un', <[ua := upd]> (heap w ++ [new]) !! i = Some un'
                           /\ underlying (nbase un') = underlying (nbase un)
                           /\ forall d, In d (derivatives (nbase un)) ->
                                        In d (derivatives (nbase un'))).
    { intros i un Hi.
      assert (Hlt : (i < k)%nat) by (now apply lookup_lt_Some in Hi).
      destruct (decide (i = ua)) as [->|Hne].
      - exists upd. split.
        + apply list_lookup_insert_eq. rewrite length_app. simpl. lia.
        + pose proof (eq_trans (eq_sym Hi) Hua) as Heq.
          injection Heq as ->. simpl. split; [reflexivity |].
          intros d Hd. apply in_or_app. now left.
      - exists un. split; [| split; [reflexivity | auto]].
        rewrite list_lookup_insert_ne by congruence.
        now rewrite lookup_app_l. }
    split; [| split; [| split]].
    + intros i n Hi. rewrite Hlen.
      destruct (Hget i n Hi) as [[-> ->] | [[-> ->] | (_ & _ & Hold)]]; simpl.
      * destruct (Hwf ua _ Hua) as [H1 H2]. simpl in *. split.
        -- intros u Hu'. specialize (H1 u Hu'). unfold k in *. lia.
        -- intros d Hd. apply in_app_or in Hd as [Hd | [<- | []]];
             [specialize (H2 d Hd); unfold k in *; lia | lia].
      * split; [intros u [= <-]; lia | intros d []].
      * destruct (Hwf i n Hold) as [H1 H2]. split.
        -- intros u Hu'. specialize (H1 u Hu'). unfold k in *. lia.
        -- intros d Hd. specialize (H2 d Hd). unfold k in *. lia.
    + intros a n u Ha Hun.
      destruct (Hget a n Ha) as [[-> ->] | [[-> ->] | (_ & _ & Hold)]];
        simpl in Hun.
      * destruct (Hreg ua _ u Hua Hun) as (un & Hu1 & Hin).
        destruct (Hat u un Hu1) as (un' & Hu2 & _ & Hd). eauto.
      * injection Hun as <-. exists upd. split.
        -- apply list_lookup_insert_eq. rewrite length_app. simpl. lia.
        -- simpl. apply in_or_app. right. now left.
      * destruct (Hreg a n u Hold Hun) as (un & Hu1 & Hin).
        destruct (Hat u un Hu1) as (un' & Hu2 & _ & Hd). eauto.
    + exists new. split; [| reflexivity].
      rewrite list_lookup_insert_ne by lia.
      rewrite lookup_app_r by (unfold k; lia).
      now replace (k - length (heap w))%nat with 0%nat by (unfold k; lia).
    + intros ua' [= <-]. exists upd, (derivatives ub). split; [| reflexivity].
      apply list_lookup_insert_eq. rewrite length_app. simpl. lia.
  - rewrite BaseInstrument_init_orphan. fold k. simpl.
    set (new := {| nbase := {| _bid := None; _ask := None; mark := None;
                               spread := None; tsym := ts; qsym := qs;
                               underlying := None; derivatives := [];
                               _now := None; isSnapshot := false |};
                   ncls := c |}).
    assert (Hget : forall i n,
               (heap w ++ [new]) !! i = Some n ->
               (i = k /\ n = new) \/ ((i < k)%nat /\ heap w !! i = Some n)).
    { intros i n Hi. destruct (decide (i < k)%nat) as [Hlt|Hge].
      - right. rewrite lookup_app_l in Hi by exact Hlt. auto.
      - left. rewrite lookup_app_r in Hi by (unfold k in *; lia).
        destruct (i - length (heap w))%nat as [|j] eqn:Hj; simpl in Hi;
          [| discriminate].
        split; [unfold k in *; lia | congruence]. }
    split; [| split; [| split]].
    + intros i n Hi. rewrite length_app. simpl.
      destruct (Hget i n Hi) as [[-> ->] | [_ Hold]]; simpl.
      * split; [discriminate | intros d []].
      * destruct (Hwf i n Hold) as [H1 H2]. split.
        -- intros u Hu'. specialize (H1 u Hu'). lia.
        -- intros d Hd. specialize (H2 d Hd). lia.
    + intros a n u Ha Hun.
      destruct (Hget a n Ha) as [[-> ->] | [_ Hold]]; [discriminate |].
      destruct (Hreg a n u Hold Hun) as (un & Hu1 & Hin).
      exists un. split; [| exact Hin].
      rewrite lookup_app_l by (now apply lookup_lt_Some in Hu1). exact Hu1.
    + exists new. split; [| reflexivity].
      rewrite lookup_app_r by (unfold k; lia).
      now replace (k - length (heap w))%nat with 0%nat by (unfold k; lia).
    + discriminate.
Qed.

(** X13.  Each constructor appends one object to the arena, with the given
    underlying and no derivative, and makes it the last derivative of that
    underlying, whether the constructor returns or raises; an arena in
    which every reference designates an object and every object is among
    the derivatives of its underlying stays so. *)
Theorem construction_registers E c (u : option addr) w :
  well_formed (heap w) -> registered (heap w) ->
  (forall ua : addr, u = Some ua -> (ua < length (heap w))%nat) ->
  well_formed (heap (snd (construct E c u w)))
  /\ registered (heap (snd (construct E c u w)))
  /\ (exists n,
        heap (snd (construct E c u w)) !! length (heap w) = Some n
        /\ underlying (nbase n) = u /\ derivatives (nbase n) = [])
  /\ (forall ua : addr, u = Some ua ->
        exists un dl,
          heap (snd (construct E c u w)) !! ua = Some un
          /\ derivatives (nbase un) = dl ++ [length (heap w)]).
Proof.
  intros Hwf Hreg Hu.
  destruct (construct_links E c u w) as [cls Hl].
  match type of Hl with
  | _ = links <$> heap (snd (BaseInstrument_init ?ts ?qs _ _ _)) =>
      destruct (BaseInstrument_init_linked ts qs u cls w Hwf Hreg Hu)
        as (Hwf' & Hreg' & (n & Hn & Hln) & Hder)
  end.
  split; [exact (well_formed_links _ _ Hl Hwf') |].
  split; [exact (registered_links _ _ Hl Hreg') |].
  split.
  - destruct (links_transfer _ _ _ n (eq_sym Hl) Hn) as (n' & Hn' & Hln').
    exists n'. split; [exact Hn' |].
    rewrite Hln in Hln'. unfold links in Hln'. injection Hln' as H1 H2.
    now split.
  - intros ua Hua. destruct (Hder ua Hua) as (un & dl & Hun & Hd).
    destruct (links_transfer _ _ _ un (eq_sym Hl) Hun) as (un' & Hun' & Hlu').
    exists un', dl. split; [exact Hun' |].
    unfold links in Hlu'. injection Hlu' as _ H2. congruence.
Qed.

Lemma spot_and_future_registered : registered (heap spot_and_future).
Proof.
  intros [|[|a]] n u Hn Hu; simpl in Hn; [| | discriminate];
    injection Hn as <-; simpl in Hu; [discriminate |].
  injection Hu as <-. eexists. split; [reflexivity |]. simpl. now left.
Qed.

Lemma construction_registers_witness :
  exists n un dl,
    heap (snd (construct sample_externals
                 (NewOption "call" 1 30%Z None None None)
                 (Some 1%nat) spot_and_future)) !! 2%nat = Some n
    /\ underlying (nbase n) = Some 1%nat
    /\ heap (snd (construct sample_externals
                    (NewOption "call" 1 30%Z None None None)
                    (Some 1%nat) spot_and_future)) !! 1%nat = Some un
    /\ derivatives (nbase un) = dl ++ [2%nat].
Proof.
  assert (Hu : forall ua : addr, Some 1%nat = Some ua ->
                 (ua < length (heap spot_and_future))%nat)
    by (intros ua [= <-]; simpl; lia).
  destruct (construction_registers sample_externals
              (NewOption "call" 1 30%Z None None None) (Some 1%nat)
              spot_and_future spot_and_future_well_formed
              spot_and_future_registered Hu)
    as (_ & _ & (n & Hn & Hun & _) & Hd).
  destruct (Hd 1%nat eq_refl) as (un & dl & Hu1 & Hdl).
  exists n, un, dl. repeat split; assumption.
Defined.

Section Survive.

Variable w : world.

Let k := length (heap w).

Lemma copied_well_formed h :
  well_formed (heap w) -> copied w h -> well_formed h.
Proof.
  intros Hwf (Hlen & Hlo & Hhi) i n Hi. rewrite Hlen. fold k.
  assert (Hlt : (i < k + k)%nat).
  { apply lookup_lt_Some in Hi. rewrite Hlen in Hi. exact Hi. }
  destruct (decide (i < k)%nat) as [Hlow|Hhigh].
  - assert (Hn : heap w !! i = Some n)
      by (rewrite <- Hi; symmetry; exact (Hlo i Hlow)).
    destruct (Hwf i n Hn) as [H1 H2]. fold k in H1, H2. split.
    + intros u Hu. specialize (H1 u Hu). lia.
    + intros d Hd. specialize (H2 d Hd). lia.
  - destruct (heap w !! (i - k)%nat) as [m|] eqn:Hm;
      [| apply lookup_ge_None in Hm; unfold k in *; lia].
    destruct (Hhi _ m Hm) as [b Hb]. fold k in Hb.
    replace (k + (i - k))%nat with i in Hb by lia.
    pose proof (eq_trans (eq_sym Hi) Hb) as Heq. injection Heq as ->.
    destruct (Hwf _ m Hm) as [H1 H2]. fold k in H1, H2. simpl. split.
    + intros u Hu. destruct (underlying (nbase m)) as [u0|]; [| discriminate].
      simpl in Hu. injection Hu as <-. specialize (H1 u0 eq_refl). lia.
    + intros d Hd. apply in_map_iff in Hd as (d0 & <- & Hd0).
      specialize (H2 d0 Hd0). lia.
Qed.

Lemma copied_registered h :
  well_formed (heap w) -> registered (heap w) -> copied w h -> registered h.
Proof.
  intros Hwf Hreg (Hlen & Hlo & Hhi) a n u Ha Hu.
  assert (Hlt : (a < k + k)%nat).
  { apply lookup_lt_Some in Ha. rewrite Hlen in Ha. exact Ha. }
  destruct (decide (a < k)%nat) as [Hlow|Hhigh].
  - assert (Hn : heap w !! a = Some n)
      by (rewrite <- Ha; symmetry; exact (Hlo a Hlow)).
    destruct (Hreg a n u Hn Hu) as (un & Hun & Hin).
    exists un. split; [| exact Hin].
    rewrite <- Hun. apply Hlo. now apply lookup_lt_Some in Hun.
  - destruct (heap w !! (a - k)%nat) as [m|] eqn:Hm;
      [| apply lookup_ge_None in Hm; unfold k in *; lia].
    destruct (Hhi _ m Hm) as [b Hb]. fold k in Hb.
    replace (k + (a - k))%nat with a in Hb by lia.
    pose proof (eq_trans (eq_sym Ha) Hb) as Heq. injection Heq as ->.
    simpl in Hu.
    destruct (underlying (nbase m)) as [u0|] eqn:Hu0; [| discriminate].
    simpl in Hu. injection Hu as <-.
    destruct (Hreg _ m u0 Hm Hu0) as (un & Hun & Hin).
    destruct (Hhi _ un Hun) as [b' Hb']. fold k in Hb'.
    eexists. split; [exact Hb' |]. simpl.
    apply in_map_iff. exists (a - k)%nat. split; [lia | exact Hin].
Qed.

End Survive.

(** X14.  In an arena in which every reference designates an object and
    every object is among the derivatives of its underlying, this stays so
    after any mutation, returning or raising, which changes no reference
    at all, and after any snapshot, whose copies refer to one another as
    their originals do. *)
Theorem references_survive E w :
  well_formed (heap w) -> registered (heap w) ->
  (forall a m,
      links <$> heap (snd (mutate E a m w)) = links <$> heap w
      /\ well_formed (heap (snd (mutate E a m w)))
      /\ registered (heap (snd (mutate E a m w))))
  /\ (forall a, (a < length (heap w))%nat ->
        well_formed (heap (snd (snapshot a w)))
        /\ registered (heap (snd (snapshot a w)))).
Proof.
  intros Hwf Hreg. split.
  - intros a m. pose proof (keeps_links_mutate E a m w) as Hl.
    split; [exact Hl |].
    split; [exact (well_formed_links _ _ Hl Hwf)
           | exact (registered_links _ _ Hl Hreg)].
  - intros a Ha.
    destruct (snapshot_copied w a Hwf Ha) as (w1 & Hs & Hc & _).
    rewrite Hs. simpl.
    split; [exact (copied_well_formed w _ Hwf Hc)
           | exact (copied_registered w _ Hwf Hreg Hc)].
Qed.

Lemma references_survive_witness :
  well_formed (heap (snd (snapshot 1%nat spot_and_future)))
  /\ registered (heap (snd (snapshot 1%nat spot_and_future))).
Proof.
  exact (proj2 (references_survive sample_externals spot_and_future
                  spot_and_future_well_formed spot_and_future_registered)
           1%nat (le_n 2)).
Defined.

(** ** An option whose underlying is not a future *)

(** The option at [x] has the spot at [u] as underlying. *)
Definition option_on_spot (x u : addr) (h : list node) : Prop :=
  exists sb o ub,
    h !! x = Some {| nbase := sb; ncls := CurrencyFutureOption o |}
    /\ underlying sb = Some u
    /\ h !! u = Some {| nbase := ub; ncls := FXSpot |}.

Lemma same_view_lookup {V} (v : node -> V) (h h' : list node) (i : addr) n :
  v <$> h' = v <$> h -> h !! i = Some n ->
  exists n', h' !! i = Some n' /\ v n' = v n.
Proof.
  intros Hv Hi.
  assert (H : v <$> (h' !! i) = v <$> (h !! i))
    by (rewrite <- !list_lookup_fmap; now rewrite Hv).
  rewrite Hi in H. destruct (h' !! i) as [n'|]; [| discriminate].
  exists n'. split; [reflexivity |]. simpl in H. congruence.
Qed.

Section OptionOnSpot.

Variable E : externals.

Lemma option_on_spot_raises x u w :
  option_on_spot x u (heap w) ->
  _update E x w
  = (Raise AttributeError, {| heap := heap w; log := log w ++ [EvUpdate x] |}).
Proof.
  intros (sb & o & ub & Hx & Hu & Hs).
  unfold _update, underlying_future, get_future, emit, get.
  unfold bind, ret, raise. simpl. rewrite Hx. simpl. rewrite Hu. simpl.
  now rewrite Hs.
Qed.

Lemma option_on_spot_bases x u h h' :
  nbase <$> h' = nbase <$> h ->
  (fun n => inputs (ncls n)) <$> h' = (fun n => inputs (ncls n)) <$> h ->
  option_on_spot x u h -> option_on_spot x u h'.
Proof.
  intros Hb Hi (sb & o & ub & Hx & Hu & Hs).
  destruct (same_view_lookup nbase h h' x _ Hb Hx) as (nx & Hnx & Hbx).
  destruct (same_view_lookup (fun n => inputs (ncls n)) h h' x _ Hi Hx)
    as (nx' & Hnx' & Hix).
  destruct (same_view_lookup nbase h h' u _ Hb Hs) as (nu & Hnu & Hbu).
  destruct (same_view_lookup (fun n => inputs (ncls n)) h h' u _ Hi Hs)
    as (nu' & Hnu' & Hiu).
  assert (nx' = nx) by congruence. subst nx'.
  assert (nu' = nu) by congruence. subst nu'.
  destruct nx as [bx [|fx|ox]]; simpl in *; try discriminate.
  destruct nu as [bu [|fu|ou]]; simpl in *; try discriminate.
  exists bx, ox, bu. subst bx. now repeat split.
Qed.

Lemma option_on_spot_update x u d w :
  option_on_spot x u (heap w) ->
  option_on_spot x u (heap (snd (_update E d w))).
Proof.
  destruct (_update_frame E d w) as (Hb & Hi & _).
  now apply option_on_spot_bases.
Qed.

Lemma alert_raises x u ds w :
  option_on_spot x u (heap w) -> In x ds ->
  exists e, fst (for_each (_update E) ds w) = Raise e.
Proof.
  revert w. induction ds as [|d ds IH]; intros w Hq Hin; [destruct Hin |].
  simpl. unfold bind.
  destruct (decide (d = x)) as [->|Hne].
  - rewrite (option_on_spot_raises x u w Hq). simpl. eauto.
  - pose proof (option_on_spot_update x u d w Hq) as Hq'.
    destruct (_update E d w) as [[[]|e] w1]; simpl in *; [| eauto].
    apply IH; [exact Hq' |]. destruct Hin as [->|Hin]; [contradiction | exact Hin].
Qed.

Lemma quote_spot_writes u bid ask w ub :
  heap w !! u = Some {| nbase := ub; ncls := FXSpot |} ->
  writes u (Quote bid ask) w
  = (Ok tt,
     {| heap := <[u := {| nbase := base_after (Quote bid ask) ub;
                          ncls := FXSpot |}]> (heap w);
        log := log w |}).
Proof.
  intros Hu.
  assert (Hlt : (u < length (heap w))%nat) by (now apply lookup_lt_Some in Hu).
  unfold writes.
  erewrite bind_ok by (exact (modify_base_ok _ _ _ _ _ Hu)).
  erewrite bind_ok.
  2:{ apply modify_base_ok. simpl. now apply list_lookup_insert_eq. }
  assert (H3 : forall g,
             modify_base u g
               {| heap := <[u := {| nbase := with_ask ask (with_bid bid ub);
                                    ncls := FXSpot |}]>
                            (<[u := {| nbase := with_bid bid ub;
                                       ncls := FXSpot |}]> (heap w));
                  log := log w |}
             = (Ok tt,
                {| heap := <[u := {| nbase := g (with_ask ask (with_bid bid ub));
                                     ncls := FXSpot |}]> (heap w);
                   log := log w |})).
  { intros g. erewrite modify_base_ok.
    2:{ simpl. apply list_lookup_insert_eq. now rewrite length_insert. }
    simpl. now rewrite !list_insert_insert_eq. }
  simpl. destruct bid as [b|], ask as [k|]; simpl; apply H3.
Qed.

Lemma quote_raises x u bid ask w :
  option_on_spot x u (heap w) ->
  (exists un, heap w !! u = Some un /\ In x (derivatives (nbase un))) ->
  exists e, fst (quote E u bid ask w) = Raise e.
Proof.
  intros Hq (un & Hun & Hin).
  destruct Hq as (sb & o & ub & Hx & Hu & Hs).
  assert (Hlt : (u < length (heap w))%nat) by (now apply lookup_lt_Some in Hs).
  assert (Hne : x <> u) by (intros ->; rewrite Hx in Hs; discriminate).
  assert (Hun' : un = {| nbase := ub; ncls := FXSpot |}) by congruence.
  subst un. simpl in Hin.
  change (quote E u bid ask w) with (mutate E u (Quote bid ask) w).
  rewrite (mutate_cascades E u (Quote bid ask) w eq_refl).
  erewrite bind_ok by (exact (quote_spot_writes u bid ask w ub Hs)).
  set (b3 := base_after (Quote bid ask) ub).
  set (h1 := <[u := {| nbase := b3; ncls := FXSpot |}]> (heap w)).
  assert (H1u : h1 !! u = Some {| nbase := b3; ncls := FXSpot |})
    by (unfold h1; now apply list_lookup_insert_eq).
  assert (H1x : h1 !! x = Some {| nbase := sb; ncls := CurrencyFutureOption o |})
    by (unfold h1; rewrite lookup_insert_other by exact Hne; exact Hx).
  erewrite bind_ok.
  2:{ apply (_update_spot E u {| heap := h1; log := log w |} b3). exact H1u. }
  unfold alert_derivatives.
  erewrite bind_ok by (apply get_ok; exact H1u).
  apply (alert_raises x u).
  - exists sb, o, b3. now repeat split.
  - exact Hin.
Qed.

(** Constructing an option on an object that is not a future, or on
    nothing, raises AttributeError at the recompute of the [vol]
    assignment. *)
Lemma CurrencyFutureOption_init_raises ot K ex lastVol ts qs (u : option addr) w :
  (forall ua : addr, u = Some ua -> (ua < length (heap w))%nat) ->
  (forall (ua : addr) ub f,
      u = Some ua ->
      heap w !! ua <> Some {| nbase := ub; ncls := CurrencyFuture f |}) ->
  fst (CurrencyFutureOption_init E ot K ex lastVol ts qs u w)
  = Raise AttributeError.
Proof.
  intros Hlt Hnf.
  unfold CurrencyFutureOption_init.
  set (cls := CurrencyFutureOption
                {| otype := None; strike := K; expir := ex; _vol := None;
                   _manual_vol := false; moneyness := None;
                   probability := None; oprice := None;
                   ogreeks := null_greeks |}).
  set (k := length (heap w)).
  assert (Hinit : exists w1 sb o,
             BaseInstrument_init ts qs u cls w = (Ok k, w1)
             /\ heap w1 !! k
                = Some {| nbase := sb; ncls := CurrencyFutureOption o |}
             /\ underlying sb = u
             /\ length (heap w1) = S k
             /\ forall (ua : addr) ub f,
                  u = Some ua ->
                  heap w1 !! ua
                  <> Some {| nbase := ub; ncls := CurrencyFuture f |}).
  { destruct u as [ua|].
    - specialize (Hlt ua eq_refl).
      destruct (heap w !! ua) as [[ub cu]|] eqn:Hua;
        [| apply lookup_ge_None in Hua; lia].
      rewrite (BaseInstrument_init_ok ts qs ua cls w ub cu Hua). fold k.
      eexists. eexists. eexists. split; [reflexivity |]. simpl.
      split.
      { rewrite lookup_insert_other by (unfold k; lia).
        rewrite lookup_app_r by (unfold k; lia).
        replace (k - length (heap w))%nat with 0%nat by (unfold k; lia).
        reflexivity. }
      split; [reflexivity |]. split.
      { rewrite length_insert, length_app. simpl. unfold k. lia. }
      intros ua' ub' f' [= <-].
      rewrite list_lookup_insert_eq by (rewrite length_app; simpl; lia).
      intros [= _ ->]. exact (Hnf ua ub f' eq_refl Hua).
    - rewrite BaseInstrument_init_orphan. fold k.
      eexists. eexists. eexists. split; [reflexivity |]. simpl.
      split.
      { rewrite lookup_app_r by (unfold k; lia).
        replace (k - length (heap w))%nat with 0%nat by (unfold k; lia).
        reflexivity. }
      split; [reflexivity |]. split.
      { rewrite length_app. simpl. unfold k. lia. }
      discriminate. }
  destruct Hinit as (w1 & sb & o & Hi & Hk & Hu & Hlen & Hnf1).
  erewrite bind_ok by exact Hi.
  destruct (vol_setter_run E k lastVol w1 sb o Hk) as (r & o' & Hv & _ & _).
  assert (Hr : fst (vol_setter E k lastVol w1) = Raise AttributeError).
  { unfold vol_setter.
    erewrite bind_ok by (exact (modify_option_ok _ _ _ _ _ Hk)).
    erewrite bind_ok.
    2:{ apply modify_option_ok. simpl. apply list_lookup_insert_eq.
        rewrite Hlen. lia. }
    cbn [heap log]. rewrite list_insert_insert_eq.
    set (o2 := with_manual_vol true (with_vol lastVol o)).
    set (w2 := {| heap := <[k := {| nbase := sb;
                                    ncls := CurrencyFutureOption o2 |}]>
                            (heap w1);
                  log := log w1 |}).
    assert (H2 : heap w2 !! k
                 = Some {| nbase := sb; ncls := CurrencyFutureOption o2 |}).
    { unfold w2. simpl. apply list_lookup_insert_eq. rewrite Hlen. lia. }
    destruct (_update_option_cases E k w2 sb o2 H2)
      as [(ua & ub & f & Hua & Huf) | Hraise].
    - exfalso. rewrite Hu in Hua.
      assert (Hne : ua <> k).
      { intros ->. pose proof (eq_trans (eq_sym H2) Huf) as Heq.
        discriminate. }
      unfold w2 in Huf. simpl in Huf.
      rewrite lookup_insert_other in Huf by exact Hne.
      exact (Hnf1 ua ub f Hua Huf).
    - unfold bind. now rewrite Hraise. }
  unfold bind.
  destruct (vol_setter E k lastVol w1) as [[[]|e] w3]; simpl in *;
    [discriminate |].
  injection Hr as ->. reflexivity.
Qed.


Lemma CurrencyFutureOption_init_on_spot ot K ex lastVol ts qs u ub w :
  heap w !! u = Some {| nbase := ub; ncls := FXSpot |} ->
  option_on_spot (length (heap w)) u
    (heap (snd (CurrencyFutureOption_init E ot K ex lastVol ts qs (Some u) w)))
  /\ exists un,
       heap (snd (CurrencyFutureOption_init E ot K ex lastVol ts qs (Some u) w))
         !! u = Some un
       /\ In (length (heap w)) (derivatives (nbase un)).
Proof.
  intros Hu.
  assert (Hlt : (u < length (heap w))%nat) by (now apply lookup_lt_Some in Hu).
  set (k := length (heap w)).
  unfold CurrencyFutureOption_init.
  erewrite bind_ok by (exact (BaseInstrument_init_ok _ _ _ _ _ _ _ Hu)).
  fold k.
  match goal with
  | |- context [bind (vol_setter E k lastVol) _ ?w0] => set (w1 := w0)
  end.
  assert (H1k : exists sb o,
             heap w1 !! k
             = Some {| nbase := sb; ncls := CurrencyFutureOption o |}
             /\ underlying sb = Some u).
  { eexists. eexists. unfold w1. simpl. split.
    - rewrite lookup_insert_other by (unfold k; lia).
      rewrite lookup_app_r by (unfold k; lia).
      replace (k - length (heap w))%nat with 0%nat by (unfold k; lia).
      reflexivity.
    - reflexivity. }
  destruct H1k as (sb & o & H1k & Hsb).
  assert (H1u : heap w1 !! u
                = Some {| nbase := with_links (underlying ub)
                                     (derivatives ub ++ [k]) ub;
                          ncls := FXSpot |}).
  { unfold w1. simpl. apply list_lookup_insert_eq.
    rewrite length_app. simpl. lia. }
  assert (Hne : u <> k) by (unfold k; lia).
  destruct (vol_setter_run E k lastVol w1 sb o H1k) as (r & o' & Hv & _ & _).
  assert (Hfin : exists o'',
             heap (snd (bind (vol_setter E k lastVol)
                          (fun _ => bind (modify_option k
                                            (with_otype (Some ot)))
                                      (fun _ => @ret world addr k)) w1))
             = <[k := {| nbase := sb; ncls := CurrencyFutureOption o'' |}]>
                 (heap w1)).
  { unfold bind at 1. rewrite Hv.
    destruct r as [[]|e]; cbv beta iota; [| now exists o'].
    erewrite bind_ok.
    2:{ apply modify_option_ok. simpl. apply list_lookup_insert_eq.
        now apply lookup_lt_Some in H1k. }
    simpl. eexists. now rewrite list_insert_insert_eq. }
  destruct Hfin as [o'' ->].
  assert (Hk' : (k < length (heap w1))%nat) by (now apply lookup_lt_Some in H1k).
  split.
  - eexists. eexists. eexists. split.
    { now apply list_lookup_insert_eq. }
    split; [exact Hsb |].
    rewrite lookup_insert_other by exact Hne. exact H1u.
  - eexists. split.
    { rewrite lookup_insert_other by exact Hne. exact H1u. }
    simpl. apply in_or_app. right. now left.
Qed.

End OptionOnSpot.

(** X15.  Constructing an option with no underlying, or with an underlying
    that is not a future, raises AttributeError: the recompute of the
    volatility assignment in the constructor reads the rates of the
    underlying. *)
Theorem option_needs_a_future E ot K ex lastVol ts qs (u : option addr) w :
  (forall ua : addr, u = Some ua -> (ua < length (heap w))%nat) ->
  (forall (ua : addr) ub f,
      u = Some ua ->
      heap w !! ua <> Some {| nbase := ub; ncls := CurrencyFuture f |}) ->
  fst (CurrencyFutureOption_init E ot K ex lastVol ts qs u w)
  = Raise AttributeError.
Proof. exact (CurrencyFutureOption_init_raises E ot K ex lastVol ts qs u w). Qed.

Lemma option_needs_a_future_witness :
  fst (CurrencyFutureOption_init sample_externals "call" 1 30%Z None None
         None (Some 0%nat) spot_and_future)
  = Raise AttributeError.
Proof.
  apply option_needs_a_future.
  - intros ua [= <-]. simpl. lia.
  - intros ua ub f [= <-]. discriminate.
Defined.

(** X16.  The option whose construction on a spot has raised stays among
    the derivatives of the spot, so every later [quote] of the spot raises
    too: the cascade reaches the option, whose recompute raises. *)
Theorem failed_construction_breaks_quotes E ot K ex lastVol ts qs u ub w
    bid ask :
  heap w !! u = Some {| nbase := ub; ncls := FXSpot |} ->
  exists e,
    fst (quote E u bid ask
           (snd (CurrencyFutureOption_init E ot K ex lastVol ts qs (Some u) w)))
    = Raise e.
Proof.
  intros Hu.
  destruct (CurrencyFutureOption_init_on_spot E ot K ex lastVol ts qs u ub w Hu)
    as [Hq Hd].
  exact (quote_raises E _ u bid ask _ Hq Hd).
Qed.

Lemma failed_construction_breaks_quotes_witness :
  exists e,
    fst (quote sample_externals 0%nat (Some 3) (Some 5)
           (snd (CurrencyFutureOption_init sample_externals "call" 1 30%Z None
                   None None (Some 0%nat) spot_and_future)))
    = Raise e.
Proof.
  exact (failed_construction_breaks_quotes sample_externals "call" 1 30%Z
           None None None 0%nat _ spot_and_future (Some 3) (Some 5) eq_refl).
Defined.

(** ** The price that the root-finder matches *)

(** A price to match is sound for an option of type [ot] struck at [K] on
    a forward [F], quoted [b] / [k]: it is not below the intrinsic value,
    and it is the intrinsic value or lies between bid and ask. *)
Definition sound_target (ot : option string) (F K b k : R) (ev : event)
  : Prop :=
  match ev with
  | EvNewton _ _ rp =>
      intrinsic ot F K <= rp /\ (rp = intrinsic ot F K \/ b <= rp <= k)
  | _ => True
  end.

Lemma weighted_between b k m p :
  b <= k -> 0 <= p <= 1 ->
  b <= b * bid_adj m p + k * ask_adj m p <= k.
Proof.
  intros Hbk Hp. unfold bid_adj, ask_adj.
  destruct (Rge_dec m 0); split; nra.
Qed.

Lemma real_price_sound ot F K t :
  is_call ot || is_put ot = true ->
  intrinsic ot F K <= real_price ot F K t
  /\ (real_price ot F K t = intrinsic ot F K \/ real_price ot F K t = t).
Proof.
  intros Hcp. unfold real_price, intrinsic.
  destruct (is_call ot) eqn:Hc; simpl.
  - destruct (Rgt_dec (F - K) t) as [H|H]; simpl.
    + split; [lra | now left].
    + rewrite (call_is_not_put ot Hc). simpl. split; [lra | now right].
  - simpl in Hcp. rewrite Hcp. simpl.
    destruct (Rgt_dec (K - F) t) as [H|H]; simpl.
    + split; [lra | now left].
    + split; [lra | now right].
Qed.

Section Targets.

Variable E : externals.
Variables (ot : option string) (F K b k : R).
Variables (sb ub : base) (f : future_attrs).

Hypothesis cdf_range : forall x, 0 <= norm_cdf E x <= 1.
Hypothesis call_or_put : is_call ot || is_put ot = true.
Hypothesis quoted_bid : _bid sb = Some b.
Hypothesis quoted_ask : _ask sb = Some k.
Hypothesis ordered : b <= k.
Hypothesis forward : mark ub = Some F.

(** The type and strike are those given, and every root-finder call made so
    far had a sound price to match. *)
Definition targets_sound (st : frame option_attrs) : Prop :=
  otype (self st) = ot /\ strike (self st) = K
  /\ Forall (sound_target ot F K b k) (trace st).

Definition keeps_targets {A} (m : M (frame option_attrs) A) : Prop :=
  forall st, targets_sound st -> targets_sound (snd (m st)).

Lemma keeps_targets_bind {A B} (m : M (frame option_attrs) A)
    (g : A -> M (frame option_attrs) B) :
  keeps_targets m -> (forall x, keeps_targets (g x)) ->
  keeps_targets (bind m g).
Proof.
  intros Hm Hg st Hst. unfold bind. specialize (Hm st Hst).
  destruct (m st) as [[x|e] st']; simpl in *; [now apply Hg | exact Hm].
Qed.

Lemma keeps_targets_ret {A} (x : A) : keeps_targets (ret x).
Proof. intros st Hst. exact Hst. Qed.

Lemma keeps_targets_reference_and_solve a v :
  keeps_targets (reference_and_solve E a sb ub f v).
Proof.
  intros [o tr] (Hot & HK & Htr). simpl in Hot, HK, Htr.
  assert (Hev : forall m x0,
             Forall (sound_target ot F K b k)
               (tr ++ [EvNewton a x0
                         (real_price ot F K
                            (b * bid_adj m (norm_cdf E m)
                             + k * ask_adj m (norm_cdf E m)))])).
  { intros m x0. apply Forall_app. split; [exact Htr |].
    apply Forall_cons_2; [| apply Forall_nil_2]. simpl.
    destruct (real_price_sound ot F K
                (b * bid_adj m (norm_cdf E m) + k * ask_adj m (norm_cdf E m))
                call_or_put) as [H1 [H2 | H2]].
    - split; [exact H1 | now left].
    - split; [exact H1 | right]. rewrite H2.
      apply weighted_between; [exact ordered | apply cdf_range]. }
  unfold reference_and_solve, call_newton, targets_sound.
  unfold bind, read, require, assign, tell, ret, raise.
  unfold t_tenor, r_tenor. simpl.
  rewrite forward, quoted_bid, quoted_ask, Hot, HK. simpl.
  repeat first
    [ solve [ repeat split; simpl;
              first [ reflexivity | exact Hot | exact HK | exact Htr
                    | apply Hev ] ]
    | inner_case ].
Qed.

Lemma keeps_targets_seed_estimate a :
  keeps_targets (seed_estimate E a sb ub f).
Proof.
  intros [o tr] (Hot & HK & Htr). simpl in Hot, HK, Htr.
  assert (Hev : forall p,
             Forall (sound_target ot F K b k) (tr ++ [EvCorradoMiller a p])).
  { intros p. apply Forall_app. split; [exact Htr |].
    apply Forall_cons_2; [exact I | apply Forall_nil_2]. }
  unfold seed_estimate, targets_sound.
  unfold bind, read, require, assign, tell, ret, raise.
  unfold t_tenor, r_tenor. simpl.
  rewrite forward, quoted_bid, quoted_ask. simpl.
  repeat first
    [ solve [ repeat split; simpl;
              first [ reflexivity | exact Hot | exact HK | exact Htr
                    | apply Hev ] ]
    | inner_case ].
Qed.

Lemma keeps_targets__calc_implied a :
  keeps_targets (_calc_implied E recursion_limit a sb ub f).
Proof.
  intros st. change recursion_limit with (S (S 998)).
  rewrite _calc_implied_passes.
  destruct (_vol (self st)).
  - apply keeps_targets_bind; [apply keeps_targets_reference_and_solve |].
    intros; apply keeps_targets_ret.
  - apply keeps_targets_bind; [apply keeps_targets_seed_estimate |].
    intros seed.
    apply keeps_targets_bind; [apply keeps_targets_reference_and_solve |].
    intros v1.
    apply keeps_targets_bind; [apply keeps_targets_reference_and_solve |].
    intros; apply keeps_targets_ret.
Qed.

Lemma keeps_targets__calc_price : keeps_targets (_calc_price E ub f).
Proof.
  intros st (Hot & HK & Htr). rewrite _calc_price_priced.
  pose proof (priced_keeps E ub f (self st)) as Hkeep. cbv zeta in Hkeep.
  destruct Hkeep as (H1 & H2 & _).
  unfold targets_sound. cbn [snd self trace].
  split; [now rewrite H1 |]. split; [now rewrite H2 | exact Htr].
Qed.

Lemma keeps_targets_CurrencyFutureOption_update a :
  keeps_targets (CurrencyFutureOption_update E a sb ub f).
Proof.
  unfold CurrencyFutureOption_update.
  apply keeps_targets_bind; [intros st Hst; exact Hst |]. intros o.
  destruct (ccr f), (ccq f), (otype o); try apply keeps_targets_ret.
  destruct (_ && _); [| apply keeps_targets_ret].
  apply keeps_targets_bind; [| intros; apply keeps_targets__calc_price].
  destruct (_manual_vol o);
    [apply keeps_targets_ret | apply keeps_targets__calc_implied].
Qed.

End Targets.

(** X17.  For a call or a put quoted on both sides with bid not above ask,
    on a future that has a mark, and with a distribution function that
    takes its values between 0 and 1: every price that a recompute of the
    option hands to the root-finder is at least the intrinsic value, and is
    the intrinsic value or lies between bid and ask. *)
Theorem root_finder_targets_are_sound E a w sb o ua ub f F b k :
  heap w !! a = Some {| nbase := sb; ncls := CurrencyFutureOption o |} ->
  underlying sb = Some ua ->
  heap w !! ua = Some {| nbase := ub; ncls := CurrencyFuture f |} ->
  (forall x, 0 <= norm_cdf E x <= 1) ->
  is_call (otype o) || is_put (otype o) = true ->
  _bid sb = Some b -> _ask sb = Some k -> b <= k ->
  mark ub = Some F ->
  exists l,
    log (snd (_update E a w)) = log w ++ EvUpdate a :: l
    /\ Forall (sound_target (otype o) F (strike o) b k) l.
Proof.
  intros Ha Hu Hua Hcdf Hcp Hb Hk Hbk HF.
  rewrite (_update_option E a w sb o ua ub f Ha Hu Hua), run_method_eq.
  simpl. eexists. split; [now rewrite <- app_assoc |].
  apply (keeps_targets_CurrencyFutureOption_update E (otype o) F (strike o)
           b k sb ub f Hcdf Hcp Hb Hk Hbk HF a {| self := o; trace := [] |}).
  repeat split. apply Forall_nil_2.
Qed.

Lemma root_finder_targets_are_sound_witness :
  exists l,
    log (snd (_update sample_externals 1%nat future_and_free_call))
    = log future_and_free_call ++ EvUpdate 1%nat :: l
    /\ Forall (sound_target (Some "call"%string) ((1 + 1) / 2) 1 0 0) l.
Proof.
  assert (Hcdf : forall x, 0 <= norm_cdf sample_externals x <= 1)
    by (intros x; simpl; lra).
  assert (Hbk : 0 <= 0) by lra.
  exact (root_finder_targets_are_sound sample_externals 1%nat
           future_and_free_call _ (call_attrs None) 0%nat future_base
           (rated 0 0 90%Z) ((1 + 1) / 2) 0 0
           eq_refl eq_refl eq_refl Hcdf eq_refl eq_refl eq_refl Hbk eq_refl).
Defined.

(** ** Signs of the Greeks *)

(** X18.  With a distribution function between 0 and 1 and a density that
    is not negative, for a positive forward, volatility and tenor, the
    delta of a call lies between 0 and the discount factor, the delta of a
    put between minus the discount factor and 0, and gamma and vega are
    not negative. *)
Theorem greeks_have_their_signs E x dp F vol T old :
  (forall y, 0 <= norm_cdf E y <= 1) ->
  (forall y, 0 <= norm_pdf E y) ->
  0 < F -> 0 < vol -> 0 < T ->
  (exists d, calc_delta E (Some "call"%string) (exp x) dp old = Some d
             /\ 0 <= d <= exp x)
  /\ (exists d, calc_delta E (Some "put"%string) (exp x) dp old = Some d
                /\ - exp x <= d <= 0)
  /\ 0 <= calc_gamma E (exp x) dp F vol T
  /\ 0 <= calc_vega E (exp x) dp F T.
Proof.
  intros Hcdf Hpdf HF Hvol HT.
  pose proof (exp_pos x) as HD.
  pose proof (Hcdf dp) as [Hc0 Hc1]. pose proof (Hpdf dp) as Hp.
  pose proof (sqrt_lt_R0 T HT) as Hs.
  unfold calc_delta, calc_gamma, calc_vega. simpl.
  split; [eexists; split; [reflexivity | split; nra] |].
  split; [eexists; split; [reflexivity | split; nra] |].
  split.
  - apply Rmult_le_pos; [nra |].
    apply Rlt_le, Rinv_0_lt_compat.
    apply Rmult_lt_0_compat; [nra | exact Hs].
  - assert (0 <= F * sqrt T) by nra.
    assert (0 <= F * sqrt T * norm_pdf E dp) by nra.
    nra.
Qed.

Lemma greeks_have_their_signs_witness :
  0 <= calc_gamma sample_externals (exp 0) 0 1 1 1
  /\ 0 <= calc_vega sample_externals (exp 0) 0 1 1.
Proof.
  assert (Hcdf : forall y, 0 <= norm_cdf sample_externals y <= 1)
    by (intros y; simpl; lra).
  assert (Hpdf : forall y, 0 <= norm_pdf sample_externals y)
    by (intros y; simpl; lra).
  destruct (greeks_have_their_signs sample_externals 0 0 1 1 1 None
              Hcdf Hpdf Rlt_0_1 Rlt_0_1 Rlt_0_1) as (_ & _ & Hg & Hv).
  split; [exact Hg | exact Hv].
Defined.

(** ** The first guess *)

Lemma sqrt_square_scaled c x : 0 <= c -> 0 <= x -> sqrt (c * x ^ 2) = sqrt c * x.
Proof.
  intros Hc Hx. rewrite sqrt_mult by nra.
  replace (x ^ 2) with (x * x) by ring. now rewrite sqrt_square.
Qed.

(** X19.  At the money (forward equal to strike), for a positive forward
    and discount factor and a call price that is not negative, the first
    guess of [_corrado_miller_implied] is
    [sqrt (2 * PI) * C / (2 * F * D) * (1 + 1 / sqrt T)]: the term under the
    second square root reduces to the square of the first term, and only
    that second term is divided by the square root of the tenor. *)
Theorem corrado_miller_at_the_money C T F D :
  0 < F -> 0 < D -> 0 <= C ->
  _corrado_miller_implied C (Some "call"%string) T F F D
  = sqrt (2 * PI) * (C / (2 * F * D)) * (1 + 1 / sqrt T).
Proof.
  intros HF HD HC. unfold _corrado_miller_implied.
  change (is_put (Some "call"%string)) with false. cbv beta iota zeta.
  assert (HFD : 0 < F * D) by nra.
  assert (Hq : 0 <= C / (2 * F * D)).
  { apply Rmult_le_pos; [exact HC |].
    apply Rlt_le, Rinv_0_lt_compat. nra. }
  replace ((C - (F * D - F * D) / 2) / (F * D + F * D))
    with (C / (2 * F * D)) by (field; nra).
  replace (2 * PI * (C / (2 * F * D)) ^ 2
           - 185 / 100
             * ((F * D - F * D) ^ 2
                / (4 * PI * (F * D + F * D) * sqrt (F * D * F * D))))
    with (2 * PI * (C / (2 * F * D)) ^ 2).
  2:{ replace (F * D - F * D) with 0 by ring.
      replace (0 ^ 2) with 0 by ring.
      replace (0 / (4 * PI * (F * D + F * D) * sqrt (F * D * F * D)))
        with 0 by (unfold Rdiv; symmetry; apply Rmult_0_l).
      ring. }
  rewrite sqrt_square_scaled; [| pose proof PI_RGT_0; nra | exact Hq].
  unfold Rdiv. ring.
Qed.

Lemma corrado_miller_at_the_money_witness :
  _corrado_miller_implied 1 (Some "call"%string) 1 1 1 1
  = sqrt (2 * PI) * (1 / (2 * 1 * 1)) * (1 + 1 / sqrt 1).
Proof.
  exact (corrado_miller_at_the_money 1 1 1 1 Rlt_0_1 Rlt_0_1 Rle_0_1).
Defined.

(** X20.  With a distribution function symmetric about zero, the first
    guess computed from the Black-76 price of a put is the one computed
    from the Black-76 price of the call with the same inputs: the parity
    conversion in [_corrado_miller_implied] turns the one into the
    other. *)
Theorem first_guess_ignores_the_type E D F K dp dm T :
  (forall x, norm_cdf E (- x) = 1 - norm_cdf E x) ->
  exists c p,
    black76 E (Some "call"%string) D F K dp dm = Some c
    /\ black76 E (Some "put"%string) D F K dp dm = Some p
    /\ _corrado_miller_implied p (Some "put"%string) T F K D
       = _corrado_miller_implied c (Some "call"%string) T F K D.
Proof.
  intros Hsym. unfold black76. simpl.
  eexists. eexists. split; [reflexivity |]. split; [reflexivity |].
  unfold _corrado_miller_implied. simpl.
  replace (D * (K * norm_cdf E (- dm) - F * norm_cdf E (- dp)) + D * (F - K))
    with (D * (F * norm_cdf E dp - K * norm_cdf E dm))
    by (rewrite !Hsym; ring).
  reflexivity.
Qed.

Lemma first_guess_ignores_the_type_witness :
  exists c p,
    black76 sample_externals (Some "call"%string) 1 3 2 0 0 = Some c
    /\ black76 sample_externals (Some "put"%string) 1 3 2 0 0 = Some p
    /\ _corrado_miller_implied p (Some "put"%string) 1 3 2 1
       = _corrado_miller_implied c (Some "call"%string) 1 3 2 1.
Proof.
  assert (Hsym : forall x, norm_cdf sample_externals (- x)
                           = 1 - norm_cdf sample_externals x)
    by (intros x; simpl; lra).
  exact (first_guess_ignores_the_type sample_externals 1 3 2 0 0 1 Hsym).
Defined.

(** ** Edges of the recompute of a future *)

Section FutureEdges.

Variable E : externals.

Lemma CurrencyFuture_update_zero sb ub f r q s m :
  ccr f = Some r -> ccq f = Some q -> settle f = Some s ->
  mark ub = Some 0 -> mark sb = Some m ->
  CurrencyFuture_update E sb (Some ub) {| self := f; trace := [] |}
  = (Raise ZeroDivisionError,
     {| self := with_fprice (model_prices r q (future_r_tenor E sb s) ub
                               (fprice f)) f;
        trace := [] |}).
Proof.
  intros Hr Hq Hs Hum Hm.
  unfold CurrencyFuture_update, bind, read, assign, ret, raise.
  cbn [self trace fst snd]. rewrite Hr, Hq, Hs. cbn [self trace fst snd].
  rewrite Hum, Hm.
  destruct (Req_dec_T 0 0) as [_|H]; [reflexivity | contradiction].
Qed.

Lemma CurrencyFuture_update_idle sb u f :
  ccr f = None \/ ccq f = None \/ settle f = None \/ u = None ->
  CurrencyFuture_update E sb u {| self := f; trace := [] |}
  = (Ok tt, {| self := f; trace := [] |}).
Proof.
  intros H. unfold CurrencyFuture_update, bind, read, ret.
  cbn [self trace fst snd].
  destruct (ccr f), (ccq f), (settle f), u; try reflexivity.
  destruct H as [H | [H | [H | H]]]; discriminate.
Qed.

Lemma write_back (h : list node) (a : nat) n : h !! a = Some n -> <[a := n]> h = h.
Proof. apply list_insert_id. Qed.

Lemma _update_future_idle a w sb f :
  heap w !! a = Some {| nbase := sb; ncls := CurrencyFuture f |} ->
  (forall ua : addr, underlying sb = Some ua -> exists un, heap w !! ua = Some un) ->
  ccr f = None \/ ccq f = None \/ settle f = None \/ underlying sb = None ->
  _update E a w
  = (Ok tt, {| heap := heap w; log := log w ++ [EvUpdate a] |}).
Proof.
  intros Ha Hwf Hidle.
  destruct (underlying sb) as [ua|] eqn:Hu.
  - destruct (Hwf ua eq_refl) as [un Hun].
    rewrite (_update_future E a w sb f ua un Ha Hu Hun), run_method_eq.
    rewrite CurrencyFuture_update_idle.
    + cbn [fst snd self trace heap log].
    erewrite write_back by exact Ha. now rewrite app_nil_r.
    + destruct Hidle as [H | [H | [H | H]]]; auto. discriminate.
  - rewrite (_update_future_orphan E a w sb f Ha Hu), run_method_eq.
    rewrite CurrencyFuture_update_idle by auto.
    cbn [fst snd self trace heap log].
    erewrite write_back by exact Ha. now rewrite app_nil_r.
Qed.

Lemma _update_option_idle a w sb o ua ub f :
  heap w !! a = Some {| nbase := sb; ncls := CurrencyFutureOption o |} ->
  underlying sb = Some ua ->
  heap w !! ua = Some {| nbase := ub; ncls := CurrencyFuture f |} ->
  has_inputs sb ub f o = false ->
  _update E a w
  = (Ok tt, {| heap := heap w; log := log w ++ [EvUpdate a] |}).
Proof.
  intros Ha Hu Hua Hin.
  rewrite (_update_option E a w sb o ua ub f Ha Hu Hua), run_method_eq.
  rewrite (CurrencyFutureOption_update_idle E a sb ub f
             {| self := o; trace := [] |} Hin).
  cbn [fst snd self trace heap log].
    erewrite write_back by exact Ha. now rewrite app_nil_r.
Qed.

End FutureEdges.

(** X21.  When the mark of the underlying is 0 and the future has a mark of
    its own, the recompute of a future with both rates and a settlement
    raises ZeroDivisionError in the cost of carry, after it has stored the
    modeled prices: the prices are the new ones and the carry is the old
    one. *)
Theorem future_update_stops_at_zero_mark E a w sb f ua un r q s m :
  heap w !! a = Some {| nbase := sb; ncls := CurrencyFuture f |} ->
  underlying sb = Some ua ->
  heap w !! ua = Some un ->
  ccr f = Some r -> ccq f = Some q -> settle f = Some s ->
  mark (nbase un) = Some 0 -> mark sb = Some m ->
  exists f',
    _update E a w
    = (Raise ZeroDivisionError,
       {| heap := <[a := {| nbase := sb; ncls := CurrencyFuture f' |}]> (heap w);
          log := log w ++ [EvUpdate a] |})
    /\ fprice f'
       = model_prices r q (future_r_tenor E sb s) (nbase un) (fprice f)
    /\ carry f' = carry f.
Proof.
  intros Ha Hu Hua Hr Hq Hs Hum Hm.
  rewrite (_update_future E a w sb f ua un Ha Hu Hua), run_method_eq.
  rewrite (CurrencyFuture_update_zero E sb (nbase un) f r q s m Hr Hq Hs Hum Hm).
  simpl. eexists. split; [now rewrite app_nil_r |]. split; reflexivity.
Qed.

(** A spot at 0 quoted 0 / 0 and a future on it at 1 quoted 1 / 1. *)
Definition zero_spot_and_future : world :=
  {| heap :=
       [ {| nbase := quoted (Some 0) (Some 0) (Some 0) (Some 0) None [1%nat];
            ncls := FXSpot |};
         {| nbase := quoted (Some 1) (Some 1) (Some 1) (Some 0) (Some 0%nat) [];
            ncls := CurrencyFuture (rated 0 0 90%Z) |} ];
     log := [] |}.

Lemma future_update_stops_at_zero_mark_witness :
  exists f',
    _update sample_externals 1%nat zero_spot_and_future
    = (Raise ZeroDivisionError,
       {| heap := <[1%nat := {| nbase := quoted (Some 1) (Some 1) (Some 1)
                                           (Some 0) (Some 0%nat) [];
                                ncls := CurrencyFuture f' |}]>
                    (heap zero_spot_and_future);
          log := [EvUpdate 1%nat] |})
    /\ p_bid (fprice f') = Some (0 * exp ((0 - 0) * (IZR (90 - 0) / 360)))
    /\ carry f' = None.
Proof.
  destruct (future_update_stops_at_zero_mark sample_externals 1%nat
              zero_spot_and_future _ _ 0%nat _ 0 0 90%Z 1
              eq_refl eq_refl eq_refl eq_refl eq_refl eq_refl eq_refl eq_refl)
    as (f' & H & Hp & Hc).
  exists f'. split; [exact H |]. rewrite Hp. split; [reflexivity | exact Hc].
Defined.

(** X22.  A recompute that lacks an input returns and changes nothing: that
    of a future without a rate, a settlement or an underlying, and that of
    an option on a future when a rate of the future, the type, a quote on
    either side or the mark of the future is missing. *)
Theorem recompute_without_inputs E a w sb :
  (forall f,
      heap w !! a = Some {| nbase := sb; ncls := CurrencyFuture f |} ->
      (forall ua : addr, underlying sb = Some ua ->
                         exists un, heap w !! ua = Some un) ->
      ccr f = None \/ ccq f = None \/ settle f = None \/ underlying sb = None ->
      _update E a w
      = (Ok tt, {| heap := heap w; log := log w ++ [EvUpdate a] |}))
  /\ (forall o ua ub f,
        heap w !! a = Some {| nbase := sb; ncls := CurrencyFutureOption o |} ->
        underlying sb = Some ua ->
        heap w !! ua = Some {| nbase := ub; ncls := CurrencyFuture f |} ->
        has_inputs sb ub f o = false ->
        _update E a w
        = (Ok tt, {| heap := heap w; log := log w ++ [EvUpdate a] |})).
Proof.
  split.
  - intros f. apply _update_future_idle.
  - intros o ua ub f. apply _update_option_idle.
Qed.

Lemma recompute_without_inputs_witness :
  _update sample_externals 0%nat lone_future
  = (Ok tt, {| heap := heap lone_future; log := [EvUpdate 0%nat] |}).
Proof.
  refine (proj1 (recompute_without_inputs sample_externals 0%nat lone_future _)
            _ eq_refl _ _).
  - intros ua H. discriminate.
  - right. right. right. reflexivity.
Defined.

(** X23.  A side that the underlying does not quote keeps its modeled
    value: when the underlying has an ask and no bid, the recompute of a
    future with both rates and a settlement leaves the modeled bid as it
    was, models the ask from the underlying's, and computes the modeled
    mark and spread from the old bid and the new ask. *)
Theorem future_keeps_unquoted_side E a w sb f ua un r q s b0 y :
  heap w !! a = Some {| nbase := sb; ncls := CurrencyFuture f |} ->
  underlying sb = Some ua ->
  heap w !! ua = Some un ->
  ccr f = Some r -> ccq f = Some q -> settle f = Some s ->
  _bid (nbase un) = None -> _ask (nbase un) = Some y ->
  p_bid (fprice f) = Some b0 ->
  exists f',
    heap (snd (_update E a w)) !! a
    = Some {| nbase := sb; ncls := CurrencyFuture f' |}
    /\ p_bid (fprice f') = Some b0
    /\ p_ask (fprice f') = Some (y * exp ((r - q) * future_r_tenor E sb s))
    /\ p_mark (fprice f')
       = Some ((b0 + y * exp ((r - q) * future_r_tenor E sb s)) / 2)
    /\ p_spread (fprice f')
       = Some (y * exp ((r - q) * future_r_tenor E sb s) - b0).
Proof.
  intros Ha Hu Hua Hr Hq Hs Hb Hk Hb0.
  rewrite (_update_future E a w sb f ua un Ha Hu Hua), run_method_eq.
  pose proof (CurrencyFuture_update_prices E sb (nbase un) f r q s
                {| self := f; trace := [] |} eq_refl Hr Hq Hs) as Hp.
  cbn [snd heap].
  eexists. split.
  { apply list_lookup_insert_eq. now apply lookup_lt_Some in Ha. }
  rewrite Hp. unfold model_prices. rewrite Hb, Hk, Hb0. simpl.
  repeat split.
Qed.

(** A spot at 0 that quotes an ask only, and a future on it at 1 that holds
    a modeled bid. *)
Definition one_sided_spot_and_future : world :=
  {| heap :=
       [ {| nbase := quoted None (Some 2) None None None [1%nat];
            ncls := FXSpot |};
         {| nbase := quoted None None None None (Some 0%nat) [];
            ncls := CurrencyFuture
                      {| _rf := Some 0; ccr := Some 0; _qf := Some 0;
                         ccq := Some 0; settle := Some 90%Z; carry := None;
                         fprice := {| p_bid := Some 1; p_ask := None;
                                      p_mark := None; p_spread := None |} |} |} ];
     log := [] |}.

Lemma future_keeps_unquoted_side_witness :
  exists f',
    heap (snd (_update sample_externals 1%nat one_sided_spot_and_future))
      !! 1%nat
    = Some {| nbase := quoted None None None None (Some 0%nat) [];
              ncls := CurrencyFuture f' |}
    /\ p_bid (fprice f') = Some 1.
Proof.
  destruct (future_keeps_unquoted_side sample_externals 1%nat
              one_sided_spot_and_future _ _ 0%nat _ 0 0 90%Z 1 2
              eq_refl eq_refl eq_refl eq_refl eq_refl eq_refl eq_refl eq_refl
              eq_refl) as (f' & H & Hb & _).
  exists f'. split; [exact H | exact Hb].
Defined.

(** ** Quote, or bid and then ask *)

Lemma bid_then_ask_base b k s :
  base_after (SetAsk (Some k)) (base_after (SetBid (Some b)) s)
  = base_after (Quote (Some b) (Some k)) s.
Proof. simpl. destruct (_ask s); reflexivity. Qed.

Lemma mutate_node E a m w n :
  heap w !! a = Some n ->
  exists n', heap (snd (mutate E a m w)) !! a = Some n'
             /\ nbase n' = base_after m (nbase n).
Proof.
  intros Ha.
  pose proof (mutate_bases E a m w n Ha) as Hb.
  assert (Hat : nbase <$> (heap (snd (mutate E a m w)) !! a)
                = Some (base_after m (nbase n))).
  { rewrite <- list_lookup_fmap, Hb. apply list_lookup_insert_eq.
    rewrite length_fmap. now apply lookup_lt_Some in Ha. }
  destruct (heap (snd (mutate E a m w)) !! a) as [n'|]; [| discriminate].
  exists n'. split; [reflexivity | now injection Hat].
Qed.

(** X24.  Assigning a bid and then an ask leaves every object with the
    base attributes (quotes, mark, spread and the rest) that [quote] with
    the same two numbers leaves, but recomputes the object and each of its
    derivatives twice where [quote] recomputes them once. *)
Theorem quote_is_bid_then_ask E a b k w n :
  heap w !! a = Some n ->
  nbase <$> heap (snd (ask_setter E a (Some k)
                         (snd (bid_setter E a (Some b) w))))
  = nbase <$> heap (snd (quote E a (Some b) (Some k) w))
  /\ forall w1 w2 wq,
       bid_setter E a (Some b) w = (Ok tt, w1) ->
       ask_setter E a (Some k) w1 = (Ok tt, w2) ->
       quote E a (Some b) (Some k) w = (Ok tt, wq) ->
       List.filter is_update (log w2)
       = List.filter is_update (log wq)
         ++ map EvUpdate (a :: derivatives (nbase n)).
Proof.
  intros Ha.
  destruct (mutate_node E a (SetBid (Some b)) w n Ha) as (n1 & Hn1 & Hb1).
  change (mutate E a (SetBid (Some b)) w) with (bid_setter E a (Some b) w)
    in Hn1.
  split.
  - pose proof (mutate_bases E a (SetAsk (Some k)) _ n1 Hn1) as H2.
    pose proof (mutate_bases E a (SetBid (Some b)) w n Ha) as H1.
    pose proof (mutate_bases E a (Quote (Some b) (Some k)) w n Ha) as Hq.
    change (mutate E a (SetAsk (Some k))) with (ask_setter E a (Some k)) in H2.
    change (mutate E a (SetBid (Some b)) w) with (bid_setter E a (Some b) w)
      in H1.
    change (mutate E a (Quote (Some b) (Some k)) w)
      with (quote E a (Some b) (Some k) w) in Hq.
    rewrite H2, H1, Hq, Hb1, bid_then_ask_base.
    apply list_insert_insert_eq.
  - intros w1 w2 wq H1 H2 Hq.
    rewrite H1 in Hn1. simpl in Hn1.
    pose proof (mutate_recomputes E a (SetBid (Some b)) w n w1 Ha H1) as L1.
    pose proof (mutate_recomputes E a (SetAsk (Some k)) w1 n1 w2 Hn1 H2) as L2.
    pose proof (mutate_recomputes E a (Quote (Some b) (Some k)) w n wq Ha Hq)
      as Lq.
    unfold recomputed in L1, L2, Lq. simpl in L1, L2, Lq.
    rewrite Hb1, base_after_derivatives in L2.
    rewrite L2, L1, Lq. reflexivity.
Qed.

Lemma quote_is_bid_then_ask_witness :
  nbase <$> heap (snd (ask_setter sample_externals 0%nat (Some 5)
                         (snd (bid_setter sample_externals 0%nat (Some 3)
                                 spot_and_future))))
  = nbase <$> heap (snd (quote sample_externals 0%nat (Some 3) (Some 5)
                           spot_and_future)).
Proof.
  exact (proj1 (quote_is_bid_then_ask sample_externals 0%nat 3 5
                  spot_and_future _ eq_refl)).
Defined.

(** ** A future, once constructed *)

Section FutureConstructed.

Variable E : externals.

(** [alert_derivatives] on an object that has no derivative. *)
Lemma alert_nobody a w n :
  heap w !! a = Some n -> derivatives (nbase n) = [] ->
  alert_derivatives E a w = (Ok tt, w).
Proof.
  intros Ha Hd. unfold alert_derivatives.
  erewrite bind_ok by (apply get_ok; exact Ha). now rewrite Hd.
Qed.

Lemma CurrencyFuture_init_run x y s ts qs ua w ub cu :
  heap w !! ua = Some {| nbase := ub; ncls := cu |} ->
  let k := length (heap w) in
  let cr := 360 * ln (1 + x / 360) in
  let cq := 360 * ln (1 + y / 360) in
  let newb := {| _bid := None; _ask := None; mark := None; spread := None;
                 tsym := ts; qsym := qs; underlying := Some ua;
                 derivatives := []; _now := None; isSnapshot := false |} in
  let upd := {| nbase := with_links (underlying ub) (derivatives ub ++ [k]) ub;
                ncls := cu |} in
  CurrencyFuture_init E (Some x) (Some y) (Some s) ts qs (Some ua) w
  = (Ok k,
     {| heap :=
          <[k := {| nbase := newb;
                    ncls := CurrencyFuture
                              {| _rf := Some x; ccr := Some cr;
                                 _qf := Some y; ccq := Some cq;
                                 settle := Some s; carry := None;
                                 fprice := model_prices cr cq
                                             (future_r_tenor E newb s) ub
                                             null_prices |} |}]>
            (<[ua := upd]>
               (heap w ++ [ {| nbase := newb;
                               ncls := CurrencyFuture
                                         {| _rf := None; ccr := None;
                                            _qf := None; ccq := None;
                                            settle := Some s; carry := None;
                                            fprice := null_prices |} |} ]));
        log := (log w ++ [EvUpdate k]) ++ [EvUpdate k] |}).
Proof.
  intros Hua k cr cq newb upd.
  assert (Hlt : (ua < k)%nat) by (now apply lookup_lt_Some in Hua).
  set (f0 := {| _rf := None; ccr := None; _qf := None; ccq := None;
                settle := Some s; carry := None; fprice := null_prices |}).
  set (h1 := <[ua := upd]> (heap w ++ [ {| nbase := newb;
                                            ncls := CurrencyFuture f0 |} ])).
  assert (Hlen1 : length h1 = S k)
    by (unfold h1; rewrite length_insert, length_app; simpl; unfold k; lia).
  assert (H1k : h1 !! k = Some {| nbase := newb; ncls := CurrencyFuture f0 |}).
  { unfold h1. rewrite lookup_insert_other by lia.
    rewrite lookup_app_r by (unfold k; lia).
    now replace (k - length (heap w))%nat with 0%nat by (unfold k; lia). }
  assert (H1u : h1 !! ua = Some upd).
  { unfold h1. apply list_lookup_insert_eq. rewrite length_app. simpl.
    unfold k in Hlt. lia. }
  unfold CurrencyFuture_init.
  erewrite bind_ok by (exact (BaseInstrument_init_ok _ _ _ _ _ _ _ Hua)).
  fold k. fold newb. fold upd. fold f0. fold h1.
  (* rf *)
  set (f1 := with_rf (Some x) (Some cr) f0).
  set (h2 := <[k := {| nbase := newb; ncls := CurrencyFuture f1 |}]> h1).
  assert (H2k : h2 !! k = Some {| nbase := newb; ncls := CurrencyFuture f1 |})
    by (unfold h2; apply list_lookup_insert_eq; lia).
  assert (H2u : h2 !! ua = Some upd)
    by (unfold h2; rewrite lookup_insert_other by lia; exact H1u).
  assert (Hu2 : _update E k {| heap := h2; log := log w |}
                = (Ok tt, {| heap := h2; log := log w ++ [EvUpdate k] |})).
  { rewrite (_update_future E k {| heap := h2; log := log w |} newb f1
               ua upd H2k eq_refl H2u), run_method_eq.
    rewrite CurrencyFuture_update_idle by (right; left; reflexivity).
    cbn [fst snd self trace heap log].
    erewrite write_back by exact H2k. rewrite app_nil_r. reflexivity. }
  assert (Hrf : rf_setter E k (Some x) {| heap := h1; log := log w |}
                = (Ok tt, {| heap := h2; log := log w ++ [EvUpdate k] |})).
  { unfold rf_setter.
    erewrite bind_ok
      by (exact (modify_future_ok k _ {| heap := h1; log := log w |} newb f0
                   H1k)).
    erewrite bind_ok by exact Hu2.
    apply (alert_nobody k {| heap := h2; log := log w ++ [EvUpdate k] |} _
             H2k). reflexivity. }
  erewrite bind_ok by exact Hrf.
  (* qf *)
  set (f2 := with_qf (Some y) (Some cq) f1).
  set (h3 := <[k := {| nbase := newb; ncls := CurrencyFuture f2 |}]> h2).
  assert (H3k : h3 !! k = Some {| nbase := newb; ncls := CurrencyFuture f2 |})
    by (unfold h3, h2; apply list_lookup_insert_eq;
        rewrite length_insert; lia).
  assert (H3u : h3 !! ua = Some upd)
    by (unfold h3; rewrite lookup_insert_other by lia; exact H2u).
  set (f3 := with_fprice (model_prices cr cq (future_r_tenor E newb s) ub
                            null_prices) f2).
  assert (Hup : CurrencyFuture_update E newb (Some (nbase upd))
                  {| self := f2; trace := [] |}
                = (Ok tt, {| self := f3; trace := [] |})).
  { unfold CurrencyFuture_update, bind, read, assign, ret. simpl.
    destruct (mark ub); reflexivity. }
  set (h4 := <[k := {| nbase := newb; ncls := CurrencyFuture f3 |}]> h3).
  assert (H4k : h4 !! k = Some {| nbase := newb; ncls := CurrencyFuture f3 |})
    by (unfold h4, h3, h2; apply list_lookup_insert_eq;
        rewrite !length_insert; lia).
  assert (Hu3 : _update E k {| heap := h3; log := log w ++ [EvUpdate k] |}
                = (Ok tt,
                   {| heap := h4;
                      log := (log w ++ [EvUpdate k]) ++ [EvUpdate k] |})).
  { rewrite (_update_future E k
               {| heap := h3; log := log w ++ [EvUpdate k] |} newb f2
               ua upd H3k eq_refl H3u), run_method_eq.
    rewrite Hup. cbn [fst snd self trace heap log].
    rewrite app_nil_r. reflexivity. }
  assert (Hqf : qf_setter E k (Some y)
                  {| heap := h2; log := log w ++ [EvUpdate k] |}
                = (Ok tt,
                   {| heap := h4;
                      log := (log w ++ [EvUpdate k]) ++ [EvUpdate k] |})).
  { unfold qf_setter.
    erewrite bind_ok
      by (exact (modify_future_ok k _
                   {| heap := h2; log := log w ++ [EvUpdate k] |} newb f1
                   H2k)).
    erewrite bind_ok by exact Hu3.
    apply (alert_nobody k
             {| heap := h4; log := (log w ++ [EvUpdate k]) ++ [EvUpdate k] |}
             _ H4k). reflexivity. }
  erewrite bind_ok by exact Hqf.
  unfold ret. f_equal. f_equal.
  unfold h4, h3, h2, h1. now rewrite !list_insert_insert_eq.
Qed.

End FutureConstructed.

(** X25.  Constructing a future with two numeric rates and a settlement on
    an existing underlying returns the new object, which holds the rates,
    their continuously compounded conversions [360 * ln (1 + rate / 360)]
    and the settlement, no cost of carry, and prices already modeled from
    the quotes of the underlying over the tenor from the wall clock to the
    settlement; the constructor has recomputed the new object twice, once
    for each rate. *)
Theorem future_is_modeled_at_construction E x y s ts qs ua w ub cu :
  heap w !! ua = Some {| nbase := ub; ncls := cu |} ->
  exists w' sb f,
    CurrencyFuture_init E (Some x) (Some y) (Some s) ts qs (Some ua) w
    = (Ok (length (heap w)), w')
    /\ heap w' !! length (heap w)
       = Some {| nbase := sb; ncls := CurrencyFuture f |}
    /\ underlying sb = Some ua
    /\ _rf f = Some x /\ ccr f = Some (360 * ln (1 + x / 360))
    /\ _qf f = Some y /\ ccq f = Some (360 * ln (1 + y / 360))
    /\ settle f = Some s /\ carry f = None
    /\ fprice f
       = model_prices (360 * ln (1 + x / 360)) (360 * ln (1 + y / 360))
           (actual360_T E (wall_clock E) s) ub null_prices
    /\ log w'
       = log w ++ [EvUpdate (length (heap w)); EvUpdate (length (heap w))].
Proof.
  intros Hua.
  assert (Hlt : (ua < length (heap w))%nat) by (now apply lookup_lt_Some in Hua).
  pose proof (CurrencyFuture_init_run E x y s ts qs ua w ub cu Hua) as Hrun.
  cbv zeta in Hrun. rewrite Hrun.
  eexists. eexists. eexists. split; [reflexivity |]. cbn [heap log].
  split.
  { apply list_lookup_insert_eq.
    rewrite length_insert, length_app. simpl. lia. }
  split; [reflexivity |].
  repeat (split; [reflexivity |]).
  now rewrite <- app_assoc.
Qed.

Lemma future_is_modeled_at_construction_witness :
  exists w' sb f,
    CurrencyFuture_init sample_externals (Some 0) (Some 0) (Some 90%Z) None
      None (Some 0%nat) spot_and_future
    = (Ok 2%nat, w')
    /\ heap w' !! 2%nat = Some {| nbase := sb; ncls := CurrencyFuture f |}
    /\ p_bid (fprice f)
       = Some (1 * exp ((360 * ln (1 + 0 / 360) - 360 * ln (1 + 0 / 360))
                        * (IZR (90 - 0) / 360))).
Proof.
  destruct (future_is_modeled_at_construction sample_externals 0 0 90%Z None
              None 0%nat spot_and_future _ _ eq_refl)
    as (w' & sb & f & Hi & Hk & _ & _ & _ & _ & _ & _ & _ & Hp & _).
  exists w', sb, f. split; [exact Hi |]. split; [exact Hk |].
  rewrite Hp. reflexivity.
Defined.


(** ** Moneyness and probability after a calibration *)

Section Lagging.

Variable E : externals.

Lemma _update_option_pass a w sb o ua ub f ot F r q v rp v' :
  heap w !! a = Some {| nbase := sb; ncls := CurrencyFutureOption o |} ->
  underlying sb = Some ua ->
  heap w !! ua = Some {| nbase := ub; ncls := CurrencyFuture f |} ->
  ccr f = Some r -> ccq f = Some q -> otype o = Some ot ->
  is_call (otype o) || is_put (otype o) = true ->
  is_number (_bid sb) || is_number (_ask sb) = true ->
  mark ub = Some F ->
  _manual_vol o = false -> _vol o = Some v ->
  strike o <> 0 -> F <> 0 ->
  reference_price E sb (otype o) F (strike o)
    (std_moneyness (otype o) F (strike o) (t_tenor E ub o) v) = Some rp ->
  newton E (objective E rp (otype o) r (r_tenor E ub o) (t_tenor E ub o) F
              (strike o)) v = Some v' ->
  exists res o',
    _update E a w
    = (res, {| heap := <[a := {| nbase := sb; ncls := CurrencyFutureOption o' |}]>
                         (heap w);
               log := log w ++ [EvUpdate a; EvNewton a v rp] |})
    /\ _vol o' = Some v'
    /\ moneyness o'
       = Some (std_moneyness (otype o) F (strike o) (t_tenor E ub o) v)
    /\ probability o'
       = Some (norm_cdf E (std_moneyness (otype o) F (strike o)
                             (t_tenor E ub o) v)).
Proof.
  intros Ha Hu Hua Hr Hq Hot Hcp Hba HF Hman Hv HK HF0 Hrp Hn.
  rewrite (_update_option E a w sb o ua ub f Ha Hu Hua).
  unfold run_method, CurrencyFutureOption_update.
  erewrite bind_ok by reflexivity. cbn [self].
  rewrite Hr, Hq, Hot, Hba, HF, Hman. cbn [is_number andb].
  rewrite <- Hot.
  erewrite bind_ok.
  2:{ change recursion_limit with (S (S 998)).
      rewrite _calc_implied_passes. cbn [self]. rewrite Hv.
      unfold single_pass. erewrite bind_ok; [reflexivity |].
      exact (reference_and_solve_ok E a sb ub f v {| self := o; trace := [] |}
               F r rp v' HF Hr Hcp HK HF0 Hrp Hn). }
  rewrite _calc_price_priced. cbn [self trace].
  match goal with
  | |- context [priced E ub f ?o2] =>
      pose proof (priced_keeps E ub f o2) as (_ & _ & _ & K4 & _ & K6 & K7)
  end.
  cbv zeta in K4, K6, K7.
  do 2 eexists. split.
  { cbn [log heap app]. rewrite <- app_assoc. reflexivity. }
  rewrite K4, K6, K7. simpl. repeat split.
Qed.

End Lagging.

(** X26.  After the recompute of a call or a put that held the volatility
    [v] and for which the root-finder returns [v'], the option holds the
    volatility [v'], but its moneyness is the standardized moneyness at [v],
    the volatility the pass started from, and its probability is the
    distribution function at that moneyness; the pass has made one
    root-finder call and no first guess. *)
Theorem moneyness_lags_volatility E a w sb o ua ub f ot F r q v rp v' :
  heap w !! a = Some {| nbase := sb; ncls := CurrencyFutureOption o |} ->
  underlying sb = Some ua ->
  heap w !! ua = Some {| nbase := ub; ncls := CurrencyFuture f |} ->
  ccr f = Some r -> ccq f = Some q -> otype o = Some ot ->
  is_call (otype o) || is_put (otype o) = true ->
  is_number (_bid sb) || is_number (_ask sb) = true ->
  mark ub = Some F ->
  _manual_vol o = false -> _vol o = Some v ->
  strike o <> 0 -> F <> 0 ->
  reference_price E sb (otype o) F (strike o)
    (std_moneyness (otype o) F (strike o) (t_tenor E ub o) v) = Some rp ->
  newton E (objective E rp (otype o) r (r_tenor E ub o) (t_tenor E ub o) F
              (strike o)) v = Some v' ->
  exists res o',
    _update E a w
    = (res, {| heap := <[a := {| nbase := sb; ncls := CurrencyFutureOption o' |}]>
                         (heap w);
               log := log w ++ [EvUpdate a; EvNewton a v rp] |})
    /\ _vol o' = Some v'
    /\ moneyness o'
       = Some (std_moneyness (otype o) F (strike o) (t_tenor E ub o) v)
    /\ probability o'
       = Some (norm_cdf E (std_moneyness (otype o) F (strike o)
                             (t_tenor E ub o) v)).
Proof. exact (_update_option_pass E a w sb o ua ub f ot F r q v rp v'). Qed.

Lemma moneyness_lags_volatility_witness :
  exists res o',
    _update one_step_externals 1%nat (future_and_call (Some (2 / 10)))
    = (res,
       {| heap := <[1%nat := {| nbase := call_base;
                                ncls := CurrencyFutureOption o' |}]>
                    (heap (future_and_call (Some (2 / 10))));
          log := [EvUpdate 1%nat; EvNewton 1%nat (2 / 10) (1 / 10)] |})
    /\ moneyness o'
       = Some (std_moneyness (Some "call"%string) ((1 + 1) / 2) 1
                 (t_tenor one_step_externals future_base
                    (call_attrs (Some (2 / 10)))) (2 / 10)).
Proof.
  assert (HK : strike (call_attrs (Some (2 / 10))) <> 0) by (simpl; lra).
  assert (HF : (1 + 1) / 2 <> 0) by lra.
  destruct (moneyness_lags_volatility one_step_externals 1%nat
              (future_and_call (Some (2 / 10))) call_base
              (call_attrs (Some (2 / 10))) 0%nat future_base (rated 0 0 90%Z)
              "call"%string ((1 + 1) / 2) 0 0 (2 / 10) (1 / 10) _
              eq_refl eq_refl eq_refl eq_refl eq_refl eq_refl eq_refl eq_refl
              eq_refl eq_refl eq_refl HK HF
              (reference_price_quoted one_step_externals _) eq_refl)
    as (res & o' & H & _ & Hm & _).
  exists res, o'. split; [exact H | exact Hm].
Defined.

(** ** Recomputing twice: the wall clock and the calibration *)

(** The collaborators [E] at another reading of the wall clock. *)
Definition at_wall_clock (t : time) (E : externals) : externals :=
  {| wall_clock := t;
     actual360_T := actual360_T E;
     trading_T := trading_T E;
     trading_days := trading_days E;
     norm_cdf := norm_cdf E;
     norm_pdf := norm_pdf E;
     newton := newton E |}.

(** No time has been assigned to [now]: the property reads the wall
    clock. *)
Definition unset_clock (b : base) : bool :=
  match _now b with
  | Some _ => false
  | None => true
  end.

Definition is_set {A} (x : option A) : bool :=
  match x with
  | Some _ => true
  | None => false
  end.

(** Whether the recompute of the object at [a] computes a tenor from the
    wall clock.  A future with both rates, a settlement and an underlying
    computes its tenor from its own [now]; an option whose guard passes
    computes its tenors from the [now] of its underlying; a spot computes
    none. *)
Definition on_wall_clock (w : world) (a : addr) : bool :=
  match heap w !! a with
  | Some {| nbase := sb; ncls := CurrencyFuture f |} =>
      is_number (ccr f) && is_number (ccq f) && is_set (settle f)
      && is_set (underlying sb) && unset_clock sb
  | Some {| nbase := sb; ncls := CurrencyFutureOption o |} =>
      match underlying sb with
      | Some ua =>
          match heap w !! ua with
          | Some {| nbase := ub; ncls := CurrencyFuture f |} =>
              is_number (ccr f) && is_number (ccq f) && is_set (otype o)
              && (is_number (_bid sb) || is_number (_ask sb))
              && is_number (mark ub)
              && unset_clock ub
          | _ => false
          end
      | None => false
      end
  | _ => false
  end.

(** The attribute [g] of the option at [a]. *)
Definition stored (g : option_attrs -> option R) (w : world) (a : addr)
  : option R :=
  match heap w !! a with
  | Some {| ncls := CurrencyFutureOption o |} => g o
  | _ => None
  end.

(** The spot of [spot_and_future] and a future on it whose clock has been
    assigned. *)
Definition clocked_spot_and_future : world :=
  {| heap :=
       [ {| nbase := quoted (Some 1) (Some 2) (Some ((1 + 2) / 2))
                       (Some (2 - 1)) None [1%nat];
            ncls := FXSpot |};
         {| nbase := {| _bid := None; _ask := None; mark := None;
                        spread := None; tsym := None; qsym := None;
                        underlying := Some 0%nat; derivatives := [];
                        _now := Some 10%Z; isSnapshot := false |};
            ncls := CurrencyFuture (rated 0 0 90%Z) |} ];
     log := [] |}.

(** A future at 0 quoted 11/10 on both sides with flat rates, whose clock
    has been assigned, and a call on it at 1, struck at 1, quoted
    12/100 / 14/100, holding the volatility 2/10. *)
Definition forward_base : base :=
  {| _bid := Some (11 / 10); _ask := Some (11 / 10);
     mark := Some ((11 / 10 + 11 / 10) / 2);
     spread := Some (11 / 10 - 11 / 10); tsym := None; qsym := None;
     underlying := None; derivatives := [1%nat]; _now := Some 0%Z;
     isSnapshot := false |}.

Definition two_sided_call_base : base :=
  quoted (Some (12 / 100)) (Some (14 / 100))
    (Some ((12 / 100 + 14 / 100) / 2)) (Some (14 / 100 - 12 / 100))
    (Some 0%nat) [].

Definition future_and_quoted_call : world :=
  {| heap := [ {| nbase := forward_base;
                  ncls := CurrencyFuture (rated 0 0 90%Z) |};
               {| nbase := two_sided_call_base;
                  ncls := CurrencyFutureOption (call_attrs (Some (2 / 10))) |} ];
     log := [] |}.

Section OffTheWallClock.

Variable E : externals.
Variable t : time.

Lemma CurrencyFuture_update_off_wall_clock sb u f tr :
  is_number (ccr f) && is_number (ccq f) && is_set (settle f)
  && is_set u && unset_clock sb = false ->
  CurrencyFuture_update (at_wall_clock t E) sb u {| self := f; trace := tr |}
  = CurrencyFuture_update E sb u {| self := f; trace := tr |}.
Proof.
  unfold CurrencyFuture_update, future_r_tenor, now_of, unset_clock.
  unfold bind, read. cbn [self fst snd].
  destruct (ccr f), (ccq f), (settle f), u; try reflexivity.
  destruct (_now sb); [reflexivity | discriminate].
Qed.

Lemma priced_off_wall_clock ub f o :
  unset_clock ub = false ->
  priced (at_wall_clock t E) ub f o = priced E ub f o.
Proof.
  unfold unset_clock, priced, t_tenor, r_tenor, now_of.
  destruct (_now ub); [reflexivity | discriminate].
Qed.

Lemma CurrencyFutureOption_update_off_wall_clock a sb ub f o :
  is_number (ccr f) && is_number (ccq f)
  && (match otype o with Some _ => true | None => false end)
  && (is_number (_bid sb) || is_number (_ask sb))
  && is_number (mark ub) && negb (_manual_vol o) = false ->
  is_number (ccr f) && is_number (ccq f) && is_set (otype o)
  && (is_number (_bid sb) || is_number (_ask sb))
  && is_number (mark ub) && unset_clock ub = false ->
  CurrencyFutureOption_update (at_wall_clock t E) a sb ub f
    {| self := o; trace := [] |}
  = CurrencyFutureOption_update E a sb ub f {| self := o; trace := [] |}.
Proof.
  intros Hg Hk. change (is_set (otype o))
    with (match otype o with Some _ => true | None => false end) in Hk.
  destruct (is_number (ccr f) && is_number (ccq f)
            && (match otype o with Some _ => true | None => false end)
            && (is_number (_bid sb) || is_number (_ask sb))
            && is_number (mark ub)) eqn:Hin.
  - destruct (_manual_vol o) eqn:Hman; [| discriminate].
    rewrite !CurrencyFutureOption_update_manual by assumption.
    rewrite !_calc_price_priced. now rewrite priced_off_wall_clock.
  - now rewrite !CurrencyFutureOption_update_idle by assumption.
Qed.

(** A recompute that does not calibrate and computes no tenor from the wall
    clock is the same at every reading of the wall clock. *)
Lemma _update_off_wall_clock a w :
  calibrates w a = false -> on_wall_clock w a = false ->
  _update (at_wall_clock t E) a w = _update E a w.
Proof.
  intros Hc Hk. unfold calibrates in Hc. unfold on_wall_clock in Hk.
  destruct (heap w !! a) as [[sb [|f|o]]|] eqn:Ha.
  - now rewrite !(_update_spot _ a w sb Ha).
  - destruct (underlying sb) as [ua|] eqn:Hu.
    + destruct (heap w !! ua) as [un|] eqn:Hua.
      * rewrite !(_update_future _ a w sb f ua un Ha Hu Hua).
        unfold run_method.
        now rewrite CurrencyFuture_update_off_wall_clock.
      * unfold _update, emit, get, bind, ret. simpl.
        rewrite Ha. simpl. rewrite Hu. simpl. rewrite Hua. reflexivity.
    + rewrite !(_update_future_orphan _ a w sb f Ha Hu).
      unfold run_method.
      rewrite CurrencyFuture_update_off_wall_clock; [reflexivity |].
      cbn [is_set]. now rewrite andb_false_r.
  - assert (Hmain : forall ua ub f,
               underlying sb = Some ua ->
               heap w !! ua = Some {| nbase := ub; ncls := CurrencyFuture f |} ->
               _update (at_wall_clock t E) a w = _update E a w).
    { intros ua ub f Hu Hua. rewrite Hu, Hua in Hc, Hk.
      rewrite !(_update_option _ a w sb o ua ub f Ha Hu Hua).
      unfold run_method.
      now rewrite CurrencyFutureOption_update_off_wall_clock. }
    destruct (_update_option_cases E a w sb o Ha)
      as [(ua & ub & f & Hu & Hua) | H1]; [now apply (Hmain ua ub f) |].
    destruct (_update_option_cases (at_wall_clock t E) a w sb o Ha)
      as [(ua & ub & f & Hu & Hua) | H2]; [now apply (Hmain ua ub f) |].
    now rewrite H1, H2.
  - unfold _update, emit, get, bind. simpl. now rewrite Ha.
Qed.

(** The second recompute, at the reading [t] of the wall clock, of an
    object that does not calibrate and computes no tenor from the wall
    clock. *)
Lemma _update_twice_off_wall_clock a w :
  calibrates w a = false -> on_wall_clock w a = false ->
  fst (_update (at_wall_clock t E) a (snd (_update E a w)))
  = fst (_update E a w)
  /\ heap (snd (_update (at_wall_clock t E) a (snd (_update E a w))))
     = heap (snd (_update E a w)).
Proof.
  intros Hc Hk.
  pose proof (_update_twice (at_wall_clock t E) a w Hc) as H.
  rewrite (_update_off_wall_clock a w Hc Hk) in H. exact H.
Qed.

End OffTheWallClock.



Section SecondCalibration.

Variable E : externals.

Lemma reference_price_some sb ot F K m :
  is_number (_bid sb) || is_number (_ask sb) = true ->
  exists rp, reference_price E sb ot F K m = Some rp.
Proof.
  unfold reference_price, new_temp_mark.
  destruct (_bid sb), (_ask sb); try discriminate; intros _; eexists;
    reflexivity.
Qed.

(** The attributes a calibrating recompute leaves, whether its root-finder
    returned or not: the volatility is the returned one, or the one held;
    the moneyness is that of the volatility held. *)
Lemma _update_option_calibrated a w sb o ua ub f ot F r q v o1 :
  heap w !! a = Some {| nbase := sb; ncls := CurrencyFutureOption o |} ->
  underlying sb = Some ua ->
  heap w !! ua = Some {| nbase := ub; ncls := CurrencyFuture f |} ->
  ccr f = Some r -> ccq f = Some q -> otype o = Some ot ->
  is_call (otype o) || is_put (otype o) = true ->
  is_number (_bid sb) || is_number (_ask sb) = true ->
  mark ub = Some F ->
  _manual_vol o = false -> _vol o = Some v ->
  strike o <> 0 -> F <> 0 ->
  heap (snd (_update E a w)) !! a
  = Some {| nbase := sb; ncls := CurrencyFutureOption o1 |} ->
  heap (snd (_update E a w)) !! ua
  = Some {| nbase := ub; ncls := CurrencyFuture f |}
  /\ moneyness o1
     = Some (std_moneyness (otype o) F (strike o) (t_tenor E ub o) v)
  /\ otype o1 = otype o /\ strike o1 = strike o /\ expir o1 = expir o
  /\ _manual_vol o1 = false
  /\ (_vol o1 = Some v
      \/ exists rp v',
           newton E (objective E rp (otype o) r (r_tenor E ub o)
                       (t_tenor E ub o) F (strike o)) v = Some v'
           /\ _vol o1 = Some v').
Proof.
  intros Ha Hu Hua Hr Hq Hot Hcp Hba HF Hman Hv HK HF0 H1.
  assert (Hne : ua <> a) by (intros ->; rewrite Ha in Hua; discriminate).
  destruct (reference_price_some sb (otype o) F (strike o)
              (std_moneyness (otype o) F (strike o) (t_tenor E ub o) v) Hba)
    as [rp Hrp].
  destruct (newton E (objective E rp (otype o) r (r_tenor E ub o)
                        (t_tenor E ub o) F (strike o)) v) as [v'|] eqn:Hn.
  - destruct (_update_option_pass E a w sb o ua ub f ot F r q v rp v'
                Ha Hu Hua Hr Hq Hot Hcp Hba HF Hman Hv HK HF0 Hrp Hn)
      as (res & o' & Hup & Hv' & Hm' & _).
    destruct (_update_option_recalibrated E a w sb o ua ub f ot F r q v rp v'
                Ha Hu Hua Hr Hq Hot Hcp Hba HF Hman Hv HK HF0 Hrp Hn)
      as (res2 & o'' & lg & Hup2 & _ & Hot' & HK' & Hex' & Hman').
    assert (Ho' : o' = o1).
    { rewrite Hup in H1. cbn [snd heap] in H1.
      erewrite lookup_insert_same in H1 by exact Ha. congruence. }
    assert (Ho'' : o'' = o1).
    { rewrite Hup2 in H1. cbn [snd heap] in H1.
      erewrite lookup_insert_same in H1 by exact Ha. congruence. }
    subst o' o''. split.
    { rewrite Hup. cbn [snd heap]. rewrite lookup_insert_other by exact Hne.
      exact Hua. }
    repeat split; try assumption.
    right. exists rp, v'. split; [exact Hn | exact Hv'].
  - pose proof (_update_option_fails E a w sb o ua ub f ot F r q v rp
                  Ha Hu Hua Hr Hq Hot Hcp Hba HF Hman Hv HK HF0 Hrp Hn) as Hup.
    rewrite Hup in H1 |- *. cbn [snd heap] in H1 |- *.
    erewrite lookup_insert_same in H1 by exact Ha.
    injection H1 as <-. split.
    { rewrite lookup_insert_other by exact Hne. exact Hua. }
    cbn. repeat split; try assumption. now left.
Qed.

(** A second recompute in succession stores the moneyness of the
    volatility that the first one stored. *)
Lemma second_update_moneyness a w sb o ua ub f ot F r q v o1 v1 :
  heap w !! a = Some {| nbase := sb; ncls := CurrencyFutureOption o |} ->
  underlying sb = Some ua ->
  heap w !! ua = Some {| nbase := ub; ncls := CurrencyFuture f |} ->
  ccr f = Some r -> ccq f = Some q -> otype o = Some ot ->
  is_call (otype o) || is_put (otype o) = true ->
  is_number (_bid sb) || is_number (_ask sb) = true ->
  mark ub = Some F ->
  _manual_vol o = false -> _vol o = Some v ->
  strike o <> 0 -> F <> 0 ->
  heap (snd (_update E a w)) !! a
  = Some {| nbase := sb; ncls := CurrencyFutureOption o1 |} ->
  _vol o1 = Some v1 ->
  moneyness o1
  = Some (std_moneyness (otype o) F (strike o) (t_tenor E ub o) v)
  /\ exists o2,
       heap (snd (_update E a (snd (_update E a w)))) !! a
       = Some {| nbase := sb; ncls := CurrencyFutureOption o2 |}
       /\ moneyness o2
          = Some (std_moneyness (otype o) F (strike o) (t_tenor E ub o) v1).
Proof.
  intros Ha Hu Hua Hr Hq Hot Hcp Hba HF Hman Hv HK HF0 H1 Hv1.
  destruct (_update_option_calibrated a w sb o ua ub f ot F r q v o1
              Ha Hu Hua Hr Hq Hot Hcp Hba HF Hman Hv HK HF0 H1)
    as (H1u & Hm1 & Hot1 & HK1 & Hex1 & Hman1 & _).
  split; [exact Hm1 |].
  assert (Hot1' : otype o1 = Some ot) by congruence.
  assert (Hcp1 : is_call (otype o1) || is_put (otype o1) = true)
    by (now rewrite Hot1).
  assert (HK1' : strike o1 <> 0) by (now rewrite HK1).
  assert (Hex : exists n2, heap (snd (_update E a (snd (_update E a w)))) !! a
                           = Some n2 /\ nbase n2 = sb).
  { destruct (_update_frame E a (snd (_update E a w))) as (Hb & _ & _).
    destruct (same_view_lookup nbase _ _ a _ Hb H1) as (n2 & Hn2 & Hb2).
    exists n2. split; [exact Hn2 | exact Hb2]. }
  destruct Hex as (n2 & Hn2 & Hb2).
  destruct (_update_frame E a (snd (_update E a w))) as (_ & Hi & _).
  destruct (same_view_lookup (fun n => inputs (ncls n)) _ _ a _ Hi H1)
    as (n2' & Hn2' & Hi2).
  assert (n2' = n2) by congruence. subst n2'.
  destruct n2 as [sb2 [|f2|o2]]; simpl in Hb2, Hi2; try discriminate.
  subst sb2. exists o2. split; [exact Hn2 |].
  destruct (_update_option_calibrated a (snd (_update E a w)) sb o1 ua ub f ot
              F r q v1 o2 H1 Hu H1u Hr Hq Hot1' Hcp1 Hba HF Hman1 Hv1 HK1' HF0
              Hn2)
    as (_ & Hm2 & _).
  rewrite Hm2. unfold t_tenor. now rewrite Hot1, HK1, Hex1.
Qed.

End SecondCalibration.

Lemma std_moneyness_moves F K T v v' :
  0 < K -> K < F -> 0 < T -> v <> 0 -> v' <> 0 -> v' <> v ->
  std_moneyness (Some "call"%string) F K T v'
  <> std_moneyness (Some "call"%string) F K T v.
Proof.
  intros HK HF HT Hv Hv' Hne. unfold std_moneyness. simpl.
  assert (Hl : 0 < ln (F / K)).
  { rewrite <- ln_1. apply ln_increasing; [lra |].
    apply Rmult_lt_reg_r with K; [exact HK |].
    unfold Rdiv. rewrite Rmult_assoc, Rinv_l by lra. lra. }
  assert (Hs : 0 < sqrt T) by (now apply sqrt_lt_R0).
  set (c := ln (F / K)) in *. set (s := sqrt T) in *.
  intros Heq. apply Hne.
  assert (H : c * (s * v) = c * (s * v')).
  { replace (c * (s * v)) with (c / (s * v') * ((s * v') * (s * v)))
      by (field; split; lra).
    rewrite Heq. field. split; lra. }
  apply Rmult_eq_reg_l in H; [| lra].
  apply Rmult_eq_reg_l in H; [| lra].
  now symmetry.
Qed.


(** ** The round trip above the intrinsic value *)

(** The function handed to the root-finder for the option [o] on the
    future with base attributes [ub], forward [f_mark] and rate [ccr], when
    the price to match is [p]. *)
Definition objective_at (E : externals) (ub : base) (o : option_attrs)
    (ccr f_mark p : R) : R -> R :=
  objective E p (otype o) ccr (r_tenor E ub o) (t_tenor E ub o) f_mark
    (strike o).

(** The first guess of the calibration when the price of the guess is
    [p]. *)
Definition first_guess (E : externals) (ub : base) (o : option_attrs)
    (ccr f_mark p : R) : R :=
  _corrado_miller_implied p (otype o) (t_tenor E ub o) f_mark (strike o)
    (exp ((- ccr) * r_tenor E ub o)).

Section Converges.

Variable E : externals.

(** Bid and ask both [p], not below the intrinsic value: the price of the
    first guess is [p]. *)
Lemma temp_price_both ot F K p :
  intrinsic ot F K <= p ->
  temp_price ot F K (p * (5 / 10) + p * (5 / 10)) = p.
Proof.
  intros Hi. unfold temp_price, intrinsic in *.
  destruct (is_call ot) eqn:Hc.
  - destruct (Rge_dec F (K + (p * (5 / 10) + p * (5 / 10)))); simpl;
      [lra |].
    rewrite (call_is_not_put ot Hc). simpl. lra.
  - destruct (is_put ot); simpl; [| lra].
    destruct (Rle_dec F (K - (p * (5 / 10) + p * (5 / 10)))); simpl; lra.
Qed.

Lemma seed_estimate_both a sb ub f st F r p :
  mark ub = Some F -> ccr f = Some r ->
  _bid sb = Some p -> _ask sb = Some p ->
  intrinsic (otype (self st)) F (strike (self st)) <= p ->
  seed_estimate E a sb ub f st
  = (Ok (first_guess E ub (self st) r F p),
     {| self := with_vol (Some (first_guess E ub (self st) r F p)) (self st);
        trace := trace st ++ [EvCorradoMiller a p] |}).
Proof.
  intros HF Hr Hb Ha Hi. unfold seed_estimate, first_guess.
  unfold bind, read, require, assign, tell, ret. rewrite HF, Hr, Hb, Ha.
  simpl. now rewrite temp_price_both.
Qed.

(** Calibrating from no stored volatility to a two-sided quote [p] / [p]
    that is not below the intrinsic value, with a root-finder that returns
    on the objective for [p]: the first guess is made for the price [p],
    both passes are asked to match [p], the second starts from the result
    of the first, and its result is stored. *)
Lemma two_stage_calibration_converges a sb ub f st F r p (P : R -> Prop) :
  mark ub = Some F -> ccr f = Some r ->
  is_call (otype (self st)) || is_put (otype (self st)) = true ->
  strike (self st) <> 0 -> F <> 0 ->
  _bid sb = Some p -> _ask sb = Some p ->
  intrinsic (otype (self st)) F (strike (self st)) <= p ->
  (forall x0, exists v,
      newton E (objective_at E ub (self st) r F p) x0 = Some v /\ P v) ->
  exists v1 v st',
    two_stage_calibration E a sb ub f st = (Ok tt, st')
    /\ trace st'
       = trace st ++ [EvCorradoMiller a p;
                      EvNewton a (first_guess E ub (self st) r F p) p;
                      EvNewton a v1 p]
    /\ _vol (self st') = Some v /\ P v
    /\ otype (self st') = otype (self st)
    /\ strike (self st') = strike (self st)
    /\ expir (self st') = expir (self st).
Proof.
  intros HF Hr Hcp HK HF0 Hb Ha Hi Hconv.
  destruct st as [o tr]. cbn [self trace] in *.
  unfold two_stage_calibration.
  erewrite bind_ok
    by exact (seed_estimate_both a sb ub f {| self := o; trace := tr |} F r p
                HF Hr Hb Ha Hi).
  cbn [self trace].
  set (seed := first_guess E ub o r F p).
  set (st1 := {| self := with_vol (Some seed) o;
                 trace := tr ++ [EvCorradoMiller a p] |}).
  pose proof (reference_price_both E sb (otype o) F (strike o)
                (std_moneyness (otype o) F (strike o) (t_tenor E ub o) seed)
                p Hb Ha Hi) as Hrp1.
  destruct (Hconv seed) as (v1 & Hn1 & _).
  pose proof (reference_and_solve_ok E a sb ub f seed st1 F r p v1
                HF Hr Hcp HK HF0 Hrp1 Hn1) as H1.
  erewrite bind_ok by exact H1.
  match goal with
  | |- context [bind (reference_and_solve E a sb ub f v1) _ ?s] =>
      set (st2 := s)
  end.
  pose proof (reference_price_both E sb (otype o) F (strike o)
                (std_moneyness (otype o) F (strike o) (t_tenor E ub o) v1)
                p Hb Ha Hi) as Hrp2.
  destruct (Hconv v1) as (v2 & Hn2 & HP).
  pose proof (reference_and_solve_ok E a sb ub f v1 st2 F r p v2
                HF Hr Hcp HK HF0 Hrp2 Hn2) as H2.
  erewrite bind_ok by exact H2.
  exists v1, v2. eexists. split; [reflexivity |]. cbn [self trace].
  split; [| repeat split; try reflexivity; exact HP].
  subst st2 st1. cbn [trace]. now rewrite <- !app_assoc.
Qed.

(** The same at the level of the arena, followed by the pricing. *)
Lemma _update_round_trip a w sb o ua ub f ot F r q p (P : R -> Prop) :
  heap w !! a = Some {| nbase := sb; ncls := CurrencyFutureOption o |} ->
  underlying sb = Some ua ->
  heap w !! ua = Some {| nbase := ub; ncls := CurrencyFuture f |} ->
  ccr f = Some r -> ccq f = Some q -> otype o = Some ot ->
  is_call (otype o) || is_put (otype o) = true ->
  mark ub = Some F -> strike o <> 0 -> F <> 0 -> trading_days E <> 0 ->
  _manual_vol o = false -> _vol o = None ->
  _bid sb = Some p -> _ask sb = Some p ->
  intrinsic (otype o) F (strike o) <= p ->
  (forall x0, exists v,
      newton E (objective_at E ub o r F p) x0 = Some v /\ P v) ->
  exists v1 v o',
    _update E a w
    = (Ok tt,
       {| heap := <[a := {| nbase := sb; ncls := CurrencyFutureOption o' |}]>
                    (heap w);
          log := log w ++ [EvUpdate a; EvCorradoMiller a p;
                           EvNewton a (first_guess E ub o r F p) p;
                           EvNewton a v1 p] |})
    /\ _vol o' = Some v /\ P v
    /\ oprice o' = black76_at E ub o r F v.
Proof.
  intros Ha Hu Hua Hr Hq Hot Hcp HF HK HF0 Htd Hman Hv Hb Hask Hi Hconv.
  destruct (two_stage_calibration_converges a sb ub f
              {| self := o; trace := [] |} F r p P
              HF Hr Hcp HK HF0 Hb Hask Hi Hconv)
    as (v1 & v & st' & Hts & Htr & Hv' & HP & K1 & K2 & K3).
  cbn [self trace] in *.
  assert (Hci : _calc_implied E recursion_limit a sb ub f
                  {| self := o; trace := [] |} = (Ok tt, st')).
  { change recursion_limit with (S (S 998)).
    rewrite _calc_implied_passes. cbn [self]. now rewrite Hv. }
  assert (Hcp' : is_call (otype (self st')) || is_put (otype (self st')) = true)
    by (now rewrite K1).
  assert (HK' : strike (self st') <> 0) by (now rewrite K2).
  destruct (priced_ok E ub f (self st') r q F v Hr Hq Hcp' HF Hv' HK' Htd)
    as (Hok & Hpr & _).
  rewrite (_update_option E a w sb o ua ub f Ha Hu Hua).
  unfold run_method, CurrencyFutureOption_update.
  erewrite bind_ok by reflexivity. cbn [self].
  rewrite Hr, Hq, Hot, Hb, HF, Hman. cbn [is_number andb orb].
  erewrite bind_ok by exact Hci.
  rewrite _calc_price_priced.
  pose proof (priced_keeps E ub f (self st')) as (_ & _ & _ & K4 & _).
  cbv zeta in K4.
  exists v1, v, (snd (priced E ub f (self st'))).
  split; [| split; [now rewrite K4 | split; [exact HP |]]].
  - rewrite Hok. cbn [trace heap log]. rewrite Htr. cbn [app].
    now rewrite <- app_assoc.
  - rewrite Hpr. unfold black76_at, t_tenor, r_tenor. now rewrite K1, K2, K3.
Qed.

End Converges.

(** A function that increases, by at least [c] per unit between [lo] and
    [hi], and vanishes at [s] inside: a point where it is within [tol] of
    zero is within [tol / c] of [s], when [tol] is small enough for the
    point to lie between [lo] and [hi]. *)
Lemma near_zero_near_root (g : R -> R) s lo hi c tol v :
  (forall x y, x <= y -> g x <= g y) ->
  (forall x y, lo <= x -> x <= y -> y <= hi -> c * (y - x) <= g y - g x) ->
  g s = 0 -> lo < s < hi ->
  tol < c * (s - lo) -> tol < c * (hi - s) ->
  Rabs (g v) <= tol ->
  c * Rabs (v - s) <= tol.
Proof.
  intros Hmono Hslope Hs [Hlo Hhi] Htl Hth Hv.
  assert (Htol : 0 <= tol) by (pose proof (Rabs_pos (g v)); lra).
  assert (Hv' : - tol <= g v <= tol)
    by (unfold Rabs in Hv; destruct (Rcase_abs (g v)); lra).
  pose proof (Hslope lo s (Rle_refl _) (Rlt_le _ _ Hlo) (Rlt_le _ _ Hhi)) as Hl.
  pose proof (Hslope s hi (Rlt_le _ _ Hlo) (Rlt_le _ _ Hhi) (Rle_refl _)) as Hh.
  assert (Hvl : lo <= v).
  { destruct (Rle_lt_dec lo v) as [|Hlt]; [assumption |].
    pose proof (Hmono v lo (Rlt_le _ _ Hlt)). lra. }
  assert (Hvh : v <= hi).
  { destruct (Rle_lt_dec v hi) as [|Hlt]; [assumption |].
    pose proof (Hmono hi v (Rlt_le _ _ Hlt)). lra. }
  unfold Rabs. destruct (Rcase_abs (v - s)) as [Hneg|Hpos].
  - pose proof (Hslope v s Hvl (Rlt_le _ _ (Rminus_lt _ _ Hneg))
                  (Rlt_le _ _ Hhi)). lra.
  - pose proof (Hslope s v (Rlt_le _ _ Hlo) (Rge_le _ _ (Rminus_ge _ _ Hpos))
                  Hvh). lra.
Qed.

(** C1 (as the code has it): the bid and the ask of an option are both the
    Black-76 price [p] of the volatility [sigma], no volatility is stored,
    and [p] is not below the intrinsic value of the option (forward less
    strike for a call, strike less forward for a put).  Then the first
    guess is made for the price [p] and both root-finder passes are asked
    to match [p], so that the function handed to the root-finder vanishes
    at [sigma].  With a root-finder that, on a function that has a zero,
    returns a point where the function is within [tol] of zero, the
    calibration converges: the recompute returns, having made the first
    guess and the two passes, and the volatility it stores reprices the
    option within [tol] of [p].  Where the price increases with the
    volatility, by at least [c] per unit between [lo] and [hi] around
    [sigma], the stored volatility is within [tol / c] of [sigma]. *)
Theorem roundtrip_above_intrinsic
    E a w sb o ua ub f ot F r q p sigma tol c lo hi :
  heap w !! a = Some {| nbase := sb; ncls := CurrencyFutureOption o |} ->
  underlying sb = Some ua ->
  heap w !! ua = Some {| nbase := ub; ncls := CurrencyFuture f |} ->
  ccr f = Some r -> ccq f = Some q -> otype o = Some ot ->
  is_call (otype o) || is_put (otype o) = true ->
  mark ub = Some F -> strike o <> 0 -> F <> 0 -> trading_days E <> 0 ->
  _manual_vol o = false -> _vol o = None ->
  _bid sb = Some p -> _ask sb = Some p ->
  black76_at E ub o r F sigma = Some p ->
  intrinsic (otype o) F (strike o) <= p ->
  ((exists x, objective_at E ub o r F p x = 0) ->
   forall x0, exists v,
     newton E (objective_at E ub o r F p) x0 = Some v
     /\ Rabs (objective_at E ub o r F p v) <= tol) ->
  (forall x y, x <= y ->
               objective_at E ub o r F p x <= objective_at E ub o r F p y) ->
  (forall x y, lo <= x -> x <= y -> y <= hi ->
               c * (y - x)
               <= objective_at E ub o r F p y - objective_at E ub o r F p x) ->
  lo < sigma < hi -> tol < c * (sigma - lo) -> tol < c * (hi - sigma) ->
  exists v1 v w',
    _update E a w = (Ok tt, w')
    /\ log w'
       = log w ++ [EvUpdate a; EvCorradoMiller a p;
                   EvNewton a (first_guess E ub o r F p) p;
                   EvNewton a v1 p]
    /\ stored _vol w' a = Some v
    /\ (exists price,
          stored oprice w' a = Some price /\ Rabs (price - p) <= tol)
    /\ c * Rabs (v - sigma) <= tol.
Proof.
  intros Ha Hu Hua Hr Hq Hot Hcp HF HK HF0 Htd Hman Hv Hb Hask Hsig Hi
    Hnewton Hmono Hslope Hin Htl Hth.
  destruct (objective_black76 E ub o r F p sigma Hcp) as (ps & Hps & Hgs).
  assert (Hroot : objective_at E ub o r F p sigma = 0).
  { unfold objective_at. rewrite Hgs.
    rewrite Hsig in Hps. injection Hps as <-. ring. }
  destruct (_update_round_trip E a w sb o ua ub f ot F r q p
              (fun v => Rabs (objective_at E ub o r F p v) <= tol)
              Ha Hu Hua Hr Hq Hot Hcp HF HK HF0 Htd Hman Hv Hb Hask Hi
              (Hnewton (ex_intro _ sigma Hroot)))
    as (v1 & v & o' & Hup & Hv' & Htol & Hpr).
  exists v1, v. eexists. split; [exact Hup |]. cbn [log].
  split; [reflexivity |].
  unfold stored. cbn [heap].
  erewrite lookup_insert_same by exact Ha.
  split; [exact Hv' |]. split.
  - destruct (objective_black76 E ub o r F p v Hcp) as (pv & Hpv & Hgv).
    exists pv. split; [now rewrite Hpr |].
    unfold objective_at in Htol. now rewrite Hgv in Htol.
  - exact (near_zero_near_root _ sigma lo hi c tol v Hmono Hslope Hroot Hin
             Htl Hth Htol).
Qed.

(** *** An instance: the logistic distribution *)

(** The logistic distribution function. *)
Definition logistic (x : R) : R := 1 / (1 + exp (- x)).

(** Collaborators with the day counts of [sample_externals], the logistic
    distribution in place of the normal one, and a root-finder that knows
    one candidate, 2/10: it returns it when the function vanishes there and
    does not converge otherwise. *)
Definition logistic_externals : externals :=
  {| wall_clock := 0%Z;
     actual360_T := fun t0 t1 => IZR (t1 - t0) / 360;
     trading_T := fun t0 t1 => IZR (t1 - t0) / 252;
     trading_days := 252;
     norm_cdf := logistic;
     norm_pdf := fun x => logistic x * (1 - logistic x);
     newton := fun g _ => if Req_dec_T (g (2 / 10)) 0 then Some (2 / 10)
                          else None |}.

(** A call struck at 1, 252 trading days from expiry, not yet calibrated. *)
Definition year_call_attrs : option_attrs :=
  {| otype := Some "call"%string; strike := 1; expir := 252%Z; _vol := None;
     _manual_vol := false; moneyness := None; probability := None;
     oprice := None; ogreeks := null_greeks |}.

(** The price of that call at the volatility 2/10 on a forward of 1, with
    the logistic distribution and no discounting. *)
Definition logistic_price : R :=
  logistic (2 / 10 / 2) - logistic (- (2 / 10 / 2)).

(** The future of [future_and_call], quoted 1 / 1, and that call on it, bid
    and asked its price at the volatility 2/10. *)
Definition future_and_priced_call : world :=
  {| heap := [ {| nbase := future_base;
                  ncls := CurrencyFuture (rated 0 0 360%Z) |};
               {| nbase := quoted (Some logistic_price) (Some logistic_price)
                             (Some ((logistic_price + logistic_price) / 2))
                             (Some (logistic_price - logistic_price))
                             (Some 0%nat) [];
                  ncls := CurrencyFutureOption year_call_attrs |} ];
     log := [] |}.

Lemma logistic_increasing x y : x <= y -> logistic x <= logistic y.
Proof.
  intros H. unfold logistic.
  assert (He : exp (- y) <= exp (- x)).
  { destruct (Req_dec x y) as [->|Hne]; [lra |].
    left. apply exp_increasing. lra. }
  pose proof (exp_pos (- x)). pose proof (exp_pos (- y)).
  unfold Rdiv. rewrite !Rmult_1_l. apply Rinv_le_contravar; lra.
Qed.

Lemma exp_half_le_2 : exp (1 / 2) <= 2.
Proof.
  pose proof (exp_pos (1 / 2)) as Hp.
  assert (H : exp (1 / 2) * exp (1 / 2) <= 3).
  { rewrite <- exp_plus. replace (1 / 2 + 1 / 2) with 1 by lra.
    exact exp_le_3. }
  nra.
Qed.

(** Between 0 and 1/2 the logistic function gains at least an eighth of
    what its argument gains. *)
Lemma logistic_slope u v :
  0 <= u -> u <= v -> v <= 1 / 2 -> (v - u) / 8 <= logistic v - logistic u.
Proof.
  intros Hu Huv Hv. unfold logistic.
  set (A := exp (- u)). set (B := exp (- v)).
  assert (HA : 0 < A) by apply exp_pos.
  assert (HB : 0 < B) by apply exp_pos.
  assert (HA1 : A <= 1).
  { unfold A. rewrite <- exp_0.
    destruct (Req_dec u 0) as [->|Hne]; [rewrite Ropp_0; lra |].
    left. apply exp_increasing. lra. }
  assert (HB1 : B <= 1).
  { unfold B. rewrite <- exp_0.
    destruct (Req_dec v 0) as [->|Hne]; [rewrite Ropp_0; lra |].
    left. apply exp_increasing. lra. }
  assert (HBh : 1 / 2 <= B).
  { apply Rle_trans with (exp (- (1 / 2))).
    - rewrite exp_Ropp. pose proof exp_half_le_2.
      pose proof (exp_pos (1 / 2)).
      replace (1 / 2) with (/ 2) at 1 by lra.
      apply Rinv_le_contravar; lra.
    - unfold B. destruct (Req_dec v (1 / 2)) as [->|Hne]; [lra |].
      left. apply exp_increasing. lra. }
  assert (HAB : A = B * exp (v - u)).
  { unfold A, B. rewrite <- exp_plus. f_equal. ring. }
  pose proof (exp_ineq1_le (v - u)) as Hexp.
  assert (Hnum : (v - u) / 2 <= A - B) by nra.
  replace (1 / (1 + B) - 1 / (1 + A))
    with ((A - B) * / ((1 + A) * (1 + B))) by (field; split; lra).
  replace ((v - u) / 8) with ((v - u) / 2 * / 4) by lra.
  apply Rmult_le_compat; try lra.
  apply Rinv_le_contravar; nra.
Qed.

Lemma year_tenor :
  t_tenor logistic_externals future_base year_call_attrs = 1.
Proof.
  unfold t_tenor, now_of. simpl.
  change (IZR (252 - 0)) with 252. lra.
Qed.

Lemma d_plus_at_the_money x : d_plus ((1 + 1) / 2) 1 x 1 = x / 2.
Proof.
  unfold d_plus. replace ((1 + 1) / 2 / 1) with 1 by lra.
  rewrite ln_1, sqrt_1.
  destruct (Req_dec x 0) as [->|Hx].
  - unfold Rdiv. rewrite !Rmult_0_l. ring.
  - field. exact Hx.
Qed.

Lemma d_minus_at_the_money x : d_minus ((1 + 1) / 2) 1 x 1 = - (x / 2).
Proof.
  unfold d_minus. rewrite d_plus_at_the_money, sqrt_1. lra.
Qed.

(** The price of the call of [future_and_priced_call] at the volatility
    [x], and the function handed to the root-finder for the price [p]. *)
Lemma logistic_black76 x :
  black76_at logistic_externals future_base year_call_attrs 0 ((1 + 1) / 2) x
  = Some (logistic (x / 2) - logistic (- (x / 2))).
Proof.
  unfold black76_at. rewrite year_tenor.
  rewrite d_plus_at_the_money, d_minus_at_the_money.
  unfold black76. simpl. f_equal.
  match goal with
  | |- exp ?e * _ = _ => replace e with 0 by ring
  end.
  rewrite exp_0. lra.
Qed.

Lemma logistic_objective p x :
  objective_at logistic_externals future_base year_call_attrs 0
    ((1 + 1) / 2) p x
  = logistic (x / 2) - logistic (- (x / 2)) - p.
Proof.
  destruct (objective_black76 logistic_externals future_base year_call_attrs
              0 ((1 + 1) / 2) p x eq_refl) as (price & Hp & Hg).
  unfold objective_at. rewrite Hg.
  rewrite logistic_black76 in Hp. injection Hp as <-. reflexivity.
Qed.

Lemma logistic_objective_increasing p x y :
  x <= y ->
  objective_at logistic_externals future_base year_call_attrs 0
    ((1 + 1) / 2) p x
  <= objective_at logistic_externals future_base year_call_attrs 0
       ((1 + 1) / 2) p y.
Proof.
  intros H. rewrite !logistic_objective.
  pose proof (logistic_increasing (x / 2) (y / 2)).
  pose proof (logistic_increasing (- (y / 2)) (- (x / 2))).
  lra.
Qed.

Lemma logistic_objective_slope p x y :
  0 <= x -> x <= y -> y <= 1 ->
  1 / 16 * (y - x)
  <= objective_at logistic_externals future_base year_call_attrs 0
       ((1 + 1) / 2) p y
     - objective_at logistic_externals future_base year_call_attrs 0
         ((1 + 1) / 2) p x.
Proof.
  intros Hx Hxy Hy. rewrite !logistic_objective.
  pose proof (logistic_slope (x / 2) (y / 2)).
  pose proof (logistic_increasing (- (y / 2)) (- (x / 2))).
  lra.
Qed.

Lemma logistic_newton x0 :
  exists v,
    newton logistic_externals
      (objective_at logistic_externals future_base year_call_attrs 0
         ((1 + 1) / 2) logistic_price) x0 = Some v
    /\ Rabs (objective_at logistic_externals future_base year_call_attrs 0
               ((1 + 1) / 2) logistic_price v) <= 1 / 1000.
Proof.
  assert (H0 : objective_at logistic_externals future_base year_call_attrs 0
                 ((1 + 1) / 2) logistic_price (2 / 10) = 0)
    by (rewrite logistic_objective; unfold logistic_price; ring).
  exists (2 / 10). split.
  - cbn [newton logistic_externals].
    destruct (Req_dec_T _ 0) as [_|H]; [reflexivity | contradiction].
  - rewrite H0, Rabs_R0. lra.
Qed.

Lemma logistic_price_positive : 0 < logistic_price.
Proof.
  unfold logistic_price.
  pose proof (logistic_slope 0 (2 / 10 / 2)).
  pose proof (logistic_increasing (- (2 / 10 / 2)) 0).
  lra.
Qed.

Lemma roundtrip_above_intrinsic_witness :
  exists v1 v w',
    _update logistic_externals 1%nat future_and_priced_call = (Ok tt, w')
    /\ log w'
       = [EvUpdate 1%nat; EvCorradoMiller 1%nat logistic_price;
          EvNewton 1%nat
            (first_guess logistic_externals future_base year_call_attrs 0
               ((1 + 1) / 2) logistic_price) logistic_price;
          EvNewton 1%nat v1 logistic_price]
    /\ stored _vol w' 1%nat = Some v
    /\ (exists price,
          stored oprice w' 1%nat = Some price
          /\ Rabs (price - logistic_price) <= 1 / 1000)
    /\ 1 / 16 * Rabs (v - 2 / 10) <= 1 / 1000.
Proof.
  refine (roundtrip_above_intrinsic logistic_externals 1%nat
            future_and_priced_call _ year_call_attrs 0%nat future_base
            (rated 0 0 360%Z) "call"%string ((1 + 1) / 2) 0 0 logistic_price
            (2 / 10) (1 / 1000) (1 / 16) 0 1
            eq_refl eq_refl eq_refl eq_refl eq_refl eq_refl eq_refl eq_refl
            _ _ _ eq_refl eq_refl eq_refl eq_refl
            (logistic_black76 (2 / 10)) _
            (fun _ => logistic_newton)
            (logistic_objective_increasing logistic_price)
            (logistic_objective_slope logistic_price) _ _ _).
  - simpl. lra.
  - lra.
  - simpl. lra.
  - unfold intrinsic. simpl. pose proof logistic_price_positive. lra.
  - lra.
  - lra.
  - lra.
Defined.
